(** * TMX Editor: a shallow embedding of [tmx_editor.py]

    The development follows the class [TMXEditor]: text helpers of Python's
    [str], the part of [xml.etree.ElementTree] the editor relies on, text
    extraction ([_get_seg_text], [_get_tu_texts]) and the operations on the
    loaded tree ([remove_exact_duplicates], [find_fuzzy_duplicates],
    [remove_empty_segments], [filter_tus], [merge_from]); then what is
    around them: [_get_body] and [_detect_language_pair],
    [remove_fuzzy_duplicates], [strip_inline_tags], the rows of
    [export_to_csv], [get_statistics], the handlers
    [_handle_fuzzy_duplicates] and [_batch_merge] of the command line, and
    the table of the text interface ([_rebuild_rows], [_apply_filter] of
    [tmx_tui.py]).

    Modelling conventions.
    - A Python [str] is a [string]; characters are restricted to ASCII, so
      [lower] touches 'A'..'Z' only and white space is the ASCII part of
      [str.isspace] (codes 9-13, 28-31 and 32).
    - A Python [int] is a [Z]; a [float] is an exact rational [Q].
    - An [Element] object is a [Node]: the element's content together with
      an object identity [oid].  [Element.remove] compares by identity, and
      [copy.deepcopy] allocates a fresh identity.
    - A Python [dict] is a [gmap], a [set] a [gset].
    - An operation that can raise returns a [Result]; an operation that
      mutates the tree returns the editor afterwards as well.
    - For the operations on the units the document is loaded ([load],
      [_get_body] succeed) and the editor holds the children of the body;
      [_get_body], [_detect_language_pair] and [strip_inline_tags], which
      walk the whole tree, take the root [Element].  Progress messages
      are left out. *)

From Stdlib Require Import Ascii ZArith QArith Lqa.
From Stdlib Require String.
From stdpp Require Import base option list strings gmap sets sorting.

Local Open Scope Z_scope.
Local Open Scope stdpp_scope.

(** ** Python [str] helpers *)

Module PyStr.

Definition code (c : ascii) : nat := Ascii.nat_of_ascii c.

(** [str.isspace] on one character of the ASCII range; Python counts
    further characters outside it (U+0085, U+00A0, ...) as white space. *)
Definition isspace (c : ascii) : bool :=
  let n := code c in
  ((9 <=? n)%nat && (n <=? 13)%nat) || ((28 <=? n)%nat && (n <=? 32)%nat).

Definition lower_char (c : ascii) : ascii :=
  let n := code c in
  if ((65 <=? n)%nat && (n <=? 90)%nat) then Ascii.ascii_of_nat (n + 32) else c.

(** [s.lower()] on ASCII text, where it maps 'A'..'Z' one by one.  Outside
    ASCII Python's [lower] has more letters to map and can change the
    length of a text; what depends on this says so. *)
Fixpoint lower (s : string) : string :=
  match s with
  | EmptyString => EmptyString
  | String c s' => String (lower_char c) (lower s')
  end.

(** [s.split()]: maximal runs of characters that are not white space.
    [cur] is the word being read, kept in reverse. *)
Fixpoint split_aux (s : string) (cur : list ascii) : list string :=
  match s with
  | EmptyString =>
      match cur with
      | [] => []
      | _ => [String.string_of_list_ascii (rev cur)]
      end
  | String c s' =>
      if isspace c then
        match cur with
        | [] => split_aux s' []
        | _ => String.string_of_list_ascii (rev cur) :: split_aux s' []
        end
      else split_aux s' (c :: cur)
  end.

Definition split (s : string) : list string := split_aux s [].

(** [sep.join(parts)] *)
Definition join (sep : string) (parts : list string) : string :=
  String.concat sep parts.

Fixpoint lstrip (s : string) : string :=
  match s with
  | EmptyString => EmptyString
  | String c s' => if isspace c then lstrip s' else s
  end.

Fixpoint rstrip (s : string) : string :=
  match s with
  | EmptyString => EmptyString
  | String c s' =>
      match rstrip s' with
      | EmptyString => if isspace c then EmptyString else String c EmptyString
      | r => String c r
      end
  end.

(** [s.strip()] *)
Definition strip (s : string) : string := rstrip (lstrip s).

(** [s[:n]] *)
Definition prefix (n : nat) (s : string) : string := String.substring 0 n s.

(** [len(s)] *)
Definition len (s : string) : Z := Z.of_nat (String.length s).

(** Truth value of a string: the empty string is false. *)
Definition truthy (s : string) : bool :=
  match s with EmptyString => false | _ => true end.

(** Truth value of an optional string: [None] and [''] are false. *)
Definition otruthy (o : option string) : bool :=
  match o with Some s => truthy s | None => false end.

(** [a or b] on optional strings. *)
Definition or_else (a b : option string) : option string :=
  if otruthy a then a else b.

(** [s1 < s2] and [s1 > s2]: comparison by code points. *)
Definition ltb (s1 s2 : string) : bool :=
  match String.compare s1 s2 with Lt => true | _ => false end.
Definition gtb (s1 s2 : string) : bool := ltb s2 s1.

(** [' '.join(s.lower().split())], the normal form the editor compares. *)
Definition normalize (s : string) : string := join " " (split (lower s)).

End PyStr.

(** ** The part of [xml.etree.ElementTree] the editor uses *)

#[warnings="-register-all"]
Inductive Element : Type :=
  Elem (tag : string) (attrib : gmap string string)
       (text tail : option string) (children : list Element).

Definition tag (e : Element) : string := let 'Elem t _ _ _ _ := e in t.
Definition attrib (e : Element) : gmap string string := let 'Elem _ a _ _ _ := e in a.
Definition text (e : Element) : option string := let 'Elem _ _ t _ _ := e in t.
Definition tail (e : Element) : option string := let 'Elem _ _ _ t _ := e in t.
Definition children (e : Element) : list Element := let 'Elem _ _ _ _ c := e in c.

(** [e.get(key)] *)
Definition get (e : Element) (key : string) : option string := attrib e !! key.

(** [e.get(key, default)] *)
Definition get_default (e : Element) (key default : string) : string :=
  match get e key with Some v => v | None => default end.

(** [e.findall(t)] for a plain tag: the direct children with that tag. *)
Definition findall (t : string) (e : Element) : list Element :=
  filter (λ c, tag c = t) (children e).

(** [e.find(t)]: the first direct child with that tag. *)
Definition find (t : string) (e : Element) : option Element :=
  head (findall t e).

Definition yield_text (o : option string) : list string :=
  match o with
  | Some s => if PyStr.truthy s then [s] else []
  | None => []
  end.

(** [e.itertext()]: the element's text, then for every child its inner text
    followed by its tail, in document order. *)
Fixpoint itertext (e : Element) : list string :=
  match e with
  | Elem _ _ t _ cs =>
      yield_text t ++
      List.flat_map (λ c, itertext c ++ yield_text (tail c)) cs
  end.


(** ** Objects, exceptions and the editor *)

(** An element object: its content and its identity.  Two objects are the
    same object exactly when their [oid]s agree. *)
Record Node := MkNode { oid : nat; elem : Element }.

(** The identities of a list of objects. *)
Abbreviation oids b := (oid <$> b) (only parsing).

Inductive PyError := ValueError | ZeroDivisionError | IndexError | ReError.

Inductive Result (A : Type) :=
| Ok (a : A)
| Raise (e : PyError).
Arguments Ok {A} a.
Arguments Raise {A} e.

(** The state of a [TMXEditor] the operations read: the detected language
    pair and the children of the [<body>] element. *)
Record TMXEditor := MkEditor {
  source_lang : string;
  target_lang : string;
  body : list Node
}.

Definition set_body (ed : TMXEditor) (b : list Node) : TMXEditor :=
  MkEditor (source_lang ed) (target_lang ed) b.

(** [body.findall('tu')] *)
Definition body_findall (t : string) (b : list Node) : list Node :=
  filter (λ n, tag (elem n) = t) b.

(** [body.remove(x)]: drops the first child that is the object [x];
    [None] stands for the [ValueError] raised when there is none. *)
Fixpoint body_remove (x : Node) (b : list Node) : option (list Node) :=
  match b with
  | [] => None
  | y :: b' =>
      if decide (oid y = oid x) then Some b'
      else match body_remove x b' with
           | Some r => Some (y :: r)
           | None => None
           end
  end.

(** [for tu in to_remove: body.remove(tu)]; on an exception the body is
    returned as it is at that moment. *)
Fixpoint remove_each (xs : list Node) (b : list Node) : list Node * option PyError :=
  match xs with
  | [] => (b, None)
  | x :: xs' =>
      match body_remove x b with
      | Some b' => remove_each xs' b'
      | None => (b, Some ValueError)
      end
  end.

Definition xml_lang_key : string := "{http://www.w3.org/XML/1998/namespace}lang".

(** The language tag of a [tuv], lower-cased. *)
Definition tuv_lang (tuv : Element) : string :=
  let l := PyStr.or_else
             (PyStr.or_else
                (PyStr.or_else (get tuv xml_lang_key) (get tuv "xml:lang"))
                (get tuv "lang"))
             (Some "") in
  PyStr.lower (default "" l).

Definition _get_seg_text (seg : option Element) : string :=
  match seg with
  | None => ""
  | Some s => PyStr.strip (PyStr.join "" (itertext s))
  end.

(** One round of the loop of [_get_tu_texts] over the [tuv] children. *)
Definition pick_tuv (ed : TMXEditor) (st : option Element * option Element)
    (tuv : Element) : option Element * option Element :=
  let '(source_tuv, target_tuv) := st in
  if bool_decide (tuv_lang tuv = source_lang ed)
     || (bool_decide (source_tuv = None :> option Element)
         && bool_decide (target_tuv = None :> option Element))
  then (Some tuv, target_tuv)
  else if bool_decide (tuv_lang tuv = target_lang ed)
          || bool_decide (target_tuv = None :> option Element)
  then (source_tuv, Some tuv)
  else (source_tuv, target_tuv).

(** [_get_tu_texts]: the result is either [(None, None)], modelled as
    [None], or a pair of strings. *)
Definition _get_tu_texts (ed : TMXEditor) (tu : Element) : option (string * string) :=
  match findall "tuv" tu with
  | t0 :: t1 :: rest =>
      let tuvs := t0 :: t1 :: rest in
      let '(source_tuv, target_tuv) := fold_left (pick_tuv ed) tuvs (None, None) in
      let source_tuv := default t0 source_tuv in
      let target_tuv := default t1 target_tuv in
      Some (_get_seg_text (find "seg" source_tuv),
            _get_seg_text (find "seg" target_tuv))
  | _ => None
  end.

(** The key both the exact deduplication and the merge compare. *)
Definition pair_key (source_text target_text : string) : string :=
  PyStr.normalize source_text +:+ "|||" +:+ PyStr.normalize target_text.

(** ** Operation 1: remove exact duplicates *)

Record DedupResult := MkDedupResult {
  removed_count : Z;
  unique_count : Z;
  total_before : Z;
  examples : list (string * string)
}.

(** The loop variables of [remove_exact_duplicates]. *)
Record DedupState := MkDedupState {
  seen_keys : gset string;
  to_remove : list Node;
  duplicate_examples : list (string * string)
}.

Definition dedup_step (ed : TMXEditor) (st : DedupState) (tu : Node) : DedupState :=
  match _get_tu_texts ed (elem tu) with
  | None => st
  | Some (source_text, target_text) =>
      let key := pair_key source_text target_text in
      if decide (key ∈ seen_keys st) then
        MkDedupState (seen_keys st) (to_remove st ++ [tu])
          (if decide (length (duplicate_examples st) < 10)%nat
           then duplicate_examples st ++
                  [(PyStr.prefix 80 source_text, PyStr.prefix 80 target_text)]
           else duplicate_examples st)
      else
        MkDedupState ({[key]} ∪ seen_keys st) (to_remove st) (duplicate_examples st)
  end.

Definition dedup_scan (ed : TMXEditor) (all_tus : list Node) : DedupState :=
  fold_left (dedup_step ed) all_tus (MkDedupState ∅ [] []).

(** [remove_exact_duplicates]: the editor afterwards, and the returned
    dictionary or the exception raised. *)
Definition remove_exact_duplicates (ed : TMXEditor) : TMXEditor * Result DedupResult :=
  let all_tus := body_findall "tu" (body ed) in
  let total_before := Z.of_nat (length all_tus) in
  let st := dedup_scan ed all_tus in
  match remove_each (to_remove st) (body ed) with
  | (b, Some e) => (set_body ed b, Raise e)
  | (b, None) =>
      (set_body ed b,
       Ok (MkDedupResult (Z.of_nat (length (to_remove st)))
             (total_before - Z.of_nat (length (to_remove st)))
             total_before
             (duplicate_examples st)))
  end.

(** ** Operation 3: remove empty or missing segments *)

Record EmptyResult := MkEmptyResult {
  e_removed_count : Z;
  remaining_count : Z;
  e_total_before : Z;
  by_type : gmap string Z
}.

(** [by_type[k] += 1] on a [defaultdict(int)]. *)
Definition bump (k : string) (m : gmap string Z) : gmap string Z :=
  <[k := default 0 (m !! k) + 1]> m.

Definition empty_step (ed : TMXEditor) (st : list Node * gmap string Z)
    (tu : Node) : list Node * gmap string Z :=
  let '(to_rm, counts) := st in
  let tuvs := findall "tuv" (elem tu) in
  if decide (length tuvs < 2)%nat then (to_rm ++ [tu], bump "missing_tuv" counts)
  else
    match _get_tu_texts ed (elem tu) with
    | None => (to_rm ++ [tu], bump "invalid_structure" counts)
    | Some (source_text, target_text) =>
        if negb (PyStr.truthy source_text) && negb (PyStr.truthy target_text)
        then (to_rm ++ [tu], bump "both_empty" counts)
        else if negb (PyStr.truthy source_text)
        then (to_rm ++ [tu], bump "empty_source" counts)
        else if negb (PyStr.truthy target_text)
        then (to_rm ++ [tu], bump "empty_target" counts)
        else st
    end.

Definition remove_empty_segments (ed : TMXEditor) : TMXEditor * Result EmptyResult :=
  let all_tus := body_findall "tu" (body ed) in
  let total_before := Z.of_nat (length all_tus) in
  let '(to_rm, counts) := fold_left (empty_step ed) all_tus ([], ∅) in
  match remove_each to_rm (body ed) with
  | (b, Some e) => (set_body ed b, Raise e)
  | (b, None) =>
      (set_body ed b,
       Ok (MkEmptyResult (Z.of_nat (length to_rm))
             (total_before - Z.of_nat (length to_rm))
             total_before counts))
  end.

(** ** Operation 5: filter *)

Section Filter.

(** Python's [re] module: compiled patterns, [re.compile(p, re.IGNORECASE)]
    ([None] when it raises [re.error]) and [pattern.search(s)] as a truth
    value. *)
Variable Pattern : Type.
Variable re_compile : string → option Pattern.
Variable re_search : Pattern → string → bool.

(** [re.compile(p, re.IGNORECASE) if p else None] *)
Definition compile_if (p : option string) : Result (option Pattern) :=
  match p with
  | Some s =>
      if PyStr.truthy s then
        match re_compile s with
        | Some r => Ok (Some r)
        | None => Raise ReError
        end
      else Ok None
  | None => Ok None
  end.

Record Criteria := MkCriteria {
  source_pattern : option string;
  target_pattern : option string;
  date_from : option string;
  date_to : option string
}.

(** The value of [match] before [invert] is applied. *)
Definition tu_matches (src_re tgt_re : option Pattern) (c : Criteria)
    (tu : Element) (source_text target_text : string) : bool :=
  let m := true in
  let m := match src_re with
           | Some r => if negb (re_search r source_text) then false else m
           | None => m
           end in
  let m := match tgt_re with
           | Some r =>
               let t := if PyStr.truthy target_text then target_text else "" in
               if negb (re_search r t) then false else m
           | None => m
           end in
  if PyStr.otruthy (date_from c) || PyStr.otruthy (date_to c) then
    let creation_date := get_default tu "creationdate" "" in
    let date_part := if PyStr.truthy creation_date
                     then PyStr.prefix 8 creation_date else "" in
    let m := match date_from c with
             | Some d => if PyStr.truthy d && PyStr.ltb date_part d then false else m
             | None => m
             end in
    let m := match date_to c with
             | Some d => if PyStr.truthy d && PyStr.gtb date_part d then false else m
             | None => m
             end in
    m
  else m.

Definition filter_step (ed : TMXEditor) (src_re tgt_re : option Pattern)
    (c : Criteria) (invert : bool) (matching : list Node) (tu : Node) : list Node :=
  match _get_tu_texts ed (elem tu) with
  | None => matching
  | Some (source_text, target_text) =>
      let m := tu_matches src_re tgt_re c (elem tu) source_text target_text in
      let m := if invert then negb m else m in
      if m then matching ++ [tu] else matching
  end.

Definition filter_tus (ed : TMXEditor) (c : Criteria) (invert : bool)
    : Result (list Node) :=
  match compile_if (source_pattern c) with
  | Raise e => Raise e
  | Ok src_re =>
      match compile_if (target_pattern c) with
      | Raise e => Raise e
      | Ok tgt_re =>
          Ok (fold_left (filter_step ed src_re tgt_re c invert)
                (body_findall "tu" (body ed)) [])
      end
  end.

End Filter.

(** ** Operation 7: merge *)

Record MergeResult := MkMergeResult {
  added : Z;
  skipped : Z;
  replaced : Z;
  total_after : Z
}.

(** The variables of [merge_from]: the body of the target being mutated,
    the two lookups, the counters, and [heap], the identity the next
    object created by [copy.deepcopy] receives. *)
Record MergeState := MkMergeState {
  m_body : list Node;
  existing_pairs : gset string;
  existing_sources : gmap string Node;
  m_added : Z;
  m_skipped : Z;
  m_replaced : Z;
  heap : nat
}.

(** [copy.deepcopy(tu)]: the same content in a new object. *)
Definition deepcopy (h : nat) (tu : Node) : Node := MkNode h (elem tu).

(** The first loop: the lookups built from the target's own units. *)
Definition index_step (ed : TMXEditor) (st : gset string * gmap string Node)
    (tu : Node) : gset string * gmap string Node :=
  match _get_tu_texts ed (elem tu) with
  | None => st
  | Some (src, tgt) =>
      let norm_src := PyStr.normalize src in
      ({[pair_key src tgt]} ∪ st.1, <[norm_src := tu]> st.2)
  end.

Definition build_index (ed : TMXEditor) : gset string * gmap string Node :=
  fold_left (index_step ed) (body_findall "tu" (body ed)) (∅, ∅).

(** One round of the second loop; [inr e] when the round raises [e]
    (nothing has been changed in that round by then). *)
Definition merge_step (other : TMXEditor) (duplicate_strategy : string)
    (st : MergeState) (tu : Node) : MergeState + PyError :=
  match _get_tu_texts other (elem tu) with
  | None => inl st
  | Some (src, tgt) =>
      let norm_src := PyStr.normalize src in
      let key := pair_key src tgt in
      if decide (key ∈ existing_pairs st) then
        inl (MkMergeState (m_body st) (existing_pairs st) (existing_sources st)
               (m_added st) (m_skipped st + 1) (m_replaced st) (heap st))
      else
        match existing_sources st !! norm_src with
        | Some old_tu =>
            if decide (duplicate_strategy = "skip") then
              inl (MkMergeState (m_body st) (existing_pairs st) (existing_sources st)
                     (m_added st) (m_skipped st + 1) (m_replaced st) (heap st))
            else if decide (duplicate_strategy = "replace") then
              match body_remove old_tu (m_body st) with
              | None => inr ValueError
              | Some b =>
                  inl (MkMergeState (b ++ [deepcopy (heap st) tu])
                         (existing_pairs st)
                         (<[norm_src := tu]> (existing_sources st))
                         (m_added st) (m_skipped st) (m_replaced st + 1)
                         (S (heap st)))
              end
            else if decide (duplicate_strategy = "keep_both") then
              inl (MkMergeState (m_body st ++ [deepcopy (heap st) tu])
                     (existing_pairs st) (existing_sources st)
                     (m_added st + 1) (m_skipped st) (m_replaced st)
                     (S (heap st)))
            else inl st
        | None =>
            inl (MkMergeState (m_body st ++ [deepcopy (heap st) tu])
                   ({[key]} ∪ existing_pairs st)
                   (<[norm_src := tu]> (existing_sources st))
                   (m_added st + 1) (m_skipped st) (m_replaced st)
                   (S (heap st)))
        end
  end.

(** The second loop over the units of the other file.  On an exception the
    state is the one reached when it was raised. *)
Fixpoint merge_loop (other : TMXEditor) (duplicate_strategy : string)
    (tus : list Node) (st : MergeState) : MergeState * option PyError :=
  match tus with
  | [] => (st, None)
  | tu :: rest =>
      match merge_step other duplicate_strategy st tu with
      | inl st' => merge_loop other duplicate_strategy rest st'
      | inr e => (st, Some e)
      end
  end.

(** [merge_from], applied to the editor [other] that [load] produced for
    [other_path].  [h] is the first object identity not in use.  The result
    is the target editor afterwards and the returned dictionary or the
    exception raised. *)
Definition merge_from (self other : TMXEditor) (duplicate_strategy : string)
    (h : nat) : TMXEditor * Result MergeResult :=
  let '(pairs, sources) := build_index self in
  let st0 := MkMergeState (body self) pairs sources 0 0 0 h in
  match merge_loop other duplicate_strategy (body_findall "tu" (body other)) st0 with
  | (st, Some e) => (set_body self (m_body st), Raise e)
  | (st, None) =>
      (set_body self (m_body st),
       Ok (MkMergeResult (m_added st) (m_skipped st) (m_replaced st)
             (Z.of_nat (length (body_findall "tu" (m_body st))))))
  end.

(** ** [difflib.SequenceMatcher(None, a, b).ratio()]

    The matcher of Python's standard library, as the editor calls it: no
    junk predicate, [autojunk] left on.  Sequences are lists of characters
    and positions are Python integers. *)

Module Difflib.

Definition Block : Type := Z * Z * Z.

Definition item (s : list ascii) (i : Z) : option ascii := s !! Z.to_nat i.

(** [__chain_b]: for every character of [b] the ascending list of its
    positions; with [autojunk], in a sequence of 200 or more items the
    characters occurring more than [n // 100 + 1] times are dropped. *)
Fixpoint chain_loop (b : list ascii) (i : Z) (b2j : gmap ascii (list Z))
    : gmap ascii (list Z) :=
  match b with
  | [] => b2j
  | elt :: b' => chain_loop b' (i + 1) (<[elt := default [] (b2j !! elt) ++ [i]]> b2j)
  end.

Definition chain_b (b : list ascii) : gmap ascii (list Z) :=
  let b2j := chain_loop b 0 ∅ in
  let n := Z.of_nat (length b) in
  if decide (200 ≤ n) then
    let ntest := n `div` 100 + 1 in
    filter (λ kv, ¬ (ntest < Z.of_nat (length kv.2))) b2j
  else b2j.

(** The junk set [bjunk]: empty, since [isjunk] is [None]. *)
Definition bjunk : gset ascii := ∅.
Definition isbjunk (c : ascii) : bool := bool_decide (c ∈ bjunk).

(** The loop over the positions [j] of [a[i]] in [b]. *)
Fixpoint scan_row (i blo bhi : Z) (j2len : gmap Z Z) (js : list Z)
    (newj2len : gmap Z Z) (best : Block) : gmap Z Z * Block :=
  match js with
  | [] => (newj2len, best)
  | j :: js' =>
      if decide (j < blo) then scan_row i blo bhi j2len js' newj2len best
      else if decide (bhi ≤ j) then (newj2len, best)
      else
        let k := default 0 (j2len !! (j - 1)) + 1 in
        let best := if decide (best.2 < k) then (i - k + 1, j - k + 1, k) else best in
        scan_row i blo bhi j2len js' (<[j := k]> newj2len) best
  end.

(** The loop [for i in range(alo, ahi)]. *)
Fixpoint scan_rows (a : list ascii) (b2j : gmap ascii (list Z)) (blo bhi : Z)
    (rows : list Z) (j2len : gmap Z Z) (best : Block) : Block :=
  match rows with
  | [] => best
  | i :: rows' =>
      let js := match item a i with
                | Some c => default [] (b2j !! c)
                | None => []
                end in
      let '(newj2len, best) := scan_row i blo bhi j2len js ∅ best in
      scan_rows a b2j blo bhi rows' newj2len best
  end.

Definition same_item (a b : list ascii) (i j : Z) : bool :=
  match item a i, item b j with
  | Some x, Some y => bool_decide (x = y)
  | _, _ => false
  end.

Definition junk_at (b : list ascii) (j : Z) : bool :=
  match item b j with Some c => isbjunk c | None => false end.

(** The [while] loops that grow the block to the left and to the right;
    [junk] tells whether the loop takes junk or non-junk items.  Each round
    moves [besti] or the right end by one inside [alo, ahi), so [fuel]
    rounds are all the loop can make when [fuel] is the width of that
    range. *)
Fixpoint extend_left (fuel : nat) (junk : bool) (a b : list ascii)
    (alo blo : Z) (best : Block) : Block :=
  match fuel with
  | O => best
  | S fuel' =>
      let '(besti, bestj, bestsize) := best in
      if bool_decide (alo < besti) && bool_decide (blo < bestj)
         && bool_decide (junk_at b (bestj - 1) = junk)
         && same_item a b (besti - 1) (bestj - 1)
      then extend_left fuel' junk a b alo blo (besti - 1, bestj - 1, bestsize + 1)
      else best
  end.

Fixpoint extend_right (fuel : nat) (junk : bool) (a b : list ascii)
    (ahi bhi : Z) (best : Block) : Block :=
  match fuel with
  | O => best
  | S fuel' =>
      let '(besti, bestj, bestsize) := best in
      if bool_decide (besti + bestsize < ahi) && bool_decide (bestj + bestsize < bhi)
         && bool_decide (junk_at b (bestj + bestsize) = junk)
         && same_item a b (besti + bestsize) (bestj + bestsize)
      then extend_right fuel' junk a b ahi bhi (besti, bestj, bestsize + 1)
      else best
  end.

Definition find_longest_match_within (fuel : nat) (a b : list ascii)
    (b2j : gmap ascii (list Z)) (alo ahi blo bhi : Z) : Block :=
  let best := scan_rows a b2j blo bhi (seqZ alo (ahi - alo)) ∅ (alo, blo, 0) in
  let best := extend_left fuel false a b alo blo best in
  let best := extend_right fuel false a b ahi bhi best in
  let best := extend_left fuel true a b alo blo best in
  extend_right fuel true a b ahi bhi best.

Definition find_longest_match (a b : list ascii) (b2j : gmap ascii (list Z))
    (alo ahi blo bhi : Z) : Block :=
  find_longest_match_within (Z.to_nat (ahi - alo)) a b b2j alo ahi blo bhi.

(** The work list of [get_matching_blocks].  The Python list [queue] is
    used as a stack; its last item is the head here. *)
Fixpoint blocks_loop (fuel : nat) (a b : list ascii) (b2j : gmap ascii (list Z))
    (queue : list (Z * Z * Z * Z)) (matching_blocks : list Block) : list Block :=
  match fuel with
  | O => matching_blocks
  | S fuel' =>
      match queue with
      | [] => matching_blocks
      | (alo, ahi, blo, bhi) :: queue =>
          let '(i, j, k) := find_longest_match a b b2j alo ahi blo bhi in
          if decide (k = 0) then blocks_loop fuel' a b b2j queue matching_blocks
          else
            let queue := if bool_decide (alo < i) && bool_decide (blo < j)
                         then (alo, i, blo, j) :: queue else queue in
            let queue := if bool_decide (i + k < ahi) && bool_decide (j + k < bhi)
                         then (i + k, ahi, j + k, bhi) :: queue else queue in
            blocks_loop fuel' a b b2j queue (matching_blocks ++ [(i, j, k)])
      end
  end.

(** Order of tuples, and [list.sort()] as a stable insertion sort. *)
Definition block_ltb (x y : Block) : bool :=
  let '(i1, j1, k1) := x in
  let '(i2, j2, k2) := y in
  bool_decide (i1 < i2)
  || (bool_decide (i1 = i2)
      && (bool_decide (j1 < j2) || (bool_decide (j1 = j2) && bool_decide (k1 < k2)))).

Fixpoint insert_block (x : Block) (l : list Block) : list Block :=
  match l with
  | [] => [x]
  | y :: l' => if block_ltb y x then y :: insert_block x l' else x :: l
  end.

Definition sort_blocks (l : list Block) : list Block := foldr insert_block [] l.

(** Merging of adjacent blocks; [cur] is [(i1, j1, k1)]. *)
Fixpoint collapse (l : list Block) (cur : Block) (non_adjacent : list Block)
    : list Block :=
  let '(i1, j1, k1) := cur in
  match l with
  | [] => if decide (k1 = 0) then non_adjacent else non_adjacent ++ [cur]
  | (i2, j2, k2) :: l' =>
      if bool_decide (i1 + k1 = i2) && bool_decide (j1 + k1 = j2)
      then collapse l' (i1, j1, k1 + k2) non_adjacent
      else collapse l' (i2, j2, k2)
             (if decide (k1 = 0) then non_adjacent else non_adjacent ++ [cur])
  end.

(** The number of rounds [blocks_loop] is given: every round either closes
    a range of the queue or splits it around a block of at least one item,
    so [2 * len(a) + 1] rounds empty the queue. *)
Definition rounds (a : list ascii) : nat := S (2 * length a).

Definition get_matching_blocks (a b : list ascii) : list Block :=
  let la := Z.of_nat (length a) in
  let lb := Z.of_nat (length b) in
  let found := blocks_loop (rounds a) a b (chain_b b) [(0, la, 0, lb)] [] in
  collapse (sort_blocks found) (0, 0, 0) [] ++ [(la, lb, 0)].

Definition _calculate_ratio (matches length : Z) : Q :=
  if decide (length = 0) then 1%Q
  else Qmake (2 * matches) (Z.to_pos length).

Definition sum_sizes (l : list Block) : Z := foldr (λ x acc, x.2 + acc) 0 l.

Definition ratio (a b : string) : Q :=
  let a := String.list_ascii_of_string a in
  let b := String.list_ascii_of_string b in
  _calculate_ratio (sum_sizes (get_matching_blocks a b))
    (Z.of_nat (length a) + Z.of_nat (length b)).

End Difflib.

(** ** Operation 2: fuzzy duplicate detection *)

(** An entry of [tu_data]: [(tu_number, tu_element, source, target)]. *)
Record Item := MkItem {
  tu_number : Z;
  tu_element : Node;
  src : string;
  tgt : string
}.

(** A member of [similar_tus]; [similarity] is a percentage with one
    decimal. *)
Record Similar := MkSimilar {
  s_tu_number : Z;
  s_tu_element : Node;
  s_source : string;
  s_target : string;
  similarity : Q
}.

Record Group := MkGroup {
  representative_tu : Z;
  representative_source : string;
  representative_target : string;
  similar_tus : list Similar
}.

(** [for i, tu in enumerate(all_tus)]: the units with a non-empty source. *)
Fixpoint collect_tu_data (ed : TMXEditor) (i : Z) (all_tus : list Node) : list Item :=
  match all_tus with
  | [] => []
  | tu :: rest =>
      match _get_tu_texts ed (elem tu) with
      | Some (s, t) =>
          if PyStr.truthy s
          then MkItem (i + 1) tu s (if PyStr.truthy t then t else "")
                 :: collect_tu_data ed (i + 1) rest
          else collect_tu_data ed (i + 1) rest
      | None => collect_tu_data ed (i + 1) rest
      end
  end.

(** Only the first item of every normalised source is kept. *)
Fixpoint unique_sources (tu_data : list Item) (seen_exact : gmap string bool)
    : list Item :=
  match tu_data with
  | [] => []
  | it :: rest =>
      let norm := PyStr.normalize (src it) in
      match seen_exact !! norm with
      | None => it :: unique_sources rest (<[norm := true]> seen_exact)
      | Some _ => unique_sources rest seen_exact
      end
  end.

(** [unique_tus.sort(key=lambda x: len(x[2]))]: a stable sort. *)
Fixpoint insert_by_len (x : Item) (l : list Item) : list Item :=
  match l with
  | [] => [x]
  | y :: l' =>
      if decide (PyStr.len (src x) ≤ PyStr.len (src y)) then x :: l
      else y :: insert_by_len x l'
  end.

Definition sort_by_len (l : list Item) : list Item := foldr insert_by_len [] l.

(** [x / y] on floats. *)
Definition truediv (x y : Q) : Result Q :=
  if Qeq_bool y 0 then Raise ZeroDivisionError else Ok (x / y)%Q.

(** [len_i > 0 and len_j > len_i / threshold], with the exact quotient
    where the code has the rounded one. *)
Definition too_long (threshold : Q) (len_i len_j : Z) : Result bool :=
  if decide (0 < len_i) then
    match truediv (inject_Z len_i) threshold with
    | Ok bound => Ok (negb (Qle_bool (inject_Z len_j) bound))
    | Raise e => Raise e
    end
  else Ok false.

(** Rounding to the nearest integer, ties to even. *)
Definition round_half_even (q : Q) : Z :=
  let n := Qnum q in
  let d := Z.pos (Qden q) in
  let fl := n `div` d in
  let r := n `mod` d in
  if decide (2 * r < d) then fl
  else if decide (d < 2 * r) then fl + 1
  else if Z.even fl then fl else fl + 1.

(** [round(x, 1)] of the exact value; the code rounds the double it has
    computed, which can fall on the other side of a tie. *)
Definition round1 (x : Q) : Q := Qmake (round_half_even (x * 10)) 10.

Definition similar_of (it_j : Item) (ratio : Q) : Similar :=
  MkSimilar (tu_number it_j) (tu_element it_j) (src it_j) (tgt it_j)
    (round1 (ratio * 100)).

(** The inner loop [for j in range(i + 1, n)]. *)
Fixpoint scan_candidates (threshold : Q) (unique_tus : list Item) (it_i : Item)
    (js : list nat) (matched : list bool) (group_similar : list Similar)
    : Result (list bool * list Similar) :=
  match js with
  | [] => Ok (matched, group_similar)
  | j :: js' =>
      match matched !! j, unique_tus !! j with
      | Some true, _ =>
          scan_candidates threshold unique_tus it_i js' matched group_similar
      | Some false, Some it_j =>
          match too_long threshold (PyStr.len (src it_i)) (PyStr.len (src it_j)) with
          | Raise e => Raise e
          | Ok true => Ok (matched, group_similar)
          | Ok false =>
              let ratio := Difflib.ratio (PyStr.lower (src it_i)) (PyStr.lower (src it_j)) in
              if Qle_bool threshold ratio
              then scan_candidates threshold unique_tus it_i js'
                     (<[j := true]> matched) (group_similar ++ [similar_of it_j ratio])
              else scan_candidates threshold unique_tus it_i js' matched group_similar
          end
      | _, _ => Raise IndexError
      end
  end.

(** The outer loop [for i in range(n)], over the inner loop [scan]. *)
Fixpoint cluster
    (scan : list Item → Item → list nat → list bool → list Similar →
            Result (list bool * list Similar))
    (unique_tus : list Item) (n : nat) (rng : list nat) (matched : list bool)
    (groups : list Group) : Result (list Group) :=
  match rng with
  | [] => Ok groups
  | i :: rng' =>
      match matched !! i, unique_tus !! i with
      | Some true, _ => cluster scan unique_tus n rng' matched groups
      | Some false, Some it_i =>
          match scan unique_tus it_i (seq (S i) (n - S i)) matched [] with
          | Raise e => Raise e
          | Ok (matched', group_similar) =>
              cluster scan unique_tus n rng' matched'
                (match group_similar with
                 | [] => groups
                 | _ => groups ++ [MkGroup (tu_number it_i) (src it_i) (tgt it_i)
                                     group_similar]
                 end)
          end
      | _, _ => Raise IndexError
      end
  end.

(** The sorted list [unique_tus] the clustering works on. *)
Definition unique_tus_of (ed : TMXEditor) : list Item :=
  let all_tus := body_findall "tu" (body ed) in
  let tu_data := collect_tu_data ed 0 all_tus in
  sort_by_len (unique_sources tu_data ∅).

Definition fuzzy_with
    (scan : list Item → Item → list nat → list bool → list Similar →
            Result (list bool * list Similar))
    (ed : TMXEditor) : Result (list Group) :=
  let unique_tus := unique_tus_of ed in
  let n := length unique_tus in
  cluster scan unique_tus n (seq 0 n) (replicate n false) [].

Definition find_fuzzy_duplicates (ed : TMXEditor) (threshold : Q)
    : Result (list Group) :=
  fuzzy_with (scan_candidates threshold) ed.

(** *** The two readings of the length test the specification compares

    [scan_no_exit] is the same inner loop with the length test taken out:
    every unmatched later item is compared. *)
Fixpoint scan_no_exit (threshold : Q) (unique_tus : list Item) (it_i : Item)
    (js : list nat) (matched : list bool) (group_similar : list Similar)
    : Result (list bool * list Similar) :=
  match js with
  | [] => Ok (matched, group_similar)
  | j :: js' =>
      match matched !! j, unique_tus !! j with
      | Some true, _ =>
          scan_no_exit threshold unique_tus it_i js' matched group_similar
      | Some false, Some it_j =>
          let ratio := Difflib.ratio (PyStr.lower (src it_i)) (PyStr.lower (src it_j)) in
          if Qle_bool threshold ratio
          then scan_no_exit threshold unique_tus it_i js'
                 (<[j := true]> matched) (group_similar ++ [similar_of it_j ratio])
          else scan_no_exit threshold unique_tus it_i js' matched group_similar
      | _, _ => Raise IndexError
      end
  end.

Definition find_fuzzy_duplicates_no_exit (ed : TMXEditor) (threshold : Q)
    : Result (list Group) :=
  fuzzy_with (scan_no_exit threshold) ed.



(** ** The tree below an element *)

(** [e.iter()]: the element itself, then its descendants, in document
    order. *)
Fixpoint iter (e : Element) : list Element :=
  match e with
  | Elem _ _ _ _ cs => e :: List.flat_map iter cs
  end.

(** [e.iter(t)] *)
Definition iter_tag (t : string) (e : Element) : list Element :=
  filter (λ x, tag x = t) (iter e).

(** [e.findall('.//t')]: the descendants with that tag, the element itself
    left out, in document order. *)
Definition findall_desc (t : string) (e : Element) : list Element :=
  List.flat_map (iter_tag t) (children e).

(** [e.find('.//t')] *)
Definition find_desc (t : string) (e : Element) : option Element :=
  head (findall_desc t e).

(** [list(e)] as a truth value. *)
Definition has_children (e : Element) : bool :=
  match children e with [] => false | _ => true end.

(** ** Loading: the body and the language pair *)

(** [_get_body] on the root of the tree; [None] stands for the exception
    raised when there is no [<body>]. *)
Definition _get_body (root : Element) : option Element :=
  match find "body" root with
  | Some body => Some body
  | None => find_desc "body" root
  end.

(** [tuv.get(ns) or tuv.get('xml:lang') or tuv.get('lang')] *)
Definition raw_lang (tuv : Element) : option string :=
  PyStr.or_else (PyStr.or_else (get tuv xml_lang_key) (get tuv "xml:lang"))
    (get tuv "lang").

(** One round of the loop over the first [tuv]s. *)
Definition add_lang (languages : gset string) (tuv : Element) : gset string :=
  match raw_lang tuv with
  | Some lang => if PyStr.truthy lang then {[PyStr.lower lang]} ∪ languages else languages
  | None => languages
  end.

(** [a <= b] on strings, and [sorted(languages)] as an insertion sort of
    the members of the set. *)
Definition str_leb (a b : string) : bool := negb (PyStr.ltb b a).

Fixpoint insert_str (x : string) (l : list string) : list string :=
  match l with
  | [] => [x]
  | y :: l' => if str_leb x y then x :: l else y :: insert_str x l'
  end.

Definition sorted (languages : gset string) : list string :=
  foldr insert_str [] (elements languages).

(** [header.get('srclang', '').lower() or None] for the first [<header>]
    below the root. *)
Definition header_srclang (root : Element) : option string :=
  match find_desc "header" root with
  | Some header =>
      let v := PyStr.lower (get_default header "srclang" "") in
      if PyStr.truthy v then Some v else None
  | None => None
  end.

(** The languages of the first 40 [tuv]s. *)
Definition sampled_languages (root : Element) : gset string :=
  fold_left add_lang (take 40 (findall_desc "tuv" root)) ∅.

(** [_detect_language_pair]; [None] stands for an exception ([IndexError]
    of an index, [StopIteration] of [next]). *)
Definition _detect_language_pair (root : Element) : option (string * string) :=
  let header_src_lang := header_srclang root in
  let languages := sampled_languages root in
  if bool_decide (size languages < 2)%nat && bool_decide (size languages = 1%nat) then
    match elements languages with
    | l :: _ => Some (l, "unknown")
    | [] => None
    end
  else if bool_decide (size languages < 1)%nat then Some ("unknown", "unknown")
  else
    match header_src_lang with
    | Some source_lang =>
        if decide (source_lang ∈ languages) then
          match filter (λ l, l ≠ source_lang) (sorted languages) with
          | target_lang :: _ => Some (source_lang, target_lang)
          | [] => None
          end
        else
          match sorted languages with
          | source_lang :: target_lang :: _ => Some (source_lang, target_lang)
          | _ => None
          end
    | None =>
        match sorted languages with
        | source_lang :: target_lang :: _ => Some (source_lang, target_lang)
        | _ => None
        end
    end.

(** ** Operation 2, second half: removing the fuzzy duplicates *)

(** One round of the inner loop: [body.remove(tu_elem)] inside
    [try ... except ValueError: pass].  Every member that
    [find_fuzzy_duplicates] builds carries its element, so the test
    [tu_elem is not None] holds. *)
Definition remove_similar (st : list Node * Z) (similar : Similar) : list Node * Z :=
  let '(b, removed) := st in
  match body_remove (s_tu_element similar) b with
  | Some b' => (b', removed + 1)
  | None => (b, removed)
  end.

Definition remove_group (st : list Node * Z) (group : Group) : list Node * Z :=
  fold_left remove_similar (similar_tus group) st.

(** [remove_fuzzy_duplicates]: the editor afterwards and the value of
    ['removed_count']. *)
Definition remove_fuzzy_duplicates (ed : TMXEditor) (groups : list Group)
    : TMXEditor * Z :=
  let '(b, removed) := fold_left remove_group groups (body ed, 0) in
  (set_body ed b, removed).

(** ** Operation 4: strip inline tags *)

Record StripResult := MkStripResult {
  segments_modified : Z;
  tags_removed : Z
}.

(** [sum] over a list of counters. *)
Definition total_of (l : list Z) : Z := foldr Z.add 0 l.

(** The loop [for seg in self.root.iter('seg')] on the subtree of [e].  A
    [seg] with children is emptied when the iteration reaches it, so the
    iteration does not go below it; its attributes are put back, its text
    becomes the joined text and [clear] has set its tail to [None].  The
    result is the subtree afterwards with the two counters. *)
Fixpoint strip_walk (e : Element) : Element * (Z * Z) :=
  match e with
  | Elem tg at_ tx tl cs =>
      if bool_decide (tg = "seg") && has_children e then
        let full_text := PyStr.join "" (itertext e) in
        let tag_count := Z.of_nat (length (iter e)) - 1 in
        (Elem tg at_ (Some full_text) None [], (1, tag_count))
      else
        let walked := List.map strip_walk cs in
        (Elem tg at_ tx tl (List.map fst walked),
         (total_of (List.map (λ r, r.2.1) walked),
          total_of (List.map (λ r, r.2.2) walked)))
  end.

(** [strip_inline_tags] on the tree: the tree afterwards and the returned
    dictionary. *)
Definition strip_inline_tags (root : Element) : Element * StripResult :=
  let '(root', (modified, removed)) := strip_walk root in
  (root', MkStripResult modified removed).

(** ** Operation 6: the rows of the CSV export *)

(** A field handed to [csv.writer]: the unit number is an [int], the
    others are strings. *)
Inductive Field :=
| FInt (n : Z)
| FStr (s : string).

Definition csv_headers (include_metadata : bool) : list Field :=
  [FStr "TU_Number"; FStr "Source_Language"; FStr "Source_Text";
   FStr "Target_Language"; FStr "Target_Text"]
  ++ (if include_metadata then [FStr "Creation_Date"; FStr "Change_Date"] else []).

Definition csv_row (ed : TMXEditor) (include_metadata : bool) (i : Z) (tu : Node)
    : list Field :=
  let '(source_text, target_text) :=
    match _get_tu_texts ed (elem tu) with
    | Some (s, t) => (s, t)
    | None => ("", "")
    end in
  [FInt i; FStr (source_lang ed); FStr source_text;
   FStr (target_lang ed); FStr target_text]
  ++ (if include_metadata
      then [FStr (get_default (elem tu) "creationdate" "");
            FStr (get_default (elem tu) "changedate" "")]
      else []).

(** [for i, tu in enumerate(tus, 1)] *)
Fixpoint csv_rows (ed : TMXEditor) (include_metadata : bool) (i : Z)
    (tus : list Node) : list (list Field) :=
  match tus with
  | [] => []
  | tu :: rest => csv_row ed include_metadata i tu :: csv_rows ed include_metadata (i + 1) rest
  end.

(** [export_to_csv]: the rows written, the header row first. *)
Definition export_to_csv (ed : TMXEditor) (include_metadata : bool)
    : list (list Field) :=
  csv_headers include_metadata
  :: csv_rows ed include_metadata 1 (body_findall "tu" (body ed)).

(** ** Statistics *)

(** The dictionary of [get_statistics], the entry ['file'] apart (the
    name of the loaded file, which this state does not hold). *)
Record Statistics := MkStatistics {
  total_tus : Z;
  stat_source_lang : string;
  stat_target_lang : string;
  empty_segments : Z;
  exact_duplicates : Z;
  segments_with_tags : Z
}.

(** [not src or not tgt] on the result of [_get_tu_texts]. *)
Definition lacks_text (texts : option (string * string)) : bool :=
  match texts with
  | None => true
  | Some (src, tgt) => negb (PyStr.truthy src) || negb (PyStr.truthy tgt)
  end.

(** [for seg in tu.iter('seg'): if list(seg): tagged_segments += 1] *)
Definition count_tagged (tagged_segments : Z) (tu : Element) : Z :=
  fold_left (λ n seg, if has_children seg then n + 1 else n)
    (iter_tag "seg" tu) tagged_segments.

(** The first loop. *)
Definition stat_step (ed : TMXEditor) (st : Z * Z) (tu : Node) : Z * Z :=
  let '(empty_count, tagged_segments) := st in
  let empty_count :=
    if lacks_text (_get_tu_texts ed (elem tu)) then empty_count + 1 else empty_count in
  (empty_count, count_tagged tagged_segments (elem tu)).

(** [tgt or ''] *)
Definition or_empty (s : string) : string := if PyStr.truthy s then s else "".

(** The second loop: later occurrences of a key are counted. *)
Definition count_dup_step (ed : TMXEditor) (st : gset string * Z) (tu : Node)
    : gset string * Z :=
  let '(seen, duplicate_count) := st in
  match _get_tu_texts ed (elem tu) with
  | None => st
  | Some (src, tgt) =>
      let key := pair_key src (or_empty tgt) in
      if decide (key ∈ seen) then (seen, duplicate_count + 1)
      else ({[key]} ∪ seen, duplicate_count)
  end.

Definition get_statistics (ed : TMXEditor) : Statistics :=
  let all_tus := body_findall "tu" (body ed) in
  let total := Z.of_nat (length all_tus) in
  let '(empty_count, tagged_segments) := fold_left (stat_step ed) all_tus (0, 0) in
  let '(seen, duplicate_count) := fold_left (count_dup_step ed) all_tus (∅, 0) in
  MkStatistics total (source_lang ed) (target_lang ed)
    empty_count duplicate_count tagged_segments.

(** ** The table of the text interface ([tmx_tui.py]) *)

Record TURow := MkTURow {
  index : Z;
  source : string;
  target : string;
  status : string;
  creation_date : string
}.

(** The first loop of [_rebuild_rows]: the keys seen, with the position of
    their first unit, and the keys seen again. *)
Fixpoint dup_lookup (ed : TMXEditor) (i : Z) (all_tus : list Node)
    (seen : gmap string Z) (dup_keys : gset string) : gset string :=
  match all_tus with
  | [] => dup_keys
  | tu :: rest =>
      match _get_tu_texts ed (elem tu) with
      | Some (src, tgt) =>
          let key := pair_key src (or_empty tgt) in
          match seen !! key with
          | Some _ => dup_lookup ed (i + 1) rest seen ({[key]} ∪ dup_keys)
          | None => dup_lookup ed (i + 1) rest (<[key := i]> seen) dup_keys
          end
      | None => dup_lookup ed (i + 1) rest seen dup_keys
      end
  end.

(** [for seg in tu.iter('seg'): if list(seg): has_tags = True; break] *)
Definition has_tags (tu : Element) : bool :=
  existsb has_children (iter_tag "seg" tu).

(** The row of the unit at position [i]. *)
Definition row_of (ed : TMXEditor) (dup_keys : gset string) (i : Z) (tu : Node)
    : TURow :=
  let '(src, tgt) :=
    match _get_tu_texts ed (elem tu) with
    | Some (s, t) => (s, t)
    | None => ("", "")
    end in
  let status :=
    if negb (PyStr.truthy src) || negb (PyStr.truthy tgt) then "EMPTY"
    else if bool_decide (pair_key src (or_empty tgt) ∈ dup_keys) then "DUP"
    else "" in
  let status :=
    if has_tags (elem tu) && negb (PyStr.truthy status) then "TAG" else status in
  MkTURow (i + 1) src tgt status (get_default (elem tu) "creationdate" "").

Fixpoint rows_from (ed : TMXEditor) (dup_keys : gset string) (i : Z)
    (all_tus : list Node) : list TURow :=
  match all_tus with
  | [] => []
  | tu :: rest => row_of ed dup_keys i tu :: rows_from ed dup_keys (i + 1) rest
  end.

(** [_rebuild_rows]: the value of [self.rows]. *)
Definition _rebuild_rows (ed : TMXEditor) : list TURow :=
  let all_tus := body_findall "tu" (body ed) in
  let dup_keys := dup_lookup ed 0 all_tus ∅ ∅ in
  rows_from ed dup_keys 0 all_tus.

(** [_apply_filter]: the value of [self.filtered_rows]; for a filter name
    other than the four, the attribute keeps its value [old]. *)
Definition _apply_filter (current_filter : string) (rows old : list TURow)
    : list TURow :=
  if decide (current_filter = "all") then rows
  else if decide (current_filter = "dup") then filter (λ r, status r = "DUP") rows
  else if decide (current_filter = "empty") then filter (λ r, status r = "EMPTY") rows
  else if decide (current_filter = "tagged") then filter (λ r, status r = "TAG") rows
  else old.

(** ** The command-line handler of the fuzzy duplicates *)

(** [_confirm]: the answer typed at the prompt, as a truth value. *)
Definition _confirm (response : string) : bool :=
  bool_decide (PyStr.lower (PyStr.strip response) ∈ ["y"; "yes"; "ja"; "j"]).

(** A Python [float]: a finite value, an infinity or a NaN. *)
Inductive PyFloat :=
| FloatFinite (q : Q)
| FloatInfinity (negative : bool)
| FloatNaN.

Section Handler.

(** [float(s)]; [None] stands for [ValueError]. *)
Variable float : string → option PyFloat.

(** The threshold read from the first answer: [float(s) / 100.0] when that
    lies in (0, 1], and 0.85 otherwise.  An infinity or a NaN divided by
    100 is itself and fails the range test; the division of a finite
    value is the exact one, as everywhere for [float]. *)
Definition read_threshold (answer : string) : Q :=
  let threshold_str := PyStr.strip answer in
  if PyStr.truthy threshold_str then
    match float threshold_str with
    | Some (FloatFinite x) =>
        let threshold := (x / 100)%Q in
        if negb (negb (Qle_bool threshold 0) && Qle_bool threshold 1)
        then (85 # 100)%Q else threshold
    | Some (FloatInfinity _) => (85 # 100)%Q
    | Some FloatNaN => (85 # 100)%Q
    | None => (85 # 100)%Q
    end
  else (85 # 100)%Q.

(** [_handle_fuzzy_duplicates], given the two answers typed: the editor
    afterwards, and the returned truth value or the exception raised. *)
Definition _handle_fuzzy_duplicates (editor : TMXEditor)
    (threshold_answer confirm_answer : string) : TMXEditor * Result bool :=
  let threshold := read_threshold threshold_answer in
  match find_fuzzy_duplicates editor threshold with
  | Raise e => (editor, Raise e)
  | Ok groups =>
      match groups with
      | [] => (editor, Ok false)
      | _ =>
          if _confirm confirm_answer then
            let '(editor', removed_count) := remove_fuzzy_duplicates editor groups in
            (editor', Ok (bool_decide (0 < removed_count)))
          else (editor, Ok false)
      end
  end.

End Handler.

(** ** Batch merge *)

(** What [_batch_merge] prints at the end. *)
Record MergeReport := MkMergeReport {
  files_merged : Z;
  total_added : Z;
  total_skipped : Z;
  total_replaced : Z;
  final_total_tus : Z
}.

(** The loop [for tmx_path in tmx_files[1:]]; [others] are the editors
    that [load] builds for these files, [h] the first identity not in
    use (every merge allocates one per copy). *)
Fixpoint merge_each (editor : TMXEditor) (others : list TMXEditor)
    (duplicate_strategy : string) (h : nat) (totals : Z * Z * Z)
    : TMXEditor * Result (Z * Z * Z) :=
  match others with
  | [] => (editor, Ok totals)
  | other :: rest =>
      match merge_from editor other duplicate_strategy h with
      | (editor', Raise e) => (editor', Raise e)
      | (editor', Ok result) =>
          let '(total_added, total_skipped, total_replaced) := totals in
          merge_each editor' rest duplicate_strategy
            (h + Z.to_nat (added result + replaced result))
            (total_added + added result, total_skipped + skipped result,
             total_replaced + replaced result)
      end
  end.

(** [_batch_merge] on the loaded files of the directory; [None] stands
    for [sys.exit(1)] (no file, or one file only).  [save] writes the tree
    to the output file and leaves the tree as it is; it is left out, like
    the messages. *)
Definition _batch_merge (files : list TMXEditor) (duplicate_strategy : string)
    (h : nat) : option (TMXEditor * Result MergeReport) :=
  match files with
  | [] => None
  | [_] => None
  | base :: others =>
      match merge_each base others duplicate_strategy h (0, 0, 0) with
      | (editor, Raise e) => Some (editor, Raise e)
      | (editor, Ok (total_added, total_skipped, total_replaced)) =>
          Some (editor,
                Ok (MkMergeReport (Z.of_nat (length files)) total_added total_skipped
                      total_replaced (total_tus (get_statistics editor))))
      end
  end.

(** * Vocabulary of the properties *)

(** ** Texts and keys *)

(** [c in s] *)
Fixpoint contains_char (c : ascii) (s : string) : bool :=
  match s with
  | EmptyString => false
  | String d s' => bool_decide (c = d) || contains_char c s'
  end.

(** A text in which the character of the separator does not occur. *)
Definition bar_free (s : string) : Prop := contains_char "|" s = false.

(** The comparison key of a unit, when its texts can be extracted. *)
Definition unit_key (ed : TMXEditor) (tu : Node) : option string :=
  match _get_tu_texts ed (elem tu) with
  | Some (s, t) => Some (pair_key s t)
  | None => None
  end.

(** The normalised source and target of a unit. *)
Definition unit_source (ed : TMXEditor) (tu : Node) : option string :=
  match _get_tu_texts ed (elem tu) with
  | Some (s, t) => Some (PyStr.normalize s)
  | None => None
  end.

Definition unit_target (ed : TMXEditor) (tu : Node) : option string :=
  match _get_tu_texts ed (elem tu) with
  | Some (s, t) => Some (PyStr.normalize t)
  | None => None
  end.

(** The units of a body that have the normalised source [k]. *)
Definition units_with_source (ed : TMXEditor) (k : string) (b : list Node)
    : list Node :=
  filter (λ n, unit_source ed n = Some k) (body_findall "tu" b).

(** No two units of [l] with different normalised texts share a key. *)
Definition collision_free (ed : TMXEditor) (l : list Node) : Prop :=
  Forall (λ u, Forall (λ v,
    unit_key ed u = unit_key ed v →
    unit_source ed u = unit_source ed v ∧ unit_target ed u = unit_target ed v) l) l.

(** ** Exact duplicates *)

(** The units the scan marks, and the units it leaves, from the keys
    [seen] so far. *)
Fixpoint dups (ed : TMXEditor) (seen : gset string) (l : list Node) : list Node :=
  match l with
  | [] => []
  | tu :: l' =>
      match unit_key ed tu with
      | None => dups ed seen l'
      | Some k =>
          if decide (k ∈ seen) then tu :: dups ed seen l'
          else dups ed ({[k]} ∪ seen) l'
      end
  end.

Fixpoint keeps (ed : TMXEditor) (seen : gset string) (l : list Node) : list Node :=
  match l with
  | [] => []
  | tu :: l' =>
      match unit_key ed tu with
      | None => tu :: keeps ed seen l'
      | Some k =>
          if decide (k ∈ seen) then keeps ed seen l'
          else tu :: keeps ed ({[k]} ∪ seen) l'
      end
  end.

(** ** Filter *)

(** Whether the loop of [filter_tus] appends the unit. *)
Definition selects (Pattern : Type) (re_search : Pattern → string → bool)
    (ed : TMXEditor) (src_re tgt_re : option Pattern)
    (c : Criteria) (invert : bool) (tu : Node) : bool :=
  match _get_tu_texts ed (elem tu) with
  | None => false
  | Some (s, t) =>
      let m := tu_matches Pattern re_search src_re tgt_re c (elem tu) s t in
      if invert then negb m else m
  end.

(** ** Merge *)

(** The objects of the two loaded documents are pairwise distinct and were
    allocated before [h]. *)
Definition heap_wf (self other : TMXEditor) (h : nat) : Prop :=
  NoDup (oids (body self ++ body other))
  ∧ ∀ n, n ∈ body self ++ body other → (oid n < h)%nat.

(** What the second loop keeps true. *)
Record merge_inv (self other : TMXEditor) (h : nat) (st : MergeState) : Prop := {
  inv_nodup : NoDup (oids (m_body st));
  inv_body : ∀ m, m ∈ m_body st → m ∈ body self ∨ (h ≤ oid m < heap st)%nat;
  inv_sources : ∀ k n, existing_sources st !! k = Some n →
                  tag (elem n) = "tu" ∧ n ∈ body self ++ body other;
  inv_heap : (h ≤ heap st)%nat;
  inv_count : Z.of_nat (length (body_findall "tu" (m_body st))) =
              Z.of_nat (length (body_findall "tu" (body self))) + m_added st
}.

(** The source [k] is still held by a unit of the target, the one the
    lookup names. *)
Definition untouched_k (self : TMXEditor) (k : string) (st : MergeState) : Prop :=
  ∃ a', existing_sources st !! k = Some a'
      ∧ a' ∈ body self
      ∧ units_with_source self k (m_body st) = [a'].

(** The source [k] has been replaced: the lookup holds a unit [b] of the
    other file and the target holds one unit with source [k], a copy of
    [b], whose target text is not the one [a] had. *)
Definition replaced_k (self other : TMXEditor) (k : string) (a : Node)
    (st : MergeState) : Prop :=
  ∃ b c, existing_sources st !! k = Some b
       ∧ b ∈ body_findall "tu" (body other)
       ∧ unit_source self b = Some k
       ∧ unit_target self b ≠ unit_target self a
       ∧ units_with_source self k (m_body st) = [c]
       ∧ elem c = elem b.

(** What the second loop keeps true, under [replace], about the source [k]
    of the unit [a] of the target. *)
Record replace_inv (self other : TMXEditor) (k : string) (a : Node)
    (st : MergeState) : Prop := {
  ri_pairs : ∀ p, p ∈ existing_pairs st →
     ∃ u, unit_key self u = Some p
          ∧ (u ∈ body_findall "tu" (body self)
             ∨ (u ∈ body_findall "tu" (body other) ∧ unit_source self u ≠ Some k));
  ri_key_a : ∀ p, unit_key self a = Some p → p ∈ existing_pairs st;
  ri_sources : ∀ k' n, existing_sources st !! k' = Some n →
     unit_source self n = Some k';
  ri_k : untouched_k self k st ∨ replaced_k self other k a st
}.

(** A unit of the other file that conflicts with [a]. *)
Definition conflicts (self : TMXEditor) (k : string) (a tu : Node) : Prop :=
  unit_source self tu = Some k ∧ unit_target self tu ≠ unit_target self a.

(** ** Fuzzy duplicates *)

(** The order of the sort. *)
Definition by_len (x y : Item) : Prop := PyStr.len (src x) ≤ PyStr.len (src y).

(** The number of the item at a position of [unique_tus]. *)
Definition number_at (unique_tus : list Item) (j : nat) : option Z :=
  tu_number <$> unique_tus !! j.

(** The numbers of the members of a group. *)
Definition similar_numbers (g : Group) : list Z := s_tu_number <$> similar_tus g.

(** What the outer loop keeps true: the members of the groups so far sit
    at pairwise different positions [used] of [unique_tus], all of them
    flagged in [matched], and no group has its representative as a member. *)
Definition cluster_inv (unique_tus : list Item) (matched : list bool)
    (groups : list Group) : Prop :=
  ∃ used : list nat,
    Forall2 (λ j n, number_at unique_tus j = Some n) used
      (concat (similar_numbers <$> groups))
    ∧ NoDup used
    ∧ (∀ j, j ∈ used → matched !! j = Some true)
    ∧ Forall (λ g, representative_tu g ∉ similar_numbers g) groups.

(** A member of a group carries the number and the element of an item. *)
Definition from_item (unique_tus : list Item) (s : Similar) : Prop :=
  ∃ it, it ∈ unique_tus ∧ s_tu_number s = tu_number it
        ∧ s_tu_element s = tu_element it.

(** The sources of a result: per group, the representative and the
    members. *)
Definition group_sources (r : Result (list Group)) : option (list (string * list string)) :=
  match r with
  | Ok gs => Some (map (λ g, (representative_source g, map s_source (similar_tus g))) gs)
  | Raise _ => None
  end.

(** ** Example documents *)

(** A [seg], a [tuv] and a [tu] element as a parser builds them. *)
Definition mk_seg (s : string) : Element := Elem "seg" ∅ (Some s) None [].

Definition mk_tuv (lang s : string) : Element :=
  Elem "tuv" {[ xml_lang_key := lang ]} None None [mk_seg s].

(** A unit with an English source and a Spanish target. *)
Definition mk_tu (s t : string) : Element :=
  Elem "tu" ∅ None None [mk_tuv "en" s; mk_tuv "es" t].

(** The body a parser builds for a list of units, with identities counted
    from [from]. *)
Fixpoint parse_from (from : nat) (tus : list Element) : list Node :=
  match tus with
  | [] => []
  | e :: rest => MkNode from e :: parse_from (S from) rest
  end.

(** An editor that detected the pair English to Spanish. *)
Definition en_es (b : list Node) : TMXEditor := MkEditor "en" "es" b.

(** The texts of the children of the body, in order. *)
Definition texts_of (ed : TMXEditor) : list (option (string * string)) :=
  map (λ n, _get_tu_texts ed (elem n)) (body ed).

(** The scenario of the exact deduplication. *)
Definition three_units : TMXEditor :=
  en_es (parse_from 0 [mk_tu "cat" "gato"; mk_tu "CAT" "Gato"; mk_tu "dog" "perro"]).

(** One sound unit and four defective ones: empty source, empty target,
    one [tuv] only, two [tuv]s without [seg]. *)
Definition defective_units : TMXEditor :=
  en_es (parse_from 0
           [mk_tu "cat" "gato"; mk_tu "" "perro"; mk_tu "dog" "";
            Elem "tu" ∅ None None [mk_tuv "en" "alone"];
            Elem "tu" ∅ None None [Elem "tuv" ∅ None None []; Elem "tuv" ∅ None None []]]).

(** A pattern language small enough for an example: a pattern matches the
    texts that contain it as a lower-cased prefix. *)
Definition prefix_search (p s : string) : bool :=
  String.prefix (PyStr.lower p) (PyStr.lower s).

(** The merge scenario: a target of one unit and other files that repeat
    its source. *)
Definition hello_A : TMXEditor := en_es (parse_from 0 [mk_tu "hello" "hola"]).

Definition hello_B : TMXEditor :=
  en_es (parse_from 10 [mk_tu "hello" "hola"; mk_tu "hello" "ciao"]).

Definition twice_B : TMXEditor :=
  en_es (parse_from 10 [mk_tu "hello" "ciao"; mk_tu "hello" "adieu"]).

Definition double_A : TMXEditor :=
  en_es (parse_from 0 [mk_tu "hello" "hola"; mk_tu "hello" "hallo"]).

Definition ciao_B : TMXEditor := en_es (parse_from 10 [mk_tu "hello" "ciao"]).

(** A target whose second source contains the separator, and an incoming
    unit whose key collides with it. *)
Definition bars_A : TMXEditor :=
  en_es (parse_from 0 [mk_tu "a" "x"; mk_tu "a|||x" "y"]).

Definition bars_B : TMXEditor := en_es (parse_from 10 [mk_tu "a" "x|||y"]).

(** A file read from Spanish to English: its source "hello" is the Spanish
    text. *)
Definition es_en_B : TMXEditor :=
  MkEditor "es" "en"
    (parse_from 10 [Elem "tu" ∅ None None [mk_tuv "es" "hello"; mk_tuv "en" "ciao"]]).

(** The scenario of the fuzzy matcher. *)
Definition colours : TMXEditor :=
  en_es (parse_from 0 [mk_tu "color" "x"; mk_tu "colour" "y"; mk_tu "banana" "z"]).

(** The same with a third source that is much longer: at threshold 0.8 the
    length test cuts it off from both others. *)
Definition colours_long : TMXEditor :=
  en_es (parse_from 0 [mk_tu "color" "x"; mk_tu "colour" "y";
                       mk_tu "bananas and more" "z"]).

(** ** The matcher *)

Module DifflibSpec.
Import Difflib.

(** A block that lies inside [a[alo:ahi]] and [b[blo:bhi]]. *)
Definition in_range (alo ahi blo bhi : Z) (x : Block) : Prop :=
  alo ≤ x.1.1 ∧ x.1.1 + x.2 ≤ ahi ∧ blo ≤ x.1.2 ∧ x.1.2 + x.2 ≤ bhi ∧ 0 ≤ x.2.

(** The lengths recorded for the row before row [r]. *)
Definition row_ok (alo blo bhi r : Z) (j2len : gmap Z Z) : Prop :=
  ∀ j l, j2len !! j = Some l → 1 ≤ l ∧ l ≤ r - alo ∧ l ≤ j - blo + 1 ∧ j < bhi.

(** An entry [(alo, ahi, blo, bhi)] of the work list, and the room it
    leaves in [a] and in [b]. *)
Definition range_ok (q : Z * Z * Z * Z) : Prop :=
  q.1.1.1 ≤ q.1.1.2 ∧ q.1.2 ≤ q.2.

Definition width_a (q : Z * Z * Z * Z) : Z := q.1.1.2 - q.1.1.1.

Definition width_b (q : Z * Z * Z * Z) : Z := q.2 - q.1.2.

(** The sum of a measure over the work list. *)
Definition total (w : Z * Z * Z * Z → Z) (queue : list (Z * Z * Z * Z)) : Z :=
  foldr (λ q acc, w q + acc) 0 queue.

(** One round: the block found and the ranges put back on the list. *)
Definition pushed (q : Z * Z * Z * Z) (x : Block) : list (Z * Z * Z * Z) :=
  let '(alo, ahi, blo, bhi) := q in
  let '(i, j, k) := x in
  (if bool_decide (i + k < ahi) && bool_decide (j + k < bhi)
   then [(i + k, ahi, j + k, bhi)] else [])
  ++ (if bool_decide (alo < i) && bool_decide (blo < j)
      then [(alo, i, blo, j)] else []).

(** The block [find_longest_match] returns for an entry. *)
Definition found (a b : list ascii) (b2j : gmap ascii (list Z))
    (q : Z * Z * Z * Z) : Block :=
  find_longest_match a b b2j q.1.1.1 q.1.1.2 q.1.2 q.2.

End DifflibSpec.

(** ** The other operations *)

(** The subtree of [e] after the loop of [strip_inline_tags]. *)
Definition strip_elem (e : Element) : Element := (strip_walk e).1.

(** The number of elements of a tree. *)
Definition tree_size (e : Element) : Z := Z.of_nat (length (iter e)).

(** The text [_get_tu_texts] reads from a [tuv]. *)
Definition seg_text_of (tuv : Element) : string := _get_seg_text (find "seg" tuv).

(** A small TMX tree: a header and a body of two units, the first with
    inline tags in its source. *)
Definition tagged_seg : Element :=
  Elem "seg" ∅ (Some "Press ") (Some " ")
    [Elem "bpt" ∅ (Some "<b>") None []; Elem "ept" ∅ (Some "</b>") (Some "Enter") []].

Definition tagged_tu : Element :=
  Elem "tu" ∅ None None
    [Elem "tuv" {[ xml_lang_key := "en" ]} None None [tagged_seg]; mk_tuv "es" "Pulse Intro"].

Definition tagged_tmx : Element :=
  Elem "tmx" ∅ None None
    [Elem "header" {[ "srclang" := "EN" ]} None None [];
     Elem "body" ∅ None None [tagged_tu; mk_tu "cat" "gato"]].

(** The units in which a text is missing or empty. *)
Definition empties (ed : TMXEditor) (l : list Node) : list Node :=
  filter (λ tu, lacks_text (_get_tu_texts ed (elem tu)) = true) l.

(** The sum of the counters of a [by_type] dictionary. *)
Definition sum_counts (m : gmap string Z) : Z := map_fold (λ _ v acc, v + acc) 0 m.

(** The members of all groups, in order, and their elements. *)
Definition members (groups : list Group) : list Similar :=
  concat (similar_tus <$> groups).

Definition member_elements (groups : list Group) : list Node :=
  s_tu_element <$> members groups.

(** What the outer loop of the clustering keeps true of the
    representatives: each sits at a position before [lo] that is not
    flagged. *)
Definition reps_inv (unique_tus : list Item) (matched : list bool)
    (groups : list Group) (lo : nat) : Prop :=
  Forall (λ g, ∃ r, (r < lo)%nat
                    ∧ number_at unique_tus r = Some (representative_tu g)
                    ∧ matched !! r = Some false) groups.

(** The order of [sorted]. *)
Definition str_le (a b : string) : Prop := str_leb a b = true.

(** The elements below the root. *)
Definition descendants (e : Element) : list Element := children e ≫= iter.

(** The units among [tus] whose texts the editor can read. *)
Definition readable (ed : TMXEditor) (tus : list Node) : list Node :=
  filter (λ tu, is_Some (_get_tu_texts ed (elem tu))) tus.

(** What the second loop of [merge_from] keeps true under [skip]: every
    key and every source of a unit of the target is in the lookups, and
    neither keys nor sources repeat where they did not before. *)
Record skip_inv (self : TMXEditor) (keys_distinct sources_distinct : Prop)
    (st : MergeState) : Prop := {
  si_pairs : ∀ u p, u ∈ body_findall "tu" (m_body st) →
               unit_key self u = Some p → p ∈ existing_pairs st;
  si_sources : ∀ u k, u ∈ body_findall "tu" (m_body st) →
               unit_source self u = Some k → is_Some (existing_sources st !! k);
  si_keys : keys_distinct → NoDup (omap (unit_key self) (body_findall "tu" (m_body st)));
  si_srcs : sources_distinct →
            NoDup (omap (unit_source self) (body_findall "tu" (m_body st)))
}.

(** A target of one unit and a file that brings the same new pair twice. *)
Definition ciao_twice_B : TMXEditor :=
  en_es (parse_from 10 [mk_tu "hello" "ciao"; mk_tu "hello" "ciao"]).

(** The keys that the units marked by the scan carry. *)
Definition dup_keys_of (ed : TMXEditor) (seen : gset string) (l : list Node)
    : gset string :=
  list_to_set (omap (unit_key ed) (dups ed seen l)).

(** An editor whose body is the body of the tree [root]: the children of
    the element [_get_body] finds. *)
Definition views (ed : TMXEditor) (root : Element) : Prop :=
  ∃ b, _get_body root = Some b ∧ elem <$> body ed = children b.

(** The [tuv] that [_get_tu_texts] reads the source from: the last one in
    the source language, or else the first. *)
Definition source_choice (ed : TMXEditor) (tuvs : list Element) : option Element :=
  match last (filter (λ t, tuv_lang t = source_lang ed) tuvs) with
  | Some t => Some t
  | None => head tuvs
  end.

(** The [tuv] it reads the target from, among those after the first: the
    last one in the target language (when that is not the source
    language), or else the first one not in the source language, or else
    the second [tuv]. *)
Definition target_choice (ed : TMXEditor) (tuvs : list Element) : option Element :=
  let rest := drop 1 tuvs in
  match last (filter (λ t, tuv_lang t ≠ source_lang ed ∧ tuv_lang t = target_lang ed) rest) with
  | Some t => Some t
  | None =>
      match head (filter (λ t, tuv_lang t ≠ source_lang ed) rest) with
      | Some t => Some t
      | None => head rest
      end
  end.

(** The example recorded for a removed unit. *)
Definition example_of (ed : TMXEditor) (tu : Node) : option (string * string) :=
  match _get_tu_texts ed (elem tu) with
  | Some (s, t) => Some (PyStr.prefix 80 s, PyStr.prefix 80 t)
  | None => None
  end.

(** How a member of a group relates to the representative [it_i]. *)
Definition member_of (threshold : Q) (unique_tus : list Item) (it_i : Item)
    (s : Similar) : Prop :=
  ∃ it_j, it_j ∈ unique_tus
    ∧ s = similar_of it_j (Difflib.ratio (PyStr.lower (src it_i)) (PyStr.lower (src it_j)))
    ∧ by_len it_i it_j
    ∧ Qle_bool threshold
        (Difflib.ratio (PyStr.lower (src it_i)) (PyStr.lower (src it_j))) = true.

(** A group built around an item of [unique_tus]. *)
Definition group_of (threshold : Q) (unique_tus : list Item) (g : Group) : Prop :=
  ∃ it_i, it_i ∈ unique_tus
    ∧ representative_tu g = tu_number it_i
    ∧ representative_source g = src it_i
    ∧ Forall (member_of threshold unique_tus it_i) (similar_tus g).

(** The normalised source of an item. *)
Definition norm_src (it : Item) : string := PyStr.normalize (src it).

(** A third file, with a source of its own. *)
Definition bye_C : TMXEditor := en_es (parse_from 20 [mk_tu "bye" "adieu"]).

(** The number of units of the files whose texts can be read. *)
Definition readable_total (files : list TMXEditor) : Z :=
  total_of ((λ f, Z.of_nat (length (readable f (body_findall "tu" (body f))))) <$> files).

(** A word as [split] yields it: not empty, without white space. *)
Definition is_word (w : list ascii) : Prop :=
  w ≠ [] ∧ Forall (λ c, PyStr.isspace c = false) w.

(** [s.isascii()]: every character is below U+0080.  On such text
    [PyStr.lower] and [PyStr.split] are Python's [lower] and [split]. *)
Definition isascii (s : string) : Prop :=
  Forall (λ c, (nat_of_ascii c < 128)%nat) (String.list_ascii_of_string s).

(** * Properties *)

(** ** Strings *)

Lemma append_nil (s : string) : "" +:+ s = s.
Proof. reflexivity. Qed.

Lemma append_cons (c : ascii) (a s : string) :
  String c a +:+ s = String c (a +:+ s).
Proof. reflexivity. Qed.

Lemma bar_free_cons c s : bar_free (String c s) → c ≠ "|"%char ∧ bar_free s.
Proof.
  unfold bar_free. simpl. intros H.
  apply orb_false_iff in H as [H1 H2]. split; [|done].
  apply bool_decide_eq_false in H1. congruence.
Qed.

Lemma bar_split_unique (a b x y : string) :
  bar_free a → bar_free b →
  a +:+ String "|" x = b +:+ String "|" y → a = b ∧ x = y.
Proof.
  revert b. induction a as [|c a IH]; intros [|d b] Ha Hb Heq.
  - rewrite !append_nil in Heq. by injection Heq.
  - rewrite append_nil, append_cons in Heq. injection Heq as Hc _.
    apply bar_free_cons in Hb as [Hd _]. congruence.
  - rewrite append_nil, append_cons in Heq. injection Heq as Hc _.
    apply bar_free_cons in Ha as [Hd _]. congruence.
  - rewrite !append_cons in Heq. injection Heq as Hc Hrest.
    apply bar_free_cons in Ha as [_ Ha]. apply bar_free_cons in Hb as [_ Hb].
    destruct (IH b Ha Hb Hrest) as [-> ->]. by subst.
Qed.

(** ** Removing children *)

Lemma filter_none {A} (P : A → Prop) `{!∀ x, Decision (P x)} (l : list A) :
  Forall (λ x, ¬ P x) l → filter P l = [].
Proof.
  induction 1 as [|x l Hx _ IH]; [done|]. by rewrite filter_cons_False.
Qed.

Lemma filter_ext_in {A} (P Q : A → Prop) `{!∀ x, Decision (P x)}
    `{!∀ x, Decision (Q x)} (l : list A) :
  Forall (λ x, P x ↔ Q x) l → filter P l = filter Q l.
Proof.
  induction 1 as [|x l Hx _ IH]; [done|].
  rewrite !filter_cons, IH. destruct (decide (P x)), (decide (Q x)); tauto.
Qed.

Lemma filter_all {A} (P : A → Prop) `{!∀ x, Decision (P x)} (l : list A) :
  Forall P l → filter P l = l.
Proof.
  induction 1 as [|x l Hx _ IH]; [done|].
  rewrite filter_cons_True by done. by rewrite IH.
Qed.

Lemma same_object (b : list Node) (x y : Node) :
  NoDup (oids b) → x ∈ b → y ∈ b → oid x = oid y → x = y.
Proof.
  induction b as [|z b IH]; intros Hnd Hx Hy Heq.
  - by apply elem_of_nil in Hx.
  - rewrite fmap_cons in Hnd. apply NoDup_cons in Hnd as [Hz Hnd].
    apply elem_of_cons in Hx as [->|Hx]; apply elem_of_cons in Hy as [->|Hy].
    + done.
    + exfalso. apply Hz. rewrite Heq. by apply list_elem_of_fmap_2.
    + exfalso. apply Hz. rewrite <- Heq. by apply list_elem_of_fmap_2.
    + by apply IH.
Qed.

Lemma body_remove_filter (x : Node) (b : list Node) :
  NoDup (oids b) → oid x ∈ oids b →
  body_remove x b = Some (filter (λ n, oid n ≠ oid x) b).
Proof.
  induction b as [|y b IH]; intros Hnd Hx.
  - by apply elem_of_nil in Hx.
  - rewrite fmap_cons in Hnd, Hx. apply NoDup_cons in Hnd as [Hy Hnd]. simpl.
    destruct (decide (oid y = oid x)) as [Heq|Hne].
    + rewrite filter_cons_False by (intros H; by apply H).
      f_equal. symmetry. apply filter_all.
      apply Forall_forall. intros z Hz Hzx. apply Hy. rewrite Heq, <- Hzx.
      by apply list_elem_of_fmap_2.
    + apply elem_of_cons in Hx as [Hx|Hx]; [congruence|].
      rewrite IH by done. by rewrite filter_cons_True.
Qed.

Lemma body_remove_None (x : Node) (b : list Node) :
  oid x ∉ oids b → body_remove x b = None.
Proof.
  induction b as [|y b IH]; intros Hx; [done|]. simpl.
  rewrite fmap_cons in Hx. apply not_elem_of_cons in Hx as [Hne Hx].
  destruct (decide (oid y = oid x)); [congruence|]. by rewrite IH.
Qed.

Lemma oids_filter_NoDup (P : Node → Prop) `{!∀ n, Decision (P n)} (b : list Node) :
  NoDup (oids b) → NoDup (oids (filter P b)).
Proof.
  intros Hnd. eapply sublist_NoDup; [exact Hnd|].
  apply fmap_sublist. by apply sublist_filter.
Qed.

Lemma remove_each_filter (xs b : list Node) :
  NoDup (oids b) → NoDup (oids xs) → (∀ x, x ∈ xs → oid x ∈ oids b) →
  remove_each xs b = (filter (λ n, oid n ∉ oids xs) b, None).
Proof.
  revert b. induction xs as [|x xs IH]; intros b Hb Hxs Hin.
  - simpl. f_equal. symmetry. apply filter_all.
    apply Forall_forall. intros n _. apply not_elem_of_nil.
  - simpl. rewrite fmap_cons in Hxs.
    apply NoDup_cons in Hxs as [Hx Hxs].
    rewrite body_remove_filter by (auto; apply Hin; left).
    rewrite IH.
    + f_equal. rewrite list_filter_filter. apply list_filter_iff.
      intros n. rewrite not_elem_of_cons. tauto.
    + by apply oids_filter_NoDup.
    + done.
    + intros z Hz. apply list_elem_of_fmap.
      assert (oid z ∈ oids b) as Hzb by (apply Hin; by right).
      apply list_elem_of_fmap in Hzb as (w & Hw & Hwb).
      exists w. split; [done|]. apply list_elem_of_filter. split; [|done].
      rewrite <- Hw. intros Heq. apply Hx. rewrite <- Heq.
      by apply list_elem_of_fmap_2.
Qed.

(** ** Exact duplicates *)

Lemma dedup_scan_to_remove ed l st :
  to_remove (fold_left (dedup_step ed) l st) = to_remove st ++ dups ed (seen_keys st) l.
Proof.
  revert st. induction l as [|tu l IH]; intros st; simpl.
  - by rewrite app_nil_r.
  - rewrite IH. unfold dedup_step, unit_key.
    destruct (_get_tu_texts ed (elem tu)) as [[s t]|]; [|done].
    destruct (decide (pair_key s t ∈ seen_keys st)); simpl; [|done].
    by rewrite <- app_assoc.
Qed.

Lemma dups_sublist ed seen l : dups ed seen l `sublist_of` l.
Proof.
  revert seen. induction l as [|tu l IH]; intros seen; simpl; [done|].
  destruct (unit_key ed tu) as [k|]; [|by apply sublist_cons].
  destruct (decide (k ∈ seen)); [by apply sublist_skip|by apply sublist_cons].
Qed.

Lemma keeps_sublist ed seen l : keeps ed seen l `sublist_of` l.
Proof.
  revert seen. induction l as [|tu l IH]; intros seen; simpl; [done|].
  destruct (unit_key ed tu) as [k|]; [|by apply sublist_skip].
  destruct (decide (k ∈ seen)); [by apply sublist_cons|by apply sublist_skip].
Qed.

Lemma dups_keeps_length ed seen l :
  (length (keeps ed seen l) + length (dups ed seen l) = length l)%nat.
Proof.
  revert seen. induction l as [|tu l IH]; intros seen; simpl; [done|].
  destruct (unit_key ed tu) as [k|]; simpl; [|by rewrite IH].
  destruct (decide (k ∈ seen)); simpl; rewrite <- ?Nat.add_succ_comm; simpl;
    by rewrite IH.
Qed.

(** What is left after the marked units are removed is [keeps]. *)
Lemma filter_dups_keeps ed seen l :
  NoDup (oids l) →
  filter (λ n, oid n ∉ oids (dups ed seen l)) l = keeps ed seen l.
Proof.
  revert seen. induction l as [|tu l IH]; intros seen Hnd; simpl; [done|].
  rewrite fmap_cons in Hnd. apply NoDup_cons in Hnd as [Htu Hnd].
  assert (∀ s, oid tu ∉ oids (dups ed s l)) as Hfresh.
  { intros s Hin. apply Htu. eapply elem_of_sublist; [exact Hin|].
    apply fmap_sublist, dups_sublist. }
  destruct (unit_key ed tu) as [k|].
  - destruct (decide (k ∈ seen)).
    + rewrite filter_cons_False by (rewrite fmap_cons; intros H; apply H; left).
      rewrite <- IH by done. apply filter_ext_in.
      apply Forall_forall. intros n Hn. rewrite fmap_cons, not_elem_of_cons.
      split; [tauto|]. intros H. split; [|done]. intros Heq. apply Htu.
      rewrite <- Heq. by apply list_elem_of_fmap_2.
    + rewrite filter_cons_True by apply Hfresh. by rewrite IH.
  - rewrite filter_cons_True by apply Hfresh. by rewrite IH.
Qed.

Lemma keeps_keys ed seen l k :
  k ∈ omap (unit_key ed) (keeps ed seen l) → k ∉ seen.
Proof.
  revert seen. induction l as [|tu l IH]; intros seen; simpl.
  - intros H. by apply elem_of_nil in H.
  - destruct (unit_key ed tu) as [k0|] eqn:Hk.
    + destruct (decide (k0 ∈ seen)); [by apply IH|].
      simpl. rewrite Hk. intros [->|H]%elem_of_cons; [done|].
      apply IH in H. set_solver.
    + simpl. rewrite Hk. by apply IH.
Qed.

Lemma keeps_NoDup ed seen l : NoDup (omap (unit_key ed) (keeps ed seen l)).
Proof.
  revert seen. induction l as [|tu l IH]; intros seen; simpl; [constructor|].
  destruct (unit_key ed tu) as [k0|] eqn:Hk.
  - destruct (decide (k0 ∈ seen)); [by apply IH|].
    simpl. rewrite Hk. apply NoDup_cons. split; [|by apply IH].
    intros H. apply keeps_keys in H. set_solver.
  - simpl. rewrite Hk. by apply IH.
Qed.

(** With pairwise different keys outside [seen], nothing is marked. *)
Lemma dups_nil ed seen l :
  NoDup (omap (unit_key ed) l) →
  (∀ k, k ∈ omap (unit_key ed) l → k ∉ seen) →
  dups ed seen l = [].
Proof.
  revert seen. induction l as [|tu l IH]; intros seen Hnd Hseen; simpl; [done|].
  simpl in Hnd, Hseen. destruct (unit_key ed tu) as [k0|] eqn:Hk.
  - apply NoDup_cons in Hnd as [Hk0 Hnd].
    destruct (decide (k0 ∈ seen)) as [Hin|_].
    { exfalso. by apply (Hseen k0); [left|]. }
    apply IH; [done|]. intros k Hkin.
    assert (k ∉ seen) by (apply Hseen; by right).
    assert (k ≠ k0) by (intros ->; done).
    rewrite not_elem_of_union, not_elem_of_singleton. done.
  - by apply IH.
Qed.

(** Membership in the marked units: a later occurrence of a key. *)
Lemma dups_spec ed seen l n :
  n ∈ dups ed seen l ↔
  ∃ i k, l !! i = Some n ∧ unit_key ed n = Some k ∧
    (k ∈ seen ∨ ∃ j n', (j < i)%nat ∧ l !! j = Some n' ∧ unit_key ed n' = Some k).
Proof.
  revert seen. induction l as [|tu l IH]; intros seen; simpl.
  - split; [by intros ?%elem_of_nil|]. by intros (i & k & ? & _).
  - destruct (unit_key ed tu) as [k0|] eqn:Hk0.
    + destruct (decide (k0 ∈ seen)) as [Hin|Hnin].
      * rewrite elem_of_cons, IH. split.
        -- intros [->|(i & k & Hi & Hk & H)].
           ++ exists 0%nat, k0. by eauto.
           ++ exists (S i), k. split_and!; [done..|].
              destruct H as [?|(j & n' & ? & ? & ?)]; [by left|].
              right. exists (S j), n'. split_and!; [lia|done..].
        -- intros (i & k & Hi & Hk & H). destruct i as [|i]; simpl in Hi.
           ++ left. congruence.
           ++ right. exists i, k. split_and!; [done..|].
              destruct H as [?|(j & n' & Hj & Hn' & Hkn')]; [by left|].
              destruct j as [|j]; simpl in Hn'.
              ** left. congruence.
              ** right. exists j, n'. split_and!; [lia|done..].
      * rewrite IH. split.
        -- intros (i & k & Hi & Hk & H). exists (S i), k. split_and!; [done..|].
           destruct H as [[Heq%elem_of_singleton|?]%elem_of_union|(j & n' & ? & ? & ?)].
           ++ right. exists 0%nat, tu. split_and!; [lia|done|congruence].
           ++ by left.
           ++ right. exists (S j), n'. split_and!; [lia|done..].
        -- intros (i & k & Hi & Hk & H). destruct i as [|i]; simpl in Hi.
           ++ exfalso. destruct H as [?|(j & ? & ? & _)]; [congruence|lia].
           ++ exists i, k. split_and!; [done..|].
              destruct H as [?|(j & n' & Hj & Hn' & Hkn')];
                [left; apply elem_of_union; by right|].
              destruct j as [|j]; simpl in Hn'.
              ** left. assert (k = k0) as -> by congruence.
                 apply elem_of_union. left. by apply elem_of_singleton.
              ** right. exists j, n'. split_and!; [lia|done..].
    + rewrite IH. split.
      * intros (i & k & Hi & Hk & H). exists (S i), k. split_and!; [done..|].
        destruct H as [?|(j & n' & ? & ? & ?)]; [by left|].
        right. exists (S j), n'. split_and!; [lia|done..].
      * intros (i & k & Hi & Hk & H). destruct i as [|i]; simpl in Hi.
        -- congruence.
        -- exists i, k. split_and!; [done..|].
           destruct H as [?|(j & n' & Hj & Hn' & Hkn')]; [by left|].
           destruct j as [|j]; simpl in Hn'; [congruence|].
           right. exists j, n'. split_and!; [lia|done..].
Qed.

Lemma body_findall_filter (P : Node → Prop) `{!∀ n, Decision (P n)} t b :
  body_findall t (filter P b) = filter P (body_findall t b).
Proof.
  unfold body_findall. rewrite !list_filter_filter.
  apply list_filter_iff. tauto.
Qed.

Lemma body_findall_sublist t b : body_findall t b `sublist_of` b.
Proof. by apply sublist_filter. Qed.

Lemma body_findall_NoDup t b : NoDup (oids b) → NoDup (oids (body_findall t b)).
Proof. by apply oids_filter_NoDup. Qed.

Lemma unit_key_set_body ed b tu : unit_key (set_body ed b) tu = unit_key ed tu.
Proof. reflexivity. Qed.

Lemma unit_key_after_dedup ed :
  unit_key (remove_exact_duplicates ed).1 = unit_key ed.
Proof.
  unfold remove_exact_duplicates.
  by destruct (remove_each _ _) as [b [e|]].
Qed.

(** The outcome of [remove_exact_duplicates] on a well-formed body. *)
Lemma remove_exact_duplicates_eq (ed : TMXEditor) :
  NoDup (oids (body ed)) →
  let all_tus := body_findall "tu" (body ed) in
  let marked := dups ed ∅ all_tus in
  remove_exact_duplicates ed =
    (set_body ed (filter (λ n, oid n ∉ oids marked) (body ed)),
     Ok (MkDedupResult (Z.of_nat (length marked))
           (Z.of_nat (length all_tus) - Z.of_nat (length marked))
           (Z.of_nat (length all_tus))
           (duplicate_examples (dedup_scan ed all_tus)))).
Proof.
  intros Hnd all_tus marked. unfold remove_exact_duplicates.
  fold all_tus. unfold dedup_scan at 1 2 3.
  rewrite dedup_scan_to_remove. simpl. fold marked.
  rewrite remove_each_filter; [done|done|..].
  - eapply sublist_NoDup; [apply (body_findall_NoDup "tu"), Hnd|].
    apply fmap_sublist, dups_sublist.
  - intros x Hx. apply list_elem_of_fmap_2.
    eapply elem_of_sublist; [|apply (body_findall_sublist "tu")].
    eapply elem_of_sublist; [exact Hx|apply dups_sublist].
Qed.

Lemma survivors_are_keeps (ed : TMXEditor) :
  NoDup (oids (body ed)) →
  body_findall "tu" (body (remove_exact_duplicates ed).1) =
    keeps ed ∅ (body_findall "tu" (body ed)).
Proof.
  intros Hnd. rewrite remove_exact_duplicates_eq by done. simpl.
  rewrite body_findall_filter. apply filter_dups_keeps.
  by apply body_findall_NoDup.
Qed.

(** C6.  After [remove_exact_duplicates] on a body of distinct objects: the
    call returns, [unique_count + removed_count = total_before] where
    [unique_count] is the number of units left; no two units left that have
    a source text share a key; the body left is the old one with units
    taken out, in the old order; a unit with a key is left exactly when no
    earlier unit has that key; and every child without source text is
    left. *)
Theorem remove_exact_duplicates_spec (ed : TMXEditor) :
  NoDup (oids (body ed)) →
  let all_tus := body_findall "tu" (body ed) in
  let ed' := (remove_exact_duplicates ed).1 in
  ∃ r, (remove_exact_duplicates ed).2 = Ok r
    ∧ unique_count r + removed_count r = total_before r
    ∧ total_before r = Z.of_nat (length all_tus)
    ∧ unique_count r = Z.of_nat (length (body_findall "tu" (body ed')))
    ∧ NoDup (omap (unit_key ed') (body_findall "tu" (body ed')))
    ∧ body ed' `sublist_of` body ed
    ∧ (∀ i tu k, all_tus !! i = Some tu → unit_key ed tu = Some k →
         (tu ∈ body ed' ↔
          ∀ j tu', (j < i)%nat → all_tus !! j = Some tu' → unit_key ed tu' ≠ Some k))
    ∧ (∀ tu, tu ∈ body ed → unit_key ed tu = None → tu ∈ body ed').
Proof.
  intros Hnd all_tus ed'.
  pose proof (survivors_are_keeps ed Hnd) as Hkeeps. fold ed' all_tus in Hkeeps.
  pose proof (remove_exact_duplicates_eq ed Hnd) as Heq. simpl in Heq.
  fold all_tus in Heq.
  assert (body ed' = filter (λ n, oid n ∉ oids (dups ed ∅ all_tus)) (body ed))
    as Hbody by (unfold ed'; by rewrite Heq).
  assert (NoDup (oids all_tus)) as Hnd_tus by by apply body_findall_NoDup.
  assert (∀ tu, tu ∈ body ed →
            (oid tu ∉ oids (dups ed ∅ all_tus) ↔ tu ∉ dups ed ∅ all_tus)) as Hobj.
  { intros tu Htu. split.
    - intros H Hin. apply H. by apply list_elem_of_fmap_2.
    - intros H (m & Hm & Hmd)%list_elem_of_fmap. apply H.
      assert (m ∈ body ed).
      { eapply elem_of_sublist; [|apply (body_findall_sublist "tu")].
        eapply elem_of_sublist; [exact Hmd|apply dups_sublist]. }
      by rewrite (same_object (body ed) tu m). }
  rewrite Heq. eexists. split; [done|]. simpl. split_and!.
  - lia.
  - done.
  - rewrite Hkeeps. pose proof (dups_keeps_length ed ∅ all_tus). lia.
  - unfold ed' at 1. rewrite unit_key_after_dedup, Hkeeps. apply keeps_NoDup.
  - rewrite Hbody. by apply sublist_filter.
  - intros i tu k Hi Hk.
    assert (tu ∈ body ed) as Htu.
    { eapply elem_of_sublist; [|apply (body_findall_sublist "tu")].
      by eapply list_elem_of_lookup_2. }
    rewrite Hbody, list_elem_of_filter, (Hobj tu Htu), dups_spec. split.
    + intros [Hno _] j tu' Hj Hj' Hk'. apply Hno.
      exists i, k. split_and!; [done..|]. right. by exists j, tu'.
    + intros Hfirst. split; [|done].
      intros (i' & k' & Hi' & Hk' & [Hemp|(j & n' & Hj & Hn' & Hkn')]).
      * by apply not_elem_of_empty in Hemp.
      * assert (i' = i) as ->.
        { eapply NoDup_lookup; [apply (NoDup_fmap_1 oid), Hnd_tus|done..]. }
        apply (Hfirst j n' Hj Hn'). congruence.
  - intros tu Htu Hk. rewrite Hbody, list_elem_of_filter, (Hobj tu Htu), dups_spec.
    split; [|done]. intros (i & k & _ & Hk' & _). congruence.
Qed.

Lemma three_units_NoDup : NoDup (oids (body three_units)).
Proof. apply (bool_decide_unpack _). by vm_compute. Defined.

Lemma remove_exact_duplicates_spec_witness :
  ∃ r, (remove_exact_duplicates three_units).2 = Ok r
    ∧ unique_count r + removed_count r = total_before r.
Proof.
  destruct (remove_exact_duplicates_spec three_units three_units_NoDup)
    as (r & Hr & Hsum & _).
  exists r. split; [exact Hr|exact Hsum].
Defined.

(** C8.  A second [remove_exact_duplicates] right after a first one returns
    [removed_count = 0] and leaves the editor as the first run left it. *)
Theorem remove_exact_duplicates_idempotent (ed : TMXEditor) :
  NoDup (oids (body ed)) →
  let ed1 := (remove_exact_duplicates ed).1 in
  (remove_exact_duplicates ed1).1 = ed1
  ∧ ∃ r, (remove_exact_duplicates ed1).2 = Ok r ∧ removed_count r = 0
       ∧ unique_count r = total_before r.
Proof.
  intros Hnd ed1.
  pose proof (survivors_are_keeps ed Hnd) as Hkeeps. fold ed1 in Hkeeps.
  assert (dups ed1 ∅ (body_findall "tu" (body ed1)) = []) as Hnil.
  { apply dups_nil; [|intros; apply not_elem_of_empty].
    unfold ed1 at 1. rewrite unit_key_after_dedup, Hkeeps. apply keeps_NoDup. }
  unfold remove_exact_duplicates at 1 2. unfold dedup_scan.
  rewrite dedup_scan_to_remove. simpl. rewrite Hnil. simpl. split.
  - by destruct ed1.
  - eexists. split; [done|]. simpl. split; lia.
Qed.

Lemma remove_exact_duplicates_idempotent_witness :
  (remove_exact_duplicates (remove_exact_duplicates three_units).1).1
  = (remove_exact_duplicates three_units).1.
Proof.
  exact (proj1 (remove_exact_duplicates_idempotent three_units three_units_NoDup)).
Defined.

(** ** The duplicate key *)

Lemma pair_key_unfold s t :
  pair_key s t = PyStr.normalize s +:+ String "|" ("||" +:+ PyStr.normalize t).
Proof. reflexivity. Qed.

(** C3, as stated, fails: the separator can come from the texts. *)
Lemma pair_key_collision :
  ¬ (∀ s1 t1 s2 t2 : string,
       pair_key s1 t1 = pair_key s2 t2 →
       PyStr.normalize s1 = PyStr.normalize s2 ∧
       PyStr.normalize t1 = PyStr.normalize t2).
Proof.
  intros H. destruct (H "a|||b" "c" "a" "b|||c") as [Hs _]; [reflexivity|].
  vm_compute in Hs. discriminate Hs.
Qed.

(** C3, amended.  [pair_key] separates the two normalised texts whenever
    the normalised source texts do not contain the character '|'. *)
Theorem pair_key_injective (s1 t1 s2 t2 : string) :
  bar_free (PyStr.normalize s1) → bar_free (PyStr.normalize s2) →
  pair_key s1 t1 = pair_key s2 t2 →
  PyStr.normalize s1 = PyStr.normalize s2 ∧
  PyStr.normalize t1 = PyStr.normalize t2.
Proof.
  intros H1 H2 Heq. rewrite !pair_key_unfold in Heq.
  destruct (bar_split_unique _ _ _ _ H1 H2 Heq) as [Hs Ht].
  split; [done|]. rewrite !append_cons, !append_nil in Ht. congruence.
Qed.

Lemma pair_key_injective_witness :
  PyStr.normalize "The  Cat" = PyStr.normalize "the cat" ∧
  PyStr.normalize "El gato" = PyStr.normalize " el GATO".
Proof.
  apply (pair_key_injective "The  Cat" "El gato" "the cat" " el GATO");
    reflexivity.
Defined.

(** ** Text extraction and the classification of defective units *)

Lemma get_tu_texts_Some ed tu :
  (2 ≤ length (findall "tuv" tu))%nat → ∃ s t, _get_tu_texts ed tu = Some (s, t).
Proof.
  intros Hlen. unfold _get_tu_texts.
  destruct (findall "tuv" tu) as [|t0 [|t1 rest]]; simpl in Hlen; [lia..|].
  destruct (fold_left _ _ _) as [source_tuv target_tuv]. by eauto.
Qed.

Lemma get_tu_texts_None ed tu :
  _get_tu_texts ed tu = None → (length (findall "tuv" tu) < 2)%nat.
Proof.
  intros Hnone. destruct (decide (length (findall "tuv" tu) < 2)%nat); [done|].
  destruct (get_tu_texts_Some ed tu) as (s & t & Hst); [lia|congruence].
Qed.

Lemma bump_other k k' (m : gmap string Z) :
  k ≠ k' → m !! k' = None → bump k m !! k' = None.
Proof. intros Hne Hm. unfold bump. by rewrite lookup_insert_ne. Qed.

Lemma empty_step_spec ed to_rm counts tu :
  counts !! "invalid_structure" = None →
  (empty_step ed (to_rm, counts) tu).2 !! "invalid_structure" = None
  ∧ ((empty_step ed (to_rm, counts) tu).1 = to_rm ++ [tu]
     ∨ (empty_step ed (to_rm, counts) tu).1 = to_rm).
Proof.
  intros Hinv. unfold empty_step.
  destruct (decide (length (findall "tuv" (elem tu)) < 2)%nat) as [|Hlen].
  { simpl. split; [by apply bump_other|by left]. }
  destruct (_get_tu_texts ed (elem tu)) as [[s t]|] eqn:Htexts.
  - repeat case_match; simpl; (split; [try done; by apply bump_other|by eauto]).
  - apply get_tu_texts_None in Htexts. lia.
Qed.

Lemma empty_fold_spec ed l to_rm counts :
  counts !! "invalid_structure" = None →
  (fold_left (empty_step ed) l (to_rm, counts)).2 !! "invalid_structure" = None
  ∧ ∃ extra, (fold_left (empty_step ed) l (to_rm, counts)).1 = to_rm ++ extra
             ∧ extra `sublist_of` l.
Proof.
  revert to_rm counts.
  induction l as [|tu l IH]; intros to_rm counts Hinv; cbn [fold_left].
  - split; [done|]. exists []. by rewrite app_nil_r.
  - destruct (empty_step_spec ed to_rm counts tu Hinv) as [Hinv' Hrm].
    destruct (empty_step ed (to_rm, counts) tu) as [to_rm' counts'].
    simpl in Hinv', Hrm.
    destruct (IH to_rm' counts' Hinv') as [Hfin (extra & Hextra & Hsub)].
    split; [done|]. destruct Hrm as [->| ->].
    + exists (tu :: extra). rewrite Hextra, <- app_assoc. split; [done|].
      by apply sublist_skip.
    + exists extra. split; [done|]. by apply sublist_cons.
Qed.

(** C10.  A unit with two or more [tuv] children always has its texts
    extracted: [_get_tu_texts] returns two strings.  So the branch of
    [remove_empty_segments] that counts [invalid_structure] is never taken:
    the key is absent from [by_type] in every result; and on a body of
    distinct objects the operation does return a result. *)
Theorem invalid_structure_unreachable :
  (∀ ed tu, (2 ≤ length (findall "tuv" tu))%nat →
     ∃ s t, _get_tu_texts ed tu = Some (s, t))
  ∧ (∀ ed r, (remove_empty_segments ed).2 = Ok r →
       by_type r !! "invalid_structure" = None)
  ∧ (∀ ed, NoDup (oids (body ed)) → ∃ r, (remove_empty_segments ed).2 = Ok r).
Proof.
  split_and!.
  - apply get_tu_texts_Some.
  - intros ed r. unfold remove_empty_segments.
    destruct (empty_fold_spec ed (body_findall "tu" (body ed)) [] ∅) as [Hinv _];
      [done|].
    destruct (fold_left _ _ _) as [to_rm counts]. simpl in Hinv.
    destruct (remove_each to_rm (body ed)) as [b [e|]]; simpl; [done|].
    intros [= <-]. done.
  - intros ed Hnd. unfold remove_empty_segments.
    destruct (empty_fold_spec ed (body_findall "tu" (body ed)) [] ∅)
      as [_ (extra & Hextra & Hsub)]; [done|].
    destruct (fold_left _ _ _) as [to_rm counts]. simpl in Hextra. subst to_rm.
    rewrite remove_each_filter; [by eauto|done|..].
    + eapply sublist_NoDup; [apply (body_findall_NoDup "tu"), Hnd|].
      by apply fmap_sublist.
    + intros x Hx. apply list_elem_of_fmap_2.
      eapply elem_of_sublist; [|apply (body_findall_sublist "tu")].
      by eapply elem_of_sublist.
Qed.

Lemma defective_units_NoDup : NoDup (oids (body defective_units)).
Proof. apply (bool_decide_unpack _). by vm_compute. Defined.

Lemma invalid_structure_unreachable_witness :
  (∃ s t, _get_tu_texts defective_units (mk_tu "cat" "gato") = Some (s, t))
  ∧ (∃ r, (remove_empty_segments defective_units).2 = Ok r
          ∧ by_type r !! "invalid_structure" = None).
Proof.
  destruct invalid_structure_unreachable as (Htexts & Hcount & Hret). split.
  - apply Htexts. vm_compute. lia.
  - destruct (Hret defective_units defective_units_NoDup) as [r Hr].
    exists r. split; [exact Hr|exact (Hcount _ _ Hr)].
Defined.

(** ** Filter *)

Section FilterProperties.

Context (Pattern : Type) (re_compile : string → option Pattern)
        (re_search : Pattern → string → bool).

Lemma filter_loop ed src_re tgt_re c invert l acc :
  fold_left (filter_step Pattern re_search ed src_re tgt_re c invert) l acc =
  acc ++ filter (λ tu, selects Pattern re_search ed src_re tgt_re c invert tu = true) l.
Proof.
  revert acc. induction l as [|tu l IH]; intros acc; cbn [fold_left].
  - by rewrite app_nil_r.
  - rewrite IH, filter_cons. unfold filter_step, selects.
    destruct (_get_tu_texts ed (elem tu)) as [[s t]|].
    + destruct (if invert then _ else _).
      * rewrite decide_True by done. by rewrite <- app_assoc.
      * by rewrite decide_False by done.
    + by rewrite decide_False by done.
Qed.

(** C7.  On a body of distinct objects, [filter_tus] with [invert=True]
    returns, in document order, exactly the units with source text that the
    call with [invert=False] does not return; a unit without source text is
    in neither result.  The two calls raise together (on a bad pattern). *)
Theorem filter_tus_invert (ed : TMXEditor) (c : Criteria) :
  NoDup (oids (body ed)) →
  match filter_tus Pattern re_compile re_search ed c false,
        filter_tus Pattern re_compile re_search ed c true with
  | Ok plain, Ok inverted =>
      inverted =
        filter (λ tu, is_Some (_get_tu_texts ed (elem tu)) ∧ oid tu ∉ oids plain)
          (body_findall "tu" (body ed))
      ∧ (∀ tu, _get_tu_texts ed (elem tu) = None → (tu ∉ plain) ∧ (tu ∉ inverted))
  | Raise e, Raise e' => e = e'
  | _, _ => False
  end.
Proof.
  intros Hnd. unfold filter_tus.
  destruct (compile_if Pattern re_compile (source_pattern c)) as [src_re|e]; [|done].
  destruct (compile_if Pattern re_compile (target_pattern c)) as [tgt_re|e]; [|done].
  rewrite !filter_loop. simpl.
  set (all_tus := body_findall "tu" (body ed)).
  assert (NoDup (oids all_tus)) as Hnd_tus by (by apply body_findall_NoDup).
  split.
  - apply filter_ext_in, Forall_forall. intros tu Htu.
    assert (oid tu ∈ oids (filter (λ tu, selects Pattern re_search ed src_re tgt_re
                                           c false tu = true) all_tus)
            ↔ selects Pattern re_search ed src_re tgt_re c false tu = true) as ->.
    { rewrite list_elem_of_fmap. split.
      - intros (m & Hoid & [Hm Hin]%list_elem_of_filter).
        by rewrite (same_object all_tus tu m).
      - intros Hsel. exists tu. split; [done|]. by apply list_elem_of_filter. }
    unfold selects. destruct (_get_tu_texts ed (elem tu)) as [[s t]|].
    + assert (is_Some (Some (s, t))) by by eexists.
      destruct (tu_matches _ _ _ _ _ _ _ _); simpl; split.
      * by intros [=].
      * intros [_ Hn]. by destruct Hn.
      * intros _. split; [done|by intros [=]].
      * done.
    + split; [done|]. by intros [[? [=]] _].
  - intros tu Hnone.
    split; intros [Hsel _]%list_elem_of_filter; unfold selects in Hsel;
      by rewrite Hnone in Hsel.
Qed.

End FilterProperties.

Lemma filter_tus_invert_witness :
  filter_tus string Some prefix_search three_units
    (MkCriteria (Some "ca") None None None) true
  = Ok (filter (λ tu, is_Some (_get_tu_texts three_units (elem tu))
                      ∧ oid tu ∉ [0; 1]%nat)
          (body_findall "tu" (body three_units))).
Proof.
  pose proof (filter_tus_invert string Some prefix_search three_units
                (MkCriteria (Some "ca") None None None) three_units_NoDup) as H.
  destruct (filter_tus string Some prefix_search three_units _ true) as [inv|e] eqn:Hinv.
  - destruct (filter_tus string Some prefix_search three_units _ false) as [pl|e] eqn:Hpl;
      [|contradiction].
    destruct H as [H _]. rewrite H. f_equal.
    vm_compute in Hpl. injection Hpl as <-. reflexivity.
  - vm_compute in Hinv. discriminate Hinv.
Defined.

(** ** Merge *)

Lemma filter_oid_length (l : list Node) (x : Node) :
  NoDup (oids l) → x ∈ l →
  (length (filter (λ n, oid n ≠ oid x) l) + 1 = length l)%nat.
Proof.
  induction l as [|y l IH]; intros Hnd Hx; [by apply elem_of_nil in Hx|].
  rewrite fmap_cons in Hnd. apply NoDup_cons in Hnd as [Hy Hnd].
  rewrite filter_cons. destruct (decide (oid y ≠ oid x)) as [Hne|Heq].
  - apply elem_of_cons in Hx as [->|Hx]; [done|]. simpl. rewrite <- IH by done. lia.
  - apply dec_stable in Heq. simpl. rewrite filter_all; [lia|].
    apply Forall_forall. intros z Hz Hzx. apply Hy. rewrite Heq, <- Hzx.
    by apply list_elem_of_fmap_2.
Qed.

Lemma index_values ed l st k n :
  (fold_left (index_step ed) l st).2 !! k = Some n →
  st.2 !! k = Some n ∨ n ∈ l.
Proof.
  revert st. induction l as [|tu l IH]; intros st; cbn [fold_left]; [by left|].
  intros [H|H]%IH; [|right; by right].
  unfold index_step in H. destruct (_get_tu_texts ed (elem tu)) as [[s t]|]; [|by left].
  simpl in H. apply lookup_insert_Some in H as [[_ <-]|[_ H]]; [right; by left|by left].
Qed.

Lemma build_index_values ed k n :
  (build_index ed).2 !! k = Some n → n ∈ body ed ∧ tag (elem n) = "tu".
Proof.
  intros [H|H]%index_values; [simpl in H; by rewrite lookup_empty in H|].
  by apply list_elem_of_filter in H as [? ?].
Qed.

Lemma append_copy_nodup self other h st tu :
  merge_inv self other h st → heap_wf self other h →
  NoDup (oids (m_body st ++ [deepcopy (heap st) tu])).
Proof.
  intros Hinv [Hnd Hlt]. rewrite fmap_app. apply NoDup_app. split_and!.
  - apply Hinv.
  - intros i (m & Hi & Hm)%list_elem_of_fmap Hin. simpl in Hin.
    apply list_elem_of_singleton in Hin. subst i.
    destruct (inv_body _ _ _ _ Hinv m Hm) as [Hself|Hcopy]; [|lia].
    assert (oid m < h)%nat by (apply Hlt, elem_of_app; by left).
    pose proof (inv_heap _ _ _ _ Hinv). lia.
  - apply NoDup_singleton.
Qed.

Lemma append_copy_count st tu (b : list Node) :
  tag (elem tu) = "tu" →
  length (body_findall "tu" (b ++ [deepcopy (heap st) tu])) =
  S (length (body_findall "tu" b)).
Proof.
  intros Htag. unfold body_findall. rewrite filter_app, length_app.
  rewrite filter_cons_True by done. simpl. lia.
Qed.

(** A successful [body.remove(old_tu)] for an entry of the source lookup
    takes out that very unit. *)
Lemma remove_indexed self other h st old_tu b :
  merge_inv self other h st → heap_wf self other h →
  tag (elem old_tu) = "tu" → old_tu ∈ body self ++ body other →
  body_remove old_tu (m_body st) = Some b →
  old_tu ∈ m_body st ∧ old_tu ∈ body self
  ∧ b = filter (λ n, oid n ≠ oid old_tu) (m_body st).
Proof.
  intros Hinv [Hnd Hlt] Htag Hold Hrm.
  destruct (decide (oid old_tu ∈ oids (m_body st))) as [Hin|Hnin];
    [|by rewrite body_remove_None in Hrm].
  rewrite body_remove_filter in Hrm by (done || apply Hinv).
  injection Hrm as <-.
  apply list_elem_of_fmap in Hin as (m & Hoid & Hm).
  destruct (inv_body _ _ _ _ Hinv m Hm) as [Hself|Hcopy].
  - assert (old_tu = m) as ->; [|done].
    eapply (same_object (body self ++ body other)); [done..| |done].
    apply elem_of_app. by left.
  - apply Hlt in Hold. lia.
Qed.

Lemma merge_step_inv self other h strategy st tu st' :
  heap_wf self other h → merge_inv self other h st →
  tu ∈ body other → tag (elem tu) = "tu" →
  merge_step other strategy st tu = inl st' →
  merge_inv self other h st'.
Proof.
  intros Hwf Hinv Htu Htag. unfold merge_step.
  assert (∀ b, b = m_body st ++ [deepcopy (heap st) tu] →
            ∀ m, m ∈ b → m ∈ body self ∨ (h ≤ oid m < S (heap st))%nat) as Hbody_app.
  { intros b -> m [Hm|[->|[]%elem_of_nil]%elem_of_cons]%elem_of_app.
    - destruct (inv_body _ _ _ _ Hinv m Hm); [by left|right; lia].
    - right. simpl. pose proof (inv_heap _ _ _ _ Hinv). lia. }
  assert (∀ k (m : gmap string Node), m = <[k := tu]> (existing_sources st) →
            ∀ k' n, m !! k' = Some n → tag (elem n) = "tu" ∧ n ∈ body self ++ body other)
    as Hsrc_ins.
  { intros k m -> k' n [[_ <-]|[_ H]]%lookup_insert_Some.
    - split; [done|]. apply elem_of_app. by right.
    - by apply (inv_sources _ _ _ _ Hinv k'). }
  destruct (_get_tu_texts other (elem tu)) as [[s t]|]; [|by intros [= <-]].
  destruct (decide (pair_key s t ∈ existing_pairs st)).
  { intros [= <-]. by destruct Hinv. }
  destruct (existing_sources st !! PyStr.normalize s) as [old_tu|] eqn:Hold.
  - destruct (decide (strategy = "skip")).
    { intros [= <-]. by destruct Hinv. }
    destruct (decide (strategy = "replace")).
    { destruct (body_remove old_tu (m_body st)) as [b|] eqn:Hrm; [|done].
      intros [= <-].
      destruct (inv_sources _ _ _ _ Hinv _ _ Hold) as [Hotag Hoin].
      destruct (remove_indexed self other h st old_tu b Hinv Hwf Hotag Hoin Hrm)
        as (Hobody & Hoself & ->).
      pose proof (append_copy_nodup self other h st tu Hinv Hwf) as Hnd'.
      split; simpl.
      - rewrite fmap_app in Hnd' |- *. apply NoDup_app in Hnd' as (Hnd1 & Hnd2 & Hnd3).
        apply NoDup_app. split_and!; [by apply oids_filter_NoDup| |done].
        intros i Hi. apply Hnd2. eapply elem_of_sublist; [exact Hi|].
        apply fmap_sublist. by apply sublist_filter.
      - intros m [[_ Hm]%list_elem_of_filter|[->|[]%elem_of_nil]%elem_of_cons]%elem_of_app.
        + destruct (inv_body _ _ _ _ Hinv m Hm); [by left|right; lia].
        + right. simpl. pose proof (inv_heap _ _ _ _ Hinv). lia.
      - by eapply Hsrc_ins.
      - pose proof (inv_heap _ _ _ _ Hinv). lia.
      - rewrite append_copy_count by done. rewrite body_findall_filter.
        pose proof (filter_oid_length (body_findall "tu" (m_body st)) old_tu) as Hlen.
        rewrite <- (inv_count _ _ _ _ Hinv). rewrite <- Hlen; [lia| |].
        + apply body_findall_NoDup, Hinv.
        + by apply list_elem_of_filter. }
    destruct (decide (strategy = "keep_both")).
    { intros [= <-]. split; simpl.
      - by eapply append_copy_nodup.
      - by eapply Hbody_app.
      - apply Hinv.
      - pose proof (inv_heap _ _ _ _ Hinv). lia.
      - rewrite append_copy_count by done. pose proof (inv_count _ _ _ _ Hinv). lia. }
    intros [= <-]. by destruct Hinv.
  - intros [= <-]. split; simpl.
    + by eapply append_copy_nodup.
    + by eapply Hbody_app.
    + by eapply Hsrc_ins.
    + pose proof (inv_heap _ _ _ _ Hinv). lia.
    + rewrite append_copy_count by done. pose proof (inv_count _ _ _ _ Hinv). lia.
Qed.

Lemma merge_loop_inv self other h strategy tus st st' :
  heap_wf self other h → merge_inv self other h st →
  (∀ tu, tu ∈ tus → tu ∈ body other ∧ tag (elem tu) = "tu") →
  merge_loop other strategy tus st = (st', None) →
  merge_inv self other h st'.
Proof.
  intros Hwf. revert st. induction tus as [|tu tus IH]; intros st Hinv Htus; simpl.
  - by intros [= <-].
  - destruct (merge_step other strategy st tu) as [st1|e] eqn:Hstep; [|done].
    apply IH.
    + destruct (Htus tu) as [? ?]; [by left|]. by eapply merge_step_inv.
    + intros x Hx. apply Htus. by right.
Qed.

Lemma merge_inv_start self other h :
  heap_wf self other h →
  merge_inv self other h
    (MkMergeState (body self) (build_index self).1 (build_index self).2 0 0 0 h).
Proof.
  intros [Hnd Hlt]. split; simpl.
  - rewrite fmap_app in Hnd. by apply NoDup_app in Hnd as [? _].
  - by left.
  - intros k n [Hn Htag]%build_index_values. split; [done|].
    apply elem_of_app. by left.
  - done.
  - lia.
Qed.

(** C5.  When [merge_from] returns, [total_after] is the number of units
    the target had before plus [added], under every strategy.  [heap_wf]
    says what holds of any two loaded documents: their elements are
    different objects, allocated before the copies are. *)
Theorem merge_total_after (self other : TMXEditor) (strategy : string)
    (h : nat) (r : MergeResult) :
  heap_wf self other h →
  (merge_from self other strategy h).2 = Ok r →
  total_after r = Z.of_nat (length (body_findall "tu" (body self))) + added r.
Proof.
  intros Hwf. unfold merge_from.
  pose proof (merge_inv_start self other h Hwf) as Hstart.
  destruct (build_index self) as [pairs sources]. simpl in Hstart.
  destruct (merge_loop _ _ _ _) as [st [e|]] eqn:Hloop; simpl; [done|].
  intros [= <-]. simpl.
  eapply inv_count, (merge_loop_inv self other h); [done|exact Hstart| |exact Hloop].
  intros tu [? ?]%list_elem_of_filter. done.
Qed.

(** *** The scenario of the specification: one unit against two *)

Lemma hello_wf : heap_wf hello_A hello_B 100.
Proof.
  split.
  - apply (bool_decide_unpack _). by vm_compute.
  - apply Forall_forall. apply (bool_decide_unpack _). by vm_compute.
Defined.

Lemma merge_total_after_witness :
  (merge_from hello_A hello_B "replace" 100).2 = Ok (MkMergeResult 0 1 1 1)
  ∧ total_after (MkMergeResult 0 1 1 1) =
      Z.of_nat (length (body_findall "tu" (body hello_A))) + added (MkMergeResult 0 1 1 1).
Proof.
  split; [by vm_compute|].
  apply (merge_total_after hello_A hello_B "replace" 100 _ hello_wf).
  by vm_compute.
Defined.

(** *** Two incoming units for one source *)

(** C2 fails on this input.  Under [replace] the first unit of the other
    file takes the place of the target's unit; the source lookup then holds
    the object of the other file, not the copy that was appended, so the
    second unit makes [body.remove] raise [ValueError] — after the target
    has lost its own unit and gained the copy. *)
Theorem merge_replace_raises_midway :
  let r := merge_from hello_A twice_B "replace" 100 in
  r.2 = Raise ValueError
  ∧ texts_of hello_A = [Some ("hello", "hola")]
  ∧ texts_of r.1 = [Some ("hello", "ciao")]
  ∧ oids (body hello_A) = [0%nat]
  ∧ oids (body r.1) = [100%nat].
Proof. by vm_compute. Qed.

(** *** Two units of the target with one source *)

(** C4, as stated, fails: the lookup holds the last unit of the target
    with a given source, not the first, and when the target has two units
    with the conflicting source only the last is replaced, so the source is
    found twice afterwards, once with the target's own text. *)
Lemma merge_replace_keeps_first_of_two :
  let r := merge_from double_A ciao_B "replace" 100 in
  r.2 = Ok (MkMergeResult 0 0 1 2)
  ∧ texts_of r.1 = [Some ("hello", "hola"); Some ("hello", "ciao")]
  ∧ length (units_with_source r.1 "hello" (body r.1)) = 2%nat
  ∧ oid <$> (build_index double_A).2 !! "hello" = Some 1%nat.
Proof. by vm_compute. Qed.

(** *** The lookups built from the target *)

Lemma pick_tuv_langs ed1 ed2 st tuv :
  source_lang ed1 = source_lang ed2 → target_lang ed1 = target_lang ed2 →
  pick_tuv ed1 st tuv = pick_tuv ed2 st tuv.
Proof. intros Hs Ht. unfold pick_tuv. by rewrite Hs, Ht. Qed.

Lemma get_tu_texts_langs ed1 ed2 e :
  source_lang ed1 = source_lang ed2 → target_lang ed1 = target_lang ed2 →
  _get_tu_texts ed1 e = _get_tu_texts ed2 e.
Proof.
  intros Hs Ht. unfold _get_tu_texts.
  destruct (findall "tuv" e) as [|t0 [|t1 rest]]; [done..|].
  assert (∀ l st, fold_left (pick_tuv ed1) l st = fold_left (pick_tuv ed2) l st) as ->;
    [|done].
  induction l as [|x l IH]; intros st; simpl; [done|].
  by rewrite IH, (pick_tuv_langs ed1 ed2).
Qed.

Lemma unit_key_source_target ed u ks kt :
  unit_source ed u = Some ks → unit_target ed u = Some kt →
  unit_key ed u = Some (ks +:+ "|||" +:+ kt).
Proof.
  unfold unit_source, unit_target, unit_key, pair_key.
  destruct (_get_tu_texts ed (elem u)) as [[s t]|]; [|done]. by intros [= <-] [= <-].
Qed.

Lemma unit_source_key ed u k :
  unit_source ed u = Some k → ∃ p, unit_key ed u = Some p.
Proof.
  unfold unit_source, unit_key.
  destruct (_get_tu_texts ed (elem u)) as [[s t]|]; [by eauto|done].
Qed.

Lemma unit_key_source ed u p :
  unit_key ed u = Some p → ∃ k, unit_source ed u = Some k.
Proof.
  unfold unit_source, unit_key.
  destruct (_get_tu_texts ed (elem u)) as [[s t]|]; [by eauto|done].
Qed.

Lemma index_step_unfold ed st tu :
  index_step ed st tu =
    match unit_key ed tu, unit_source ed tu with
    | Some p, Some k => ({[p]} ∪ st.1, <[k := tu]> st.2)
    | _, _ => st
    end.
Proof.
  unfold index_step, unit_key, unit_source.
  by destruct (_get_tu_texts ed (elem tu)) as [[s t]|].
Qed.

Lemma index_pairs ed l st p :
  p ∈ (fold_left (index_step ed) l st).1 ↔
  p ∈ st.1 ∨ ∃ u, u ∈ l ∧ unit_key ed u = Some p.
Proof.
  revert st. induction l as [|tu l IH]; intros st; cbn [fold_left].
  - split; [by left|]. intros [?|(u & []%elem_of_nil & _)]. done.
  - rewrite IH, index_step_unfold. split.
    + intros [Hst|(u & Hu & Hk)]; [|right; exists u; split; [by right|done]].
      destruct (unit_key ed tu) as [p'|] eqn:Hp; [|by left].
      destruct (unit_source ed tu) as [k'|]; [|by left].
      simpl in Hst. apply elem_of_union in Hst as [->%elem_of_singleton|?]; [|by left].
      right. exists tu. split; [by left|done].
    + intros [Hst|(u & [->|Hu]%elem_of_cons & Hk)].
      * left. destruct (unit_key ed tu), (unit_source ed tu); simpl; try done.
        apply elem_of_union. by right.
      * left. rewrite Hk. destruct (unit_key_source ed tu p Hk) as [k' ->].
        simpl. apply elem_of_union. left. by apply elem_of_singleton.
      * right. by exists u.
Qed.

Lemma index_sources ed l st k :
  (fold_left (index_step ed) l st).2 !! k =
    match last (filter (λ n, unit_source ed n = Some k) l) with
    | Some n => Some n
    | None => st.2 !! k
    end.
Proof.
  revert st. induction l as [|tu l IH] using rev_ind; intros st; [done|].
  rewrite fold_left_app, filter_app. cbn [fold_left].
  rewrite index_step_unfold, filter_cons, filter_nil.
  destruct (unit_source ed tu) as [k'|] eqn:Hk'.
  - destruct (unit_source_key ed tu k' Hk') as [p ->]. simpl.
    destruct (decide (Some k' = Some k)) as [[= ->]|Hne].
    + by rewrite last_snoc, lookup_insert_eq.
    + rewrite app_nil_r, lookup_insert_ne by congruence. apply IH.
  - rewrite decide_False by done. rewrite app_nil_r.
    destruct (unit_key ed tu); apply IH.
Qed.

(** The source lookup of the target holds, for every normalised source,
    the last unit of the target that has it. *)
Lemma build_index_last ed k :
  (build_index ed).2 !! k = last (units_with_source ed k (body ed)).
Proof.
  unfold build_index, units_with_source. rewrite index_sources. simpl.
  destruct (last _); [done|apply lookup_empty].
Qed.

Lemma build_index_pairs ed p :
  p ∈ (build_index ed).1 ↔
  ∃ u, u ∈ body_findall "tu" (body ed) ∧ unit_key ed u = Some p.
Proof.
  unfold build_index. rewrite index_pairs. simpl. split; [|by right].
  intros [Hemp|H]; [|done]. by apply not_elem_of_empty in Hemp.
Qed.

(** *** [replace]: what happens to one conflicting source *)

Lemma units_with_source_filter ed k (Q : Node → Prop) `{!∀ n, Decision (Q n)} b :
  units_with_source ed k (filter Q b) = filter Q (units_with_source ed k b).
Proof.
  unfold units_with_source. rewrite body_findall_filter, !list_filter_filter.
  apply list_filter_iff. tauto.
Qed.

Lemma units_with_source_elem ed k b u :
  u ∈ units_with_source ed k b ↔
  unit_source ed u = Some k ∧ tag (elem u) = "tu" ∧ u ∈ b.
Proof. unfold units_with_source, body_findall. by rewrite !list_elem_of_filter. Qed.

Lemma units_append ed k b hp tu :
  tag (elem tu) = "tu" →
  units_with_source ed k (b ++ [deepcopy hp tu]) =
  units_with_source ed k b ++
    (if decide (unit_source ed tu = Some k) then [deepcopy hp tu] else []).
Proof.
  intros Htag. unfold units_with_source, body_findall.
  rewrite !filter_app. f_equal. rewrite (filter_cons_True _ (deepcopy hp tu)) by done.
  rewrite filter_cons, filter_nil. done.
Qed.

Lemma units_remove_other ed k b old :
  NoDup (oids b) → old ∈ b → unit_source ed old ≠ Some k →
  units_with_source ed k (filter (λ n, oid n ≠ oid old) b) = units_with_source ed k b.
Proof.
  intros Hnd Hold Hne. rewrite units_with_source_filter. apply filter_all.
  apply Forall_forall. intros x (Hk & _ & Hx)%units_with_source_elem Hoid.
  apply Hne. by rewrite <- (same_object b x old).
Qed.

Lemma units_remove_self ed k b old :
  units_with_source ed k b = [old] →
  units_with_source ed k (filter (λ n, oid n ≠ oid old) b) = [].
Proof.
  intros Hk. rewrite units_with_source_filter, Hk.
  by rewrite filter_cons_False by (intros H; by apply H).
Qed.

Lemma omap_NoDup_eq {A B} (f : A → option B) (l : list A) (x y : A) (v : B) :
  NoDup (omap f l) → x ∈ l → y ∈ l → f x = Some v → f y = Some v →
  NoDup l → x = y.
Proof.
  induction l as [|z l IH]; intros Hnd Hx Hy Hfx Hfy Hl; [by apply elem_of_nil in Hx|].
  apply NoDup_cons in Hl as [Hz Hl]. simpl in Hnd.
  apply elem_of_cons in Hx as [->|Hx]; apply elem_of_cons in Hy as [->|Hy]; [done|..].
  - rewrite Hfx in Hnd. apply NoDup_cons in Hnd as [Hv _]. exfalso. apply Hv.
    apply list_elem_of_omap. by exists y.
  - rewrite Hfy in Hnd. apply NoDup_cons in Hnd as [Hv _]. exfalso. apply Hv.
    apply list_elem_of_omap. by exists x.
  - apply IH; try done. destruct (f z); [by apply NoDup_cons in Hnd as [_ ?]|done].
Qed.

Section MergeReplace.

Context (self other : TMXEditor) (h : nat).
Context (Hwf : heap_wf self other h).
Context (Hsl : source_lang self = source_lang other).
Context (Htl : target_lang self = target_lang other).

Local Abbreviation tusA := (body_findall "tu" (body self)).
Local Abbreviation tusB := (body_findall "tu" (body other)).

Context (Hdistinct : NoDup (omap (unit_source self) tusA)).
Context (Hfree : collision_free self (tusA ++ tusB)).
Context (k : string) (a : Node).
Context (Ha : a ∈ tusA) (Hak : unit_source self a = Some k).

Lemma texts_other e : _get_tu_texts other e = _get_tu_texts self e.
Proof. symmetry. by apply get_tu_texts_langs. Qed.

Lemma self_other_disjoint x : x ∈ body self → x ∈ body other → False.
Proof.
  destruct Hwf as [Hnd _]. rewrite fmap_app in Hnd.
  apply NoDup_app in Hnd as (_ & Hdis & _). intros Hx Hy.
  apply (Hdis (oid x)); by apply list_elem_of_fmap_2.
Qed.

Lemma tusA_NoDup : NoDup tusA.
Proof.
  apply (NoDup_fmap_1 oid), body_findall_NoDup.
  destruct Hwf as [Hnd _]. rewrite fmap_app in Hnd. by apply NoDup_app in Hnd as [? _].
Qed.

(** The unit of the target with source [k] is [a] alone. *)
Lemma only_a u : u ∈ tusA → unit_source self u = Some k → u = a.
Proof.
  intros Hu Huk.
  by apply (omap_NoDup_eq (unit_source self) tusA u a k); [..|apply tusA_NoDup].
Qed.

Lemma free_keys u v p :
  u ∈ tusA ++ tusB → v ∈ tusA ++ tusB →
  unit_key self u = Some p → unit_key self v = Some p →
  unit_source self u = unit_source self v ∧ unit_target self u = unit_target self v.
Proof.
  intros Hu Hv Hup Hvp. unfold collision_free in Hfree.
  rewrite Forall_forall in Hfree. specialize (Hfree u Hu).
  rewrite Forall_forall in Hfree. apply (Hfree v Hv). congruence.
Qed.

Lemma conflict_key_fresh st tu p :
  replace_inv self other k a st → tu ∈ tusB → conflicts self k a tu →
  unit_key self tu = Some p →
  p ∉ existing_pairs st.
Proof.
  intros Hinv Htu [Hsrc Htgt] Hp Hin.
  destruct (ri_pairs _ _ _ _ st Hinv p Hin) as (u & Hu & Hwhere).
  assert (u ∈ tusA ++ tusB) as Hu_in by (rewrite elem_of_app; tauto).
  assert (tu ∈ tusA ++ tusB) as Htu_in by (rewrite elem_of_app; tauto).
  destruct (free_keys u tu p Hu_in Htu_in Hu Hp) as [Hs Ht].
  destruct Hwhere as [HuA|[_ Hne]]; [|congruence].
  assert (u = a) as -> by (apply only_a; congruence). congruence.
Qed.

Lemma start_inv :
  replace_inv self other k a
    (MkMergeState (body self) (build_index self).1 (build_index self).2 0 0 0 h).
Proof.
  split; unfold untouched_k; cbn [existing_sources existing_pairs m_body].
  - intros p (u & Hu & Hk)%build_index_pairs. exists u. split; [done|by left].
  - intros p Hp. apply build_index_pairs. by exists a.
  - intros k' n. rewrite build_index_last. intros Hlast%last_Some_elem_of.
    by apply units_with_source_elem in Hlast as [? _].
  - left. exists a. 
    assert (units_with_source self k (body self) = [a]) as Hunits.
    { unfold units_with_source. revert Ha Hak Hdistinct. generalize tusA.
      intros l. induction l as [|x l IH]; intros Hin Hk Hnd; [by apply elem_of_nil in Hin|].
      simpl in Hnd. rewrite filter_cons.
      destruct (decide (unit_source self x = Some k)) as [Hx|Hx].
      - rewrite Hx in Hnd. apply NoDup_cons in Hnd as [Hfresh Hnd].
        rewrite filter_none; last first.
        { apply Forall_forall. intros y Hy Hyk. apply Hfresh.
          apply list_elem_of_omap. by exists y. }
        apply elem_of_cons in Hin as [->|Hin]; [done|].
        exfalso. apply Hfresh, list_elem_of_omap. by exists a.
      - apply elem_of_cons in Hin as [->|Hin]; [done|]. apply IH; [done..|].
        destruct (unit_source self x); [by apply NoDup_cons in Hnd as [_ ?]|done]. }
    split_and!; [|by apply (list_elem_of_filter _ _ a) in Ha as [_ ?]|done].
    by rewrite build_index_last, Hunits.
Qed.

Lemma k_state_transport st st' :
  existing_sources st' !! k = existing_sources st !! k →
  units_with_source self k (m_body st') = units_with_source self k (m_body st) →
  (untouched_k self k st → untouched_k self k st')
  ∧ (replaced_k self other k a st → replaced_k self other k a st').
Proof.
  intros Hsrc Hunits. unfold untouched_k, replaced_k. rewrite Hsrc, Hunits. done.
Qed.

Lemma k_in_sources st : replace_inv self other k a st → is_Some (existing_sources st !! k).
Proof.
  intros Hinv. destruct (ri_k _ _ _ _ st Hinv) as [(a' & Ha' & _)|(b & c & Hb & _)]; by eexists.
Qed.

Lemma replace_step st tu st' :
  merge_inv self other h st → replace_inv self other k a st → tu ∈ tusB →
  merge_step other "replace" st tu = inl st' →
  replace_inv self other k a st'
  ∧ (replaced_k self other k a st ∨ conflicts self k a tu →
     replaced_k self other k a st').
Proof.
  intros Hm Hinv Htu.
  pose proof Htu as [Htag HtuB]%list_elem_of_filter.
  unfold merge_step. rewrite texts_other.
  destruct (_get_tu_texts self (elem tu)) as [[s t]|] eqn:Htexts; last first.
  { intros [= <-]. split; [done|]. intros [?|[Hs _]]; [done|].
    unfold unit_source in Hs. by rewrite Htexts in Hs. }
  assert (unit_source self tu = Some (PyStr.normalize s)) as Hsrc
    by (unfold unit_source; by rewrite Htexts).
  assert (unit_target self tu = Some (PyStr.normalize t)) as Htgt
    by (unfold unit_target; by rewrite Htexts).
  assert (unit_key self tu = Some (pair_key s t)) as Hkey
    by (unfold unit_key; by rewrite Htexts).
  destruct (decide (pair_key s t ∈ existing_pairs st)) as [Hin|Hnin].
  { intros [= <-]. split.
    - destruct Hinv as [H1 H2 H3 H4]. by split.
    - intros [Hr|Hc]; [exact Hr|]. exfalso.
      by eapply (conflict_key_fresh st tu (pair_key s t)). }
  destruct (existing_sources st !! PyStr.normalize s) as [old|] eqn:Hold.
  - rewrite decide_False by done. rewrite decide_True by done.
    destruct (body_remove old (m_body st)) as [b|] eqn:Hrm; [|done].
    intros [= <-].
    destruct (inv_sources _ _ _ _ Hm _ _ Hold) as [Hotag Hoin].
    destruct (remove_indexed self other h st old b Hm Hwf Hotag Hoin Hrm)
      as (Hobody & Hoself & ->).
    pose proof (ri_sources _ _ _ _ st Hinv _ _ Hold) as Hosrc.
    assert (∀ k' n,
              <[PyStr.normalize s := tu]> (existing_sources st) !! k' = Some n →
              unit_source self n = Some k') as Hsources'.
    { intros k' n [[<- <-]|[_ H]]%lookup_insert_Some; [done|].
      by apply (ri_sources _ _ _ _ st Hinv). }
    destruct (decide (PyStr.normalize s = k)) as [Hk|Hk].
    + assert (replaced_k self other k a
                (MkMergeState
                   (filter (λ n, oid n ≠ oid old) (m_body st) ++ [deepcopy (heap st) tu])
                   (existing_pairs st)
                   (<[PyStr.normalize s := tu]> (existing_sources st))
                   (m_added st) (m_skipped st) (m_replaced st + 1) (S (heap st))))
        as Hrep.
      { destruct (ri_k _ _ _ _ st Hinv) as [(a' & Ha' & Ha'self & Hunits)
                                   |(b & c & Hb & HbB & _)].
        - assert (a' = old) as -> by congruence.
          exists tu, (deepcopy (heap st) tu). cbn [existing_sources m_body].
          split_and!.
          + rewrite Hk. apply lookup_insert_eq.
          + done.
          + by rewrite Hsrc, Hk.
          + intros Heq. apply Hnin, (ri_key_a _ _ _ _ st Hinv).
            rewrite (unit_key_source_target self a k (PyStr.normalize t));
              [by rewrite <- Hk|done|congruence].
          + rewrite units_append by done. rewrite units_remove_self by done.
            rewrite decide_True by congruence. done.
          + done.
        - exfalso. assert (b = old) as -> by congruence.
          apply (self_other_disjoint old); [done|].
          by apply list_elem_of_filter in HbB as [_ ?]. }
      split; [|done]. split; cbn [existing_sources existing_pairs m_body].
      * apply Hinv.
      * apply Hinv.
      * done.
      * by right.
    + assert (Some (PyStr.normalize s) ≠ Some k) as Hk' by congruence.
      edestruct (k_state_transport st
                (MkMergeState
                   (filter (λ n, oid n ≠ oid old) (m_body st) ++ [deepcopy (heap st) tu])
                   (existing_pairs st)
                   (<[PyStr.normalize s := tu]> (existing_sources st))
                   (m_added st) (m_skipped st) (m_replaced st + 1) (S (heap st))))
        as [Hunt Hrep].
      { cbn [existing_sources]. by rewrite lookup_insert_ne. }
      { cbn [m_body]. rewrite units_append by done.
        rewrite decide_False by congruence. rewrite app_nil_r.
        apply units_remove_other; [apply Hm|done|congruence]. }
      split.
      * split; cbn [existing_sources existing_pairs m_body].
        -- apply Hinv.
        -- apply Hinv.
        -- done.
        -- destruct (ri_k _ _ _ _ st Hinv); [left|right]; auto.
      * intros [Hr|[Hc _]]; [auto|congruence].
  - intros [= <-].
    assert (PyStr.normalize s ≠ k) as Hk.
    { intros Heq. destruct (k_in_sources st Hinv) as [? ?]. congruence. }
    edestruct (k_state_transport st
              (MkMergeState (m_body st ++ [deepcopy (heap st) tu])
                 ({[pair_key s t]} ∪ existing_pairs st)
                 (<[PyStr.normalize s := tu]> (existing_sources st))
                 (m_added st + 1) (m_skipped st) (m_replaced st) (S (heap st))))
      as [Hunt Hrep].
    { cbn [existing_sources]. by rewrite lookup_insert_ne. }
    { cbn [m_body]. rewrite units_append by done.
      rewrite decide_False by congruence. by rewrite app_nil_r. }
    split.
    + split; cbn [existing_sources existing_pairs m_body].
      * intros p [->%elem_of_singleton|Hp]%elem_of_union.
        -- exists tu. split; [done|]. right. split; [done|congruence].
        -- by apply (ri_pairs _ _ _ _ st Hinv).
      * intros p Hp. apply elem_of_union. right. by apply (ri_key_a _ _ _ _ st Hinv).
      * intros k' n [[<- <-]|[_ H]]%lookup_insert_Some; [done|].
        by apply (ri_sources _ _ _ _ st Hinv).
      * destruct (ri_k _ _ _ _ st Hinv); [left|right]; auto.
    + intros [Hr|[Hc _]]; [auto|congruence].
Qed.

Lemma replace_loop tus st st' :
  merge_inv self other h st → replace_inv self other k a st →
  (∀ tu, tu ∈ tus → tu ∈ tusB) →
  merge_loop other "replace" tus st = (st', None) →
  (replaced_k self other k a st ∨ ∃ tu, tu ∈ tus ∧ conflicts self k a tu) →
  replaced_k self other k a st'.
Proof.
  revert st. induction tus as [|tu tus IH]; intros st Hm Hinv Htus; simpl.
  - intros [= <-] [?|(tu & []%elem_of_nil & _)]. done.
  - destruct (merge_step other "replace" st tu) as [st1|e] eqn:Hstep; [|done].
    intros Hloop Hsome.
    assert (tu ∈ tusB) as Htu by (apply Htus; by left).
    destruct (replace_step st tu st1 Hm Hinv Htu Hstep) as [Hinv1 Hrep1].
    apply (IH st1); [|done| |done|].
    + pose proof Htu as [? ?]%list_elem_of_filter. by eapply merge_step_inv.
    + intros x Hx. apply Htus. by right.
    + destruct Hsome as [Hr|(x & [->|Hx]%elem_of_cons & Hc)].
      * left. apply Hrep1. by left.
      * left. apply Hrep1. by right.
      * right. by exists x.
Qed.

End MergeReplace.

Lemma unit_source_langs ed1 ed2 u :
  source_lang ed1 = source_lang ed2 → target_lang ed1 = target_lang ed2 →
  unit_source ed1 u = unit_source ed2 u ∧ unit_target ed1 u = unit_target ed2 u.
Proof.
  intros Hs Ht. unfold unit_source, unit_target.
  by rewrite (get_tu_texts_langs ed1 ed2).
Qed.

(** C4, amended.  The source lookup built from the target maps every
    normalised source to the LAST unit of the target that has it.  When the
    units of the target have pairwise different normalised sources, both
    files are read with the same language pair, no two units with different
    normalised texts share a key, and [merge_from] with [replace] returns,
    then a source [k] that a unit [a] of the target shares with a unit [b0]
    of the other file of different target text is, afterwards, the source
    of exactly one unit of the target, and that unit is a copy of a unit of
    the other file whose target text differs from the one of [a]. *)
Theorem merge_replace_conflicts :
  (∀ ed k, (build_index ed).2 !! k = last (units_with_source ed k (body ed)))
  ∧ (∀ self other h r k a b0,
       heap_wf self other h →
       source_lang self = source_lang other →
       target_lang self = target_lang other →
       NoDup (omap (unit_source self) (body_findall "tu" (body self))) →
       collision_free self
         (body_findall "tu" (body self) ++ body_findall "tu" (body other)) →
       (merge_from self other "replace" h).2 = Ok r →
       a ∈ body_findall "tu" (body self) →
       b0 ∈ body_findall "tu" (body other) →
       unit_source self a = Some k →
       unit_source other b0 = Some k →
       unit_target other b0 ≠ unit_target self a →
       let ed' := (merge_from self other "replace" h).1 in
       ∃ b c, units_with_source ed' k (body ed') = [c]
            ∧ b ∈ body_findall "tu" (body other)
            ∧ elem c = elem b
            ∧ unit_source other b = Some k
            ∧ unit_target ed' c = unit_target other b
            ∧ unit_target other b ≠ unit_target self a).
Proof.
  split; [apply build_index_last|].
  intros self other h r k a b0 Hwf Hsl Htl Hdistinct Hfree Hret Ha Hb0 Hak Hbk Hbt.
  pose proof (merge_inv_start self other h Hwf) as Hm0.
  pose proof (start_inv self other h Hdistinct k a Ha Hak) as Hr0.
  destruct (unit_source_langs self other b0 Hsl Htl) as [Hs0 Ht0].
  unfold merge_from in *. destruct (build_index self) as [pairs sources].
  simpl in Hm0, Hr0.
  destruct (merge_loop _ _ _ _) as [st [e|]] eqn:Hloop; [done|]. simpl.
  assert (replaced_k self other k a st) as (b & c & _ & HbB & Hbsrc & Hbtgt & Hunits & Hc).
  { eapply (replace_loop self other h Hwf Hsl Htl Hdistinct Hfree k a Ha Hak);
      [exact Hm0|exact Hr0|done|exact Hloop|].
    right. exists b0. split; [done|]. split; congruence. }
  destruct (unit_source_langs self other b Hsl Htl) as [Hs Ht].
  exists b, c. split_and!; [done|done|done|congruence| |congruence].
  rewrite <- Ht. unfold unit_target. simpl. by rewrite Hc.
Qed.

Lemma hello_collision_free :
  collision_free hello_A
    (body_findall "tu" (body hello_A) ++ body_findall "tu" (body hello_B)).
Proof. apply (bool_decide_unpack _). by vm_compute. Defined.

Lemma merge_replace_conflicts_witness :
  ∃ b c, units_with_source hello_A "hello"
           (body (merge_from hello_A hello_B "replace" 100).1) = [c]
       ∧ elem c = elem b
       ∧ unit_target hello_B b = Some "ciao".
Proof.
  destruct merge_replace_conflicts as [_ H].
  destruct (H hello_A hello_B 100%nat (MkMergeResult 0 1 1 1) "hello"
              (MkNode 0 (mk_tu "hello" "hola")) (MkNode 11 (mk_tu "hello" "ciao")))
    as (b & c & Hunits & HbB & Hc & Hsrc & Htgt & Hne).
  - exact hello_wf.
  - reflexivity.
  - reflexivity.
  - apply (bool_decide_unpack _). by vm_compute.
  - exact hello_collision_free.
  - by vm_compute.
  - vm_compute. apply list_elem_of_here.
  - vm_compute. apply list_elem_of_further, list_elem_of_here.
  - by vm_compute.
  - by vm_compute.
  - by vm_compute.
  - exists b, c. split_and!; [exact Hunits|exact Hc|].
    rewrite <- Htgt. assert (Hin : c ∈ [c]) by apply list_elem_of_here.
    rewrite <- Hunits in Hin. revert Hin. generalize c. apply Forall_forall.
    vm_compute. repeat constructor.
Defined.

(** Why the amended statement asks for keys without collisions and for one
    language pair.  An incoming unit whose key collides with a key of the
    target is skipped although its source conflicts; and a unit copied from
    a file read with another language pair shows other texts in the
    target. *)
Example replace_skips_on_key_collision :
  (merge_from bars_A bars_B "replace" 100).2 = Ok (MkMergeResult 0 1 0 2)
  ∧ unit_target bars_A <$> units_with_source bars_A "a"
                             (body (merge_from bars_A bars_B "replace" 100).1)
    = [Some "x"].
Proof. split; by vm_compute. Qed.

Example replace_across_language_pairs :
  texts_of es_en_B = [Some ("hello", "ciao")]
  ∧ (merge_from hello_A es_en_B "replace" 100).2 = Ok (MkMergeResult 0 0 1 1)
  ∧ texts_of (merge_from hello_A es_en_B "replace" 100).1 = [Some ("ciao", "ciao")]
  ∧ units_with_source hello_A "hello"
      (body (merge_from hello_A es_en_B "replace" 100).1) = [].
Proof. split_and!; by vm_compute. Qed.

(** ** Fuzzy duplicates *)

(** *** The sort puts the items in ascending order of length *)

Lemma insert_by_len_elem x y l : y ∈ insert_by_len x l ↔ y = x ∨ y ∈ l.
Proof.
  induction l as [|z l IH]; simpl.
  - rewrite list_elem_of_singleton, elem_of_nil. tauto.
  - destruct (decide _); rewrite !elem_of_cons; [tauto|]. rewrite IH. tauto.
Qed.

Lemma insert_by_len_sorted x l :
  StronglySorted by_len l → StronglySorted by_len (insert_by_len x l).
Proof.
  induction 1 as [|y l Hl IH Hy]; simpl.
  - repeat constructor.
  - destruct (decide (PyStr.len (src x) ≤ PyStr.len (src y))) as [Hle|Hgt].
    + constructor; [by constructor|]. constructor; [done|].
      eapply Forall_impl; [exact Hy|]. unfold by_len. intros z Hz. lia.
    + constructor; [done|]. apply Forall_forall.
      intros z [->|Hz]%insert_by_len_elem.
      * unfold by_len. lia.
      * rewrite Forall_forall in Hy. by apply Hy.
Qed.

Lemma sort_by_len_sorted l : StronglySorted by_len (sort_by_len l).
Proof.
  induction l as [|x l IH]; simpl; [constructor|]. by apply insert_by_len_sorted.
Qed.

Lemma sorted_lookup (l : list Item) j j' x y :
  StronglySorted by_len l → (j ≤ j')%nat →
  l !! j = Some x → l !! j' = Some y → by_len x y.
Proof.
  intros Hs. revert j j'. induction Hs as [|z l Hl IH Hz]; intros j j' Hle Hx Hy.
  - done.
  - destruct j as [|j], j' as [|j']; simpl in Hx, Hy.
    + unfold by_len. assert (x = y) by congruence. subst. lia.
    + injection Hx as <-. rewrite Forall_forall in Hz.
      apply Hz. by eapply list_elem_of_lookup_2.
    + lia.
    + apply (IH j j'); [lia|done..].
Qed.

(** *** Leaving the loop or passing over: the same scan *)




Lemma scan_candidates_length threshold unique_tus it_i js matched group_similar
    matched' group_similar' :
  scan_candidates threshold unique_tus it_i js matched group_similar =
    Ok (matched', group_similar') →
  length matched' = length matched.
Proof.
  revert matched group_similar.
  induction js as [|j js IH]; intros matched group_similar; simpl.
  - by intros [= <- _].
  - destruct (matched !! j) as [[|]|]; [apply IH| |done].
    destruct (unique_tus !! j) as [it_j|]; [|done].
    destruct (too_long _ _ _) as [[|]|e]; [by intros [= <- _]| |done].
    destruct (Qle_bool _ _); [|apply IH].
    intros H%IH. by rewrite length_insert in H.
Qed.




(** *** Every item has its own number *)

Lemma collect_tu_data_numbers ed i all_tus it :
  it ∈ collect_tu_data ed i all_tus →
  i < tu_number it ≤ i + Z.of_nat (length all_tus).
Proof.
  revert i. induction all_tus as [|tu rest IH]; intros i; simpl.
  - by intros ?%elem_of_nil.
  - assert (it ∈ collect_tu_data ed (i + 1) rest →
            i < tu_number it ≤ i + Z.of_nat (S (length rest))) as Hrest.
    { intros H%IH. lia. }
    destruct (_get_tu_texts ed (elem tu)) as [[s t]|]; [|done].
    destruct (PyStr.truthy s); [|done].
    intros [->|H]%elem_of_cons; [simpl; lia|by apply Hrest].
Qed.

Lemma collect_tu_data_NoDup ed i all_tus :
  NoDup (tu_number <$> collect_tu_data ed i all_tus).
Proof.
  revert i. induction all_tus as [|tu rest IH]; intros i; simpl; [constructor|].
  destruct (_get_tu_texts ed (elem tu)) as [[s t]|]; [|done].
  destruct (PyStr.truthy s); [|done].
  rewrite fmap_cons. apply NoDup_cons. split; [|done]. simpl.
  intros (it & Heq & Hin%collect_tu_data_numbers)%list_elem_of_fmap. lia.
Qed.

Lemma unique_sources_sublist tu_data seen_exact :
  unique_sources tu_data seen_exact `sublist_of` tu_data.
Proof.
  revert seen_exact. induction tu_data as [|it rest IH]; intros seen_exact; simpl;
    [done|].
  destruct (seen_exact !! _); [by apply sublist_cons|by apply sublist_skip].
Qed.

Lemma insert_by_len_perm x l : insert_by_len x l ≡ₚ x :: l.
Proof.
  induction l as [|y l IH]; simpl; [done|].
  destruct (decide _); [done|]. rewrite IH. apply Permutation_swap.
Qed.

Lemma sort_by_len_perm l : sort_by_len l ≡ₚ l.
Proof.
  induction l as [|x l IH]; simpl; [done|]. by rewrite insert_by_len_perm, IH.
Qed.

Lemma unique_tus_numbers ed : NoDup (tu_number <$> unique_tus_of ed).
Proof.
  unfold unique_tus_of. rewrite sort_by_len_perm.
  eapply sublist_NoDup; [apply collect_tu_data_NoDup|].
  apply fmap_sublist, unique_sources_sublist.
Qed.

(** *** What one scan adds *)

Lemma scan_candidates_spec threshold unique_tus it_i js matched group_similar
    matched' group_similar' :
  scan_candidates threshold unique_tus it_i js matched group_similar =
    Ok (matched', group_similar') →
  ∃ idxs sims,
    group_similar' = group_similar ++ sims
    ∧ Forall2 (λ j s, number_at unique_tus j = Some (s_tu_number s)) idxs sims
    ∧ idxs `sublist_of` js
    ∧ (∀ j, j ∈ idxs → matched !! j = Some false)
    ∧ (∀ x, matched !! x = Some true → matched' !! x = Some true)
    ∧ (∀ j, j ∈ idxs → matched' !! j = Some true).
Proof.
  revert matched group_similar.
  induction js as [|j js IH]; intros matched group_similar; simpl.
  - intros [= <- <-]. exists [], []. rewrite app_nil_r.
    split_and!; [done|constructor|done|by intros ? ?%elem_of_nil|done
                |by intros ? ?%elem_of_nil].
  - destruct (matched !! j) as [[|]|] eqn:Hm; [| |done].
    { intros (idxs & sims & ? & ? & ? & ? & ? & ?)%IH.
      exists idxs, sims. split_and!; try done. by apply sublist_cons. }
    destruct (unique_tus !! j) as [it_j|] eqn:Hj; [|done].
    destruct (too_long _ _ _) as [[|]|e]; [| |done].
    { intros [= <- <-]. exists [], []. rewrite app_nil_r.
      split_and!; [done|constructor|apply sublist_nil_l|by intros ? ?%elem_of_nil
                  |done|by intros ? ?%elem_of_nil]. }
    destruct (Qle_bool _ _).
    + intros (idxs & sims & Hgrp & Hrel & Hsub & Hfalse & Hmono & Htrue)%IH.
      pose proof (lookup_lt_Some _ _ _ Hm) as Hlt.
      exists (j :: idxs), (similar_of it_j
                 (Difflib.ratio (PyStr.lower (src it_i)) (PyStr.lower (src it_j))) :: sims).
      split_and!.
      * by rewrite Hgrp, <- app_assoc.
      * constructor; [|done]. unfold number_at. by rewrite Hj.
      * by apply sublist_skip.
      * intros x [->|Hx]%elem_of_cons; [done|].
        specialize (Hfalse x Hx). destruct (decide (x = j)) as [->|Hne].
        -- by rewrite list_lookup_insert_eq in Hfalse.
        -- by rewrite list_lookup_insert_ne in Hfalse.
      * intros x Hx. apply Hmono. rewrite list_lookup_insert_ne; [done|].
        intros ->. congruence.
      * intros x [->|Hx]%elem_of_cons; [|by apply Htrue].
        apply Hmono. by rewrite list_lookup_insert_eq.
    + intros (idxs & sims & ? & ? & ? & ? & ? & ?)%IH.
      exists idxs, sims. split_and!; try done. by apply sublist_cons.
Qed.

(** *** What the clustering keeps true *)

Lemma number_at_inj unique_tus j j' n :
  NoDup (tu_number <$> unique_tus) →
  number_at unique_tus j = Some n → number_at unique_tus j' = Some n → j = j'.
Proof.
  unfold number_at. rewrite <- !list_lookup_fmap. intros Hnd Hj Hj'.
  by eapply NoDup_lookup.
Qed.

Lemma numbers_NoDup unique_tus (used : list nat) (ns : list Z) :
  NoDup (tu_number <$> unique_tus) →
  Forall2 (λ j n, number_at unique_tus j = Some n) used ns →
  NoDup used → NoDup ns.
Proof.
  intros Hnd. induction 1 as [|j n used ns Hjn Hrel IH]; intros Hused; [constructor|].
  apply NoDup_cons in Hused as [Hj Hused]. apply NoDup_cons. split; [|by apply IH].
  intros Hn. apply list_elem_of_lookup in Hn as [i Hi].
  destruct (Forall2_lookup_r _ _ _ _ _ Hrel Hi) as (j' & Hj' & Hj'n).
  assert (j = j') as -> by by eapply number_at_inj.
  apply Hj. by eapply list_elem_of_lookup_2.
Qed.

Lemma cluster_spec threshold unique_tus n rng matched groups result :
  NoDup (tu_number <$> unique_tus) →
  cluster_inv unique_tus matched groups →
  cluster (scan_candidates threshold) unique_tus n rng matched groups = Ok result →
  ∃ matched', cluster_inv unique_tus matched' result.
Proof.
  intros Hnd. revert matched groups.
  induction rng as [|i rng IH]; intros matched groups Hinv; simpl.
  - intros [= <-]. by exists matched.
  - destruct (matched !! i) as [[|]|] eqn:Hm; [by apply IH| |done].
    destruct (unique_tus !! i) as [it_i|] eqn:Hi; [|done].
    destruct (scan_candidates _ _ _ _ _ _) as [[matched' group_similar]|e] eqn:Hscan;
      [|done].
    apply scan_candidates_spec in Hscan
      as (idxs & sims & Hgrp & Hrel & Hsub & Hfalse & Hmono & Htrue).
    simpl in Hgrp. subst group_similar.
    destruct Hinv as (used & Hnums & Hused & Hmatched & Hown).
    destruct sims as [|s sims]; apply IH.
    + exists used. split_and!; [done|done| |done].
      intros j Hj. by apply Hmono, Hmatched.
    + exists (used ++ idxs). split_and!.
      * rewrite fmap_app, concat_app. apply Forall2_app; [done|].
        replace (concat (similar_numbers <$> [MkGroup (tu_number it_i) (src it_i)
                                                (tgt it_i) (s :: sims)]))
          with (s_tu_number <$> (s :: sims)) by (simpl; by rewrite app_nil_r).
        apply Forall2_fmap_r. exact Hrel.
      * apply NoDup_app. split_and!; [done| |].
        -- intros j Hj Hj'. specialize (Hmatched j Hj). specialize (Hfalse j Hj').
           congruence.
        -- eapply sublist_NoDup; [apply NoDup_seq|exact Hsub].
      * intros j [Hj|Hj]%elem_of_app; [by apply Hmono, Hmatched|by apply Htrue].
      * apply Forall_app. split; [done|]. constructor; [|constructor].
        unfold similar_numbers. cbn [similar_tus representative_tu].
        intros (s' & Hnum & Hs')%list_elem_of_fmap.
        apply list_elem_of_lookup in Hs' as [p Hp].
        destruct (Forall2_lookup_r _ _ _ _ _ Hrel Hp) as (j & Hj & Hjn).
        assert (i = j) as <-.
        { eapply number_at_inj; [done| |by rewrite Hjn, <- Hnum].
          unfold number_at. by rewrite Hi. }
        assert (i ∈ seq (S i) (n - S i)) as [? _]%elem_of_seq; [|lia].
        eapply elem_of_sublist; [|exact Hsub]. by eapply list_elem_of_lookup_2.
Qed.

(** *** The clustering returns *)

Lemma too_long_ok threshold len_i len_j :
  ¬ (threshold == 0)%Q → ∃ b, too_long threshold len_i len_j = Ok b.
Proof.
  intros Hnz. unfold too_long, truediv. destruct (decide (0 < len_i)); [|by eauto].
  destruct (Qeq_bool threshold 0) eqn:Hz; [|by eauto].
  by apply Qeq_bool_iff in Hz.
Qed.

Lemma scan_candidates_returns threshold unique_tus it_i js matched group_similar :
  ¬ (threshold == 0)%Q →
  length matched = length unique_tus →
  (∀ j, j ∈ js → (j < length unique_tus)%nat) →
  ∃ r, scan_candidates threshold unique_tus it_i js matched group_similar = Ok r.
Proof.
  intros Hnz. revert matched group_similar.
  induction js as [|j js IH]; intros matched group_similar Hlen Hjs; simpl;
    [by eauto|].
  assert (∀ j', j' ∈ js → (j' < length unique_tus)%nat) as Hjs'
    by (intros; apply Hjs; by right).
  assert (j < length unique_tus)%nat as Hj by (apply Hjs; by left).
  destruct (lookup_lt_is_Some_2 matched j) as [m ->]; [lia|].
  destruct (lookup_lt_is_Some_2 unique_tus j) as [it_j ->]; [lia|].
  destruct m; [by apply IH|].
  destruct (too_long_ok threshold (PyStr.len (src it_i)) (PyStr.len (src it_j)) Hnz)
    as [[|] ->]; [by eauto|].
  destruct (Qle_bool _ _); apply IH; rewrite ?length_insert; done.
Qed.

Lemma cluster_returns threshold unique_tus rng matched groups :
  ¬ (threshold == 0)%Q →
  length matched = length unique_tus →
  (∀ i, i ∈ rng → (i < length unique_tus)%nat) →
  ∃ r, cluster (scan_candidates threshold) unique_tus (length unique_tus) rng
         matched groups = Ok r.
Proof.
  intros Hnz. revert matched groups.
  induction rng as [|i rng IH]; intros matched groups Hlen Hrng; simpl; [by eauto|].
  assert (∀ i', i' ∈ rng → (i' < length unique_tus)%nat) as Hrng'
    by (intros; apply Hrng; by right).
  assert (i < length unique_tus)%nat as Hi by (apply Hrng; by left).
  destruct (lookup_lt_is_Some_2 matched i) as [m ->]; [lia|].
  destruct (lookup_lt_is_Some_2 unique_tus i) as [it_i ->]; [lia|].
  destruct m; [by apply IH|].
  destruct (scan_candidates_returns threshold unique_tus it_i
              (seq (S i) (length unique_tus - S i)) matched [] Hnz Hlen)
    as [[matched' group_similar] Hscan].
  { intros j [? ?]%elem_of_seq. lia. }
  rewrite Hscan. apply IH; [|done].
  apply scan_candidates_length in Hscan. congruence.
Qed.

(** *** The number of a member names its element *)

Lemma collect_tu_data_element ed i all_tus it :
  it ∈ collect_tu_data ed i all_tus →
  all_tus !! Z.to_nat (tu_number it - i - 1) = Some (tu_element it).
Proof.
  revert i. induction all_tus as [|tu rest IH]; intros i; simpl.
  - by intros ?%elem_of_nil.
  - assert (it ∈ collect_tu_data ed (i + 1) rest →
            (tu :: rest) !! Z.to_nat (tu_number it - i - 1) = Some (tu_element it))
      as Hrest.
    { intros Hin. pose proof (collect_tu_data_numbers _ _ _ _ Hin).
      apply IH in Hin.
      replace (Z.to_nat (tu_number it - i - 1))
        with (S (Z.to_nat (tu_number it - (i + 1) - 1))) by lia.
      done. }
    destruct (_get_tu_texts ed (elem tu)) as [[s t]|]; [|done].
    destruct (PyStr.truthy s); [|done].
    intros [->|Hin]%elem_of_cons; [|by apply Hrest].
    simpl. by replace (i + 1 - i - 1) with 0 by lia.
Qed.

Lemma unique_tus_element ed it :
  it ∈ unique_tus_of ed →
  body_findall "tu" (body ed) !! Z.to_nat (tu_number it - 1) = Some (tu_element it).
Proof.
  unfold unique_tus_of. rewrite sort_by_len_perm. intros Hin.
  eapply elem_of_sublist in Hin; [|apply unique_sources_sublist].
  apply collect_tu_data_element in Hin.
  by replace (tu_number it - 0 - 1) with (tu_number it - 1) in Hin by lia.
Qed.

Lemma scan_candidates_members threshold unique_tus it_i js matched group_similar
    matched' group_similar' :
  Forall (from_item unique_tus) group_similar →
  scan_candidates threshold unique_tus it_i js matched group_similar =
    Ok (matched', group_similar') →
  Forall (from_item unique_tus) group_similar'.
Proof.
  revert matched group_similar.
  induction js as [|j js IH]; intros matched group_similar Hall; simpl.
  - by intros [= _ <-].
  - destruct (matched !! j) as [[|]|]; [by apply IH| |done].
    destruct (unique_tus !! j) as [it_j|] eqn:Hj; [|done].
    destruct (too_long _ _ _) as [[|]|e]; [by intros [= _ <-]| |done].
    destruct (Qle_bool _ _); [|by apply IH].
    apply IH. apply Forall_app. split; [done|]. apply Forall_singleton.
    exists it_j. split; [by eapply list_elem_of_lookup_2|done].
Qed.

Lemma cluster_members threshold unique_tus n rng matched groups result :
  Forall (λ g, Forall (from_item unique_tus) (similar_tus g)) groups →
  cluster (scan_candidates threshold) unique_tus n rng matched groups = Ok result →
  Forall (λ g, Forall (from_item unique_tus) (similar_tus g)) result.
Proof.
  revert matched groups.
  induction rng as [|i rng IH]; intros matched groups Hall; simpl.
  - by intros [= <-].
  - destruct (matched !! i) as [[|]|]; [by apply IH| |done].
    destruct (unique_tus !! i) as [it_i|]; [|done].
    destruct (scan_candidates _ _ _ _ _ _) as [[matched' group_similar]|e] eqn:Hscan;
      [|done].
    apply scan_candidates_members in Hscan; [|constructor].
    apply IH. destruct group_similar as [|s sims]; [done|].
    apply Forall_app. split; [done|]. by apply Forall_singleton.
Qed.

(** C9.  With a threshold other than zero [find_fuzzy_duplicates] returns
    a list of groups.  In the groups it returns, no unit (told by its
    number, the position in the body, which names its element) is a member
    of [similar_tus] twice, within one group or across groups, and the
    representative of a group is not among the members of that group. *)
Theorem fuzzy_groups_disjoint (ed : TMXEditor) (threshold : Q) :
  (¬ (threshold == 0)%Q → ∃ groups, find_fuzzy_duplicates ed threshold = Ok groups)
  ∧ ∀ groups, find_fuzzy_duplicates ed threshold = Ok groups →
      NoDup (concat (similar_numbers <$> groups))
      ∧ Forall (λ g, representative_tu g ∉ similar_numbers g) groups
      ∧ Forall (λ g, Forall (λ s,
          body_findall "tu" (body ed) !! Z.to_nat (s_tu_number s - 1)
            = Some (s_tu_element s)) (similar_tus g)) groups.
Proof.
  unfold find_fuzzy_duplicates, fuzzy_with. split.
  { intros Hnz. apply cluster_returns; [done|apply length_replicate|].
    by intros i [_ ?]%elem_of_seq. }
  intros groups Hret.
  pose proof (unique_tus_numbers ed) as Hnd.
  pose proof (cluster_members _ _ _ _ _ _ _ (Forall_nil_2 _) Hret) as Hmembers.
  eapply cluster_spec in Hret as [matched' (used & Hnums & Hused & _ & Hown)];
    [|done|].
  - split_and!; [by eapply numbers_NoDup|done|].
    eapply Forall_impl; [exact Hmembers|]. intros g Hg.
    eapply Forall_impl; [exact Hg|]. intros s (it & Hit & -> & ->).
    by apply unique_tus_element.
  - exists []. split_and!; [constructor|constructor|by intros ? ?%elem_of_nil|constructor].
Qed.

Lemma fuzzy_groups_disjoint_witness :
  ∃ groups, find_fuzzy_duplicates colours (8 # 10) = Ok groups
    ∧ group_sources (Ok groups) = Some [("color", ["colour"])]
    ∧ NoDup (concat (similar_numbers <$> groups)).
Proof.
  destruct (fuzzy_groups_disjoint colours (8 # 10)) as [_ Hdisjoint].
  destruct (find_fuzzy_duplicates colours (8 # 10)) as [groups|e] eqn:Hret.
  - exists groups. split; [reflexivity|]. split.
    + rewrite <- Hret. by vm_compute.
    + exact (proj1 (Hdisjoint groups eq_refl)).
  - vm_compute in Hret. discriminate Hret.
Defined.

(** ** The matcher: blocks stay inside their ranges *)

Module DifflibProps.
Import Difflib DifflibSpec.

Lemma scan_row_ok alo ahi blo bhi i j2len js newj2len best :
  alo ≤ i < ahi →
  row_ok alo blo bhi i j2len →
  row_ok alo blo bhi (i + 1) newj2len →
  in_range alo ahi blo bhi best →
  row_ok alo blo bhi (i + 1) (scan_row i blo bhi j2len js newj2len best).1
  ∧ in_range alo ahi blo bhi (scan_row i blo bhi j2len js newj2len best).2.
Proof.
  intros Hi Hprev. revert newj2len best.
  induction js as [|j js IH]; intros newj2len best Hnew Hbest; simpl; [done|].
  destruct (decide (j < blo)); [by apply IH|].
  destruct (decide (bhi ≤ j)); [done|].
  assert (1 ≤ default 0 (j2len !! (j - 1)) + 1
          ∧ default 0 (j2len !! (j - 1)) + 1 ≤ i + 1 - alo
          ∧ default 0 (j2len !! (j - 1)) + 1 ≤ j - blo + 1) as Hk.
  { destruct (j2len !! (j - 1)) as [l|] eqn:Hl; simpl; [|lia].
    destruct (Hprev _ _ Hl) as (? & ? & ? & ?). lia. }
  apply IH.
  - intros j' l [[<- <-]|[_ Hl]]%lookup_insert_Some; [lia|by apply Hnew].
  - destruct (decide (best.2 < _)); [|done].
    unfold in_range. simpl. lia.
Qed.

Lemma scan_rows_ok a b2j alo ahi blo bhi n r j2len best :
  alo ≤ r → r + Z.of_nat n ≤ ahi →
  row_ok alo blo bhi r j2len →
  in_range alo ahi blo bhi best →
  in_range alo ahi blo bhi
    (scan_rows a b2j blo bhi (seqZ r (Z.of_nat n)) j2len best).
Proof.
  revert r j2len best.
  induction n as [|n IH]; intros r j2len best Hlo Hhi Hrow Hbest.
  - by rewrite seqZ_nil.
  - rewrite seqZ_cons by lia. cbn [scan_rows].
    match goal with |- context [scan_row r blo bhi j2len ?js ∅ best] =>
      pose proof (scan_row_ok alo ahi blo bhi r j2len js ∅ best) as Hstep;
      destruct (scan_row r blo bhi j2len js ∅ best) as [newj2len best']
    end.
    destruct Hstep as [Hrow' Hbest']; [lia|done| |done|].
    { intros j l Hl. by rewrite lookup_empty in Hl. }
    replace (Z.pred (Z.of_nat (S n))) with (Z.of_nat n) by lia.
    apply IH; [lia|lia| |done].
    by replace (Z.succ r) with (r + 1) by lia.
Qed.

Lemma extend_left_ok fuel junk a b alo ahi blo bhi best :
  in_range alo ahi blo bhi best →
  in_range alo ahi blo bhi (extend_left fuel junk a b alo blo best).
Proof.
  revert best. induction fuel as [|fuel IH]; intros [[besti bestj] bestsize] Hbest;
    simpl; [done|].
  destruct (bool_decide (alo < besti)) eqn:H1; [|done].
  destruct (bool_decide (blo < bestj)) eqn:H2; [|done]. simpl.
  destruct (_ && _); [|done].
  apply bool_decide_eq_true in H1, H2. apply IH.
  unfold in_range in *. simpl in *. lia.
Qed.

Lemma extend_right_ok fuel junk a b alo ahi blo bhi best :
  in_range alo ahi blo bhi best →
  in_range alo ahi blo bhi (extend_right fuel junk a b ahi bhi best).
Proof.
  revert best. induction fuel as [|fuel IH]; intros [[besti bestj] bestsize] Hbest;
    simpl; [done|].
  destruct (bool_decide (besti + bestsize < ahi)) eqn:H1; [|done].
  destruct (bool_decide (bestj + bestsize < bhi)) eqn:H2; [|done]. simpl.
  destruct (_ && _); [|done].
  apply bool_decide_eq_true in H1, H2. apply IH.
  unfold in_range in *. simpl in *. lia.
Qed.

Lemma scanned_range a b2j alo ahi blo bhi :
  alo ≤ ahi → blo ≤ bhi →
  in_range alo ahi blo bhi
    (scan_rows a b2j blo bhi (seqZ alo (ahi - alo)) ∅ (alo, blo, 0)).
Proof.
  intros Ha Hb.
  replace (ahi - alo) with (Z.of_nat (Z.to_nat (ahi - alo))) by lia.
  apply scan_rows_ok; [lia|lia| |].
  - intros j l Hl. by rewrite lookup_empty in Hl.
  - unfold in_range. simpl. lia.
Qed.

Lemma find_longest_match_within_range fuel a b b2j alo ahi blo bhi :
  alo ≤ ahi → blo ≤ bhi →
  in_range alo ahi blo bhi (find_longest_match_within fuel a b b2j alo ahi blo bhi).
Proof.
  intros Ha Hb. unfold find_longest_match_within.
  apply extend_right_ok, extend_left_ok, extend_right_ok, extend_left_ok.
  by apply scanned_range.
Qed.

Lemma find_longest_match_range a b b2j alo ahi blo bhi :
  alo ≤ ahi → blo ≤ bhi →
  in_range alo ahi blo bhi (find_longest_match a b b2j alo ahi blo bhi).
Proof.
  intros Ha Hb. by apply find_longest_match_within_range.
Qed.

(** The [while] loops have made all their rounds when the fuel is used
    up: more fuel does not change the block. *)
Lemma extend_left_fuel fuel extra junk a b alo blo best :
  best.1.1 - alo ≤ Z.of_nat fuel →
  extend_left (fuel + extra) junk a b alo blo best =
  extend_left fuel junk a b alo blo best.
Proof.
  revert best. induction fuel as [|fuel IH]; intros [[besti bestj] bestsize] Hfuel;
    simpl in *.
  - destruct extra as [|extra]; [done|]. simpl.
    by rewrite (bool_decide_eq_false_2 (alo < besti)) by lia.
  - destruct (bool_decide (alo < besti) && _ && _ && _); [|done].
    apply IH. simpl. lia.
Qed.

Lemma extend_right_fuel fuel extra junk a b ahi bhi best :
  ahi - (best.1.1 + best.2) ≤ Z.of_nat fuel →
  extend_right (fuel + extra) junk a b ahi bhi best =
  extend_right fuel junk a b ahi bhi best.
Proof.
  revert best. induction fuel as [|fuel IH]; intros [[besti bestj] bestsize] Hfuel;
    simpl in *.
  - destruct extra as [|extra]; [done|]. simpl.
    by rewrite (bool_decide_eq_false_2 (besti + bestsize < ahi)) by lia.
  - destruct (bool_decide (besti + bestsize < ahi) && _ && _ && _); [|done].
    apply IH. simpl. lia.
Qed.

(** The width of the range is fuel enough for the four [while] loops of
    [find_longest_match]. *)
Lemma find_longest_match_fuel extra a b b2j alo ahi blo bhi :
  alo ≤ ahi → blo ≤ bhi →
  find_longest_match_within (Z.to_nat (ahi - alo) + extra) a b b2j alo ahi blo bhi =
  find_longest_match a b b2j alo ahi blo bhi.
Proof.
  intros Ha Hb. unfold find_longest_match, find_longest_match_within.
  pose proof (scanned_range a b2j alo ahi blo bhi Ha Hb) as H0.
  set (b0 := scan_rows _ _ _ _ _ _ _) in *.
  set (fuel := Z.to_nat (ahi - alo)).
  rewrite (extend_left_fuel fuel extra false) by (destruct H0; lia).
  pose proof (extend_left_ok fuel false a b alo ahi blo bhi b0 H0) as H1.
  set (b1 := extend_left fuel false _ _ _ _ b0) in *.
  rewrite (extend_right_fuel fuel extra false) by (destruct H1 as (? & ? & ? & ? & ?); lia).
  pose proof (extend_right_ok fuel false a b alo ahi blo bhi b1 H1) as H2.
  set (b2 := extend_right fuel false _ _ _ _ b1) in *.
  rewrite (extend_left_fuel fuel extra true) by (destruct H2; lia).
  pose proof (extend_left_ok fuel true a b alo ahi blo bhi b2 H2) as H3.
  set (b3 := extend_left fuel true _ _ _ _ b2) in *.
  by rewrite (extend_right_fuel fuel extra true)
    by (destruct H3 as (? & ? & ? & ? & ?); lia).
Qed.

(** *** The work list *)

Lemma sum_sizes_snoc l x : sum_sizes (l ++ [x]) = sum_sizes l + x.2.
Proof. induction l as [|y l IH]; simpl; [lia|]. rewrite IH. lia. Qed.

Lemma total_nonneg w queue :
  (∀ q, q ∈ queue → 0 ≤ w q) → 0 ≤ total w queue.
Proof.
  induction queue as [|q queue IH]; intros Hq; simpl; [done|].
  assert (0 ≤ w q) by (apply Hq; by left).
  assert (0 ≤ total w queue) by (apply IH; intros; apply Hq; by right). lia.
Qed.

Lemma blocks_loop_step fuel a b b2j q queue matching_blocks :
  blocks_loop (S fuel) a b b2j (q :: queue) matching_blocks =
    if decide ((found a b b2j q).2 = 0)
    then blocks_loop fuel a b b2j queue matching_blocks
    else blocks_loop fuel a b b2j (pushed q (found a b b2j q) ++ queue)
           (matching_blocks ++ [found a b b2j q]).
Proof.
  destruct q as [[[alo ahi] blo] bhi]. unfold found. cbn [blocks_loop fst snd].
  destruct (find_longest_match _ _ _ _ _ _ _) as [[i j] k].
  cbn [snd]. destruct (decide (k = 0)); [done|].
  unfold pushed.
  by destruct (bool_decide (alo < i) && bool_decide (blo < j)),
              (bool_decide (i + k < ahi) && bool_decide (j + k < bhi)).
Qed.

Lemma found_range a b b2j q :
  range_ok q → in_range q.1.1.1 q.1.1.2 q.1.2 q.2 (found a b b2j q).
Proof. intros [Ha Hb]. by apply find_longest_match_range. Qed.

Lemma pushed_ok q x :
  range_ok q → in_range q.1.1.1 q.1.1.2 q.1.2 q.2 x →
  Forall range_ok (pushed q x)
  ∧ total width_a (pushed q x) + x.2 ≤ width_a q
  ∧ total width_b (pushed q x) + x.2 ≤ width_b q
  ∧ (x.2 ≠ 0 →
     total (λ q, 2 * width_a q + 1) (pushed q x) < 2 * width_a q + 1).
Proof.
  destruct q as [[[alo ahi] blo] bhi], x as [[i j] k].
  unfold range_ok, in_range, width_a, width_b, pushed. simpl.
  intros [Ha Hb] (H1 & H2 & H3 & H4 & H5).
  destruct (bool_decide (i + k < ahi)) eqn:E1; destruct (bool_decide (j + k < bhi)) eqn:E2;
    destruct (bool_decide (alo < i)) eqn:E3; destruct (bool_decide (blo < j)) eqn:E4;
    simpl;
    repeat match goal with
           | H : bool_decide _ = true |- _ => apply bool_decide_eq_true in H
           | H : bool_decide _ = false |- _ => apply bool_decide_eq_false in H
           end;
    (split_and!; try lia; try done;
       repeat (apply Forall_cons; split; [simpl; lia|]); apply Forall_nil_2).
Qed.

Lemma total_cons w q l : total w (q :: l) = w q + total w l.
Proof. reflexivity. Qed.

Lemma total_app w l1 l2 : total w (l1 ++ l2) = total w l1 + total w l2.
Proof. induction l1 as [|q l1 IH]; simpl; [done|]. rewrite IH. lia. Qed.

(** The sizes of the blocks found never exceed the room the ranges of the
    work list had, in [a] and in [b]. *)
Lemma blocks_loop_sum fuel a b b2j queue matching_blocks :
  Forall range_ok queue →
  sum_sizes (blocks_loop fuel a b b2j queue matching_blocks)
    ≤ sum_sizes matching_blocks + total width_a queue
  ∧ sum_sizes (blocks_loop fuel a b b2j queue matching_blocks)
    ≤ sum_sizes matching_blocks + total width_b queue.
Proof.
  revert queue matching_blocks.
  induction fuel as [|fuel IH]; intros queue matching_blocks Hq.
  - simpl.
    assert (0 ≤ total width_a queue ∧ 0 ≤ total width_b queue) as [? ?]; [|lia].
    split; apply total_nonneg; intros q Hin; rewrite Forall_forall in Hq;
      destruct (Hq q Hin); unfold width_a, width_b; lia.
  - destruct queue as [|q queue]; [simpl; lia|].
    apply Forall_cons in Hq as [Hq Hqueue].
    rewrite blocks_loop_step.
    pose proof (found_range a b b2j q Hq) as Hx.
    set (x := found a b b2j q) in *.
    destruct (pushed_ok q x Hq Hx) as (Hpushed & Hwa & Hwb & _).
    assert (0 ≤ x.2) by apply Hx.
    rewrite !total_cons.
    destruct (decide (x.2 = 0)).
    + destruct (IH queue matching_blocks Hqueue).
      assert (0 ≤ width_a q ∧ 0 ≤ width_b q) by (unfold width_a, width_b; destruct Hq; lia).
      lia.
    + destruct (IH (pushed q x ++ queue) (matching_blocks ++ [x])) as [IHa IHb].
      { by apply Forall_app. }
      rewrite sum_sizes_snoc, total_app in IHa, IHb. lia.
Qed.

(** [rounds] is fuel enough: the work list is empty before it is used up,
    so more rounds find nothing more. *)
Lemma blocks_loop_fuel fuel extra a b b2j queue matching_blocks :
  Forall range_ok queue →
  total (λ q, 2 * width_a q + 1) queue ≤ Z.of_nat fuel →
  blocks_loop (fuel + extra) a b b2j queue matching_blocks =
  blocks_loop fuel a b b2j queue matching_blocks.
Proof.
  revert queue matching_blocks.
  induction fuel as [|fuel IH]; intros queue matching_blocks Hq Hfuel.
  - destruct queue as [|q queue]; [by destruct extra|].
    apply Forall_cons in Hq as [Hq Hqueue]. exfalso.
    assert (0 ≤ total (λ q, 2 * width_a q + 1) queue).
    { apply total_nonneg. intros q' Hin. rewrite Forall_forall in Hqueue.
      destruct (Hqueue q' Hin). unfold width_a. lia. }
    rewrite total_cons in Hfuel. cbv beta in Hfuel.
    destruct Hq. unfold width_a in *. lia.
  - destruct queue as [|q queue]; [done|].
    apply Forall_cons in Hq as [Hq Hqueue].
    change (S fuel + extra)%nat with (S (fuel + extra)).
    rewrite !blocks_loop_step.
    pose proof (found_range a b b2j q Hq) as Hx.
    set (x := found a b b2j q) in *.
    destruct (pushed_ok q x Hq Hx) as (Hpushed & _ & _ & Hless).
    rewrite total_cons in Hfuel. cbv beta in Hfuel.
    assert (0 ≤ width_a q) by (unfold width_a; destruct Hq; lia).
    destruct (decide (x.2 = 0)).
    + apply IH; [done|lia].
    + apply IH; [by apply Forall_app|].
      rewrite total_app. specialize (Hless n). lia.
Qed.

(** *** Sorting and merging keep the total size *)

Lemma insert_block_sum x l : sum_sizes (insert_block x l) = x.2 + sum_sizes l.
Proof.
  induction l as [|y l IH]; simpl; [done|].
  destruct (block_ltb y x); simpl; [rewrite IH|]; lia.
Qed.

Lemma sort_blocks_sum l : sum_sizes (sort_blocks l) = sum_sizes l.
Proof.
  induction l as [|x l IH]; simpl; [done|]. by rewrite insert_block_sum, IH.
Qed.

Lemma collapse_sum l cur non_adjacent :
  sum_sizes (collapse l cur non_adjacent) =
  sum_sizes non_adjacent + cur.2 + sum_sizes l.
Proof.
  revert cur non_adjacent.
  induction l as [|[[i2 j2] k2] l IH]; intros [[i1 j1] k1] non_adjacent; simpl.
  - destruct (decide (k1 = 0)); [lia|]. rewrite sum_sizes_snoc. simpl. lia.
  - destruct (_ && _); rewrite IH; simpl; [lia|].
    destruct (decide (k1 = 0)); [lia|]. rewrite sum_sizes_snoc. simpl. lia.
Qed.

(** The matching characters are at most as many as either sequence has. *)
Lemma matches_le a b :
  sum_sizes (get_matching_blocks a b) ≤ Z.of_nat (length a)
  ∧ sum_sizes (get_matching_blocks a b) ≤ Z.of_nat (length b).
Proof.
  unfold get_matching_blocks.
  rewrite sum_sizes_snoc, collapse_sum, sort_blocks_sum. simpl.
  destruct (blocks_loop_sum (rounds a) a b (chain_b b)
              [(0, Z.of_nat (length a), 0, Z.of_nat (length b))] []) as [Ha Hb].
  { apply Forall_cons. split; [|apply Forall_nil_2]. unfold range_ok. simpl. lia. }
  rewrite !total_cons in *. unfold width_a, width_b in *. simpl in *. lia.
Qed.

(** [rounds a] rounds empty the work list of [get_matching_blocks]. *)
Lemma rounds_suffice extra a b :
  blocks_loop (rounds a + extra) a b (chain_b b)
    [(0, Z.of_nat (length a), 0, Z.of_nat (length b))] [] =
  blocks_loop (rounds a) a b (chain_b b)
    [(0, Z.of_nat (length a), 0, Z.of_nat (length b))] [].
Proof.
  apply blocks_loop_fuel.
  - apply Forall_cons. split; [|apply Forall_nil_2]. unfold range_ok. simpl. lia.
  - rewrite total_cons. unfold width_a, rounds. simpl. lia.
Qed.

End DifflibProps.

(** *** The ratio of a pair the length test cuts off *)






(** The bound is on the texts whose lengths the test has seen.  Python
    lower-cases the one character U+0130 to two characters; with the two
    characters "i'" standing for them, the test of a source of ten such
    letters against one of 21 characters sees the lengths 10 and 21 and
    cuts the pair off at threshold 0.85, while the texts compared have
    the lengths 20 and 21 and the ratio 40/41, above
    [2 * 0.85 / (1 + 0.85)]. *)
Example lengthening_lower_case_breaks_bound :
  let a := "i'i'i'i'i'i'i'i'i'i'" in
  let b := "i'i'i'i'i'i'i'i'i'i'x" in
  too_long (85 # 100) 10 (PyStr.len b) = Ok true
  ∧ Difflib.ratio a b = (40 # 41)%Q
  ∧ ¬ (Difflib.ratio a b * (1 + (85 # 100)) < 2 * (85 # 100))%Q.
Proof. split_and!; [by vm_compute|by vm_compute|]. by vm_compute. Qed.



(** On that document the length test does cut pairs off, and both scans
    report the group. *)
Example early_exit_keeps_group :
  too_long (8 # 10) (PyStr.len "colour") (PyStr.len "bananas and more") = Ok true
  ∧ group_sources (find_fuzzy_duplicates colours_long (8 # 10))
    = Some [("color", ["colour"])]
  ∧ group_sources (find_fuzzy_duplicates_no_exit colours_long (8 # 10))
    = Some [("color", ["colour"])].
Proof. split_and!; by vm_compute. Qed.

(** ** The scenarios of the specification *)

Example normalize_scenario : PyStr.normalize "  A  b " = PyStr.normalize "a b".
Proof. reflexivity. Qed.

Example dedup_scenario :
  texts_of (remove_exact_duplicates three_units).1
    = [Some ("cat", "gato"); Some ("dog", "perro")]
  ∧ removed_count <$> (match (remove_exact_duplicates three_units).2 with
                       | Ok r => Some r
                       | Raise _ => None
                       end) = Some 1.
Proof. by vm_compute. Qed.

Example merge_scenario :
  (merge_from hello_A hello_B "replace" 100).2 = Ok (MkMergeResult 0 1 1 1)
  ∧ texts_of (merge_from hello_A hello_B "replace" 100).1 = [Some ("hello", "ciao")].
Proof. by vm_compute. Qed.

Example fuzzy_scenario :
  group_sources (find_fuzzy_duplicates colours (9 # 10)) = Some []
  ∧ group_sources (find_fuzzy_duplicates colours (8 # 10))
    = Some [("color", ["colour"])].
Proof. by vm_compute. Qed.

(** * The other operations *)

Lemma Element_ind' (P : Element → Prop) :
  (∀ tg at_ tx tl cs, Forall P cs → P (Elem tg at_ tx tl cs)) → ∀ e, P e.
Proof.
  intros H. fix IH 1. intros [tg at_ tx tl cs]. apply H.
  induction cs as [|c cs IHcs]; constructor; [apply IH|exact IHcs].
Qed.

Lemma strip_walk_cleared tg at_ tx tl cs :
  tg = "seg" → cs ≠ [] →
  strip_walk (Elem tg at_ tx tl cs) =
    (Elem tg at_ (Some (PyStr.join "" (itertext (Elem tg at_ tx tl cs)))) None [],
     (1, tree_size (Elem tg at_ tx tl cs) - 1)).
Proof.
  intros -> Hcs. destruct cs as [|c cs]; [done|]. reflexivity. 
Qed.

Lemma strip_walk_kept tg at_ tx tl cs :
  tg ≠ "seg" ∨ cs = [] →
  strip_walk (Elem tg at_ tx tl cs) =
    (Elem tg at_ tx tl (strip_elem <$> cs),
     (total_of ((λ c, (strip_walk c).2.1) <$> cs),
      total_of ((λ c, (strip_walk c).2.2) <$> cs))).
Proof.
  intros Hkept.
  assert (bool_decide (tg = "seg") && has_children (Elem tg at_ tx tl cs) = false) as Hc.
  { destruct Hkept as [Hne| ->].
    - by rewrite bool_decide_eq_false_2.
    - by rewrite andb_false_r. }
  cbn [strip_walk]. rewrite Hc.
  rewrite !List.map_map. reflexivity.
Qed.

Lemma strip_cases (e : Element) :
  (tag e = "seg" ∧ children e ≠ []) ∨ (tag e ≠ "seg" ∨ children e = []).
Proof.
  destruct (decide (tag e = "seg")); [|by auto].
  destruct (children e); [by auto|]. left. done.
Qed.

Lemma strip_elem_tag e : tag (strip_elem e) = tag e.
Proof.
  destruct e as [tg at_ tx tl cs]. unfold strip_elem.
  destruct (strip_cases (Elem tg at_ tx tl cs)) as [[Ht Hc]|Hk];
    cbn [tag children] in *.
  - by rewrite strip_walk_cleared.
  - by rewrite strip_walk_kept.
Qed.

Lemma strip_elem_attrib e : attrib (strip_elem e) = attrib e.
Proof.
  destruct e as [tg at_ tx tl cs]. unfold strip_elem.
  destruct (strip_cases (Elem tg at_ tx tl cs)) as [[Ht Hc]|Hk];
    cbn [tag children] in *.
  - by rewrite strip_walk_cleared.
  - by rewrite strip_walk_kept.
Qed.

Lemma strip_elem_children e :
  tag e ≠ "seg" → children (strip_elem e) = strip_elem <$> children e.
Proof.
  destruct e as [tg at_ tx tl cs]. simpl. intros Hne. unfold strip_elem.
  rewrite strip_walk_kept by auto. done.
Qed.

Lemma strip_elem_leaf e : children e = [] → strip_elem e = e.
Proof.
  destruct e as [tg at_ tx tl cs]. simpl. intros ->. unfold strip_elem.
  rewrite strip_walk_kept by auto. done.
Qed.

Lemma filter_tag_fmap (f : Element → Element) t (l : list Element) :
  (∀ x, tag (f x) = tag x) →
  filter (λ x, tag x = t) (f <$> l) = f <$> filter (λ x, tag x = t) l.
Proof.
  intros Hf. induction l as [|x l IH]; [done|].
  rewrite fmap_cons, !filter_cons, Hf, IH. by destruct (decide (tag x = t)).
Qed.

Lemma findall_strip t e :
  tag e ≠ "seg" → findall t (strip_elem e) = strip_elem <$> findall t e.
Proof.
  intros Hne. unfold findall. rewrite strip_elem_children by done.
  apply filter_tag_fmap, strip_elem_tag.
Qed.

Lemma find_strip t e :
  tag e ≠ "seg" → find t (strip_elem e) = strip_elem <$> find t e.
Proof.
  intros Hne. unfold find. rewrite findall_strip by done.
  by destruct (findall t e).
Qed.

Lemma join_yield_text s : PyStr.join "" (yield_text (Some s)) = s.
Proof. destruct s; reflexivity. Qed.

Lemma seg_text_strip (seg : Element) :
  tag seg = "seg" →
  _get_seg_text (Some (strip_elem seg)) = _get_seg_text (Some seg).
Proof.
  intros Htag. destruct seg as [tg at_ tx tl cs]. simpl in Htag.
  destruct cs as [|c cs].
  - by rewrite strip_elem_leaf.
  - unfold strip_elem. rewrite strip_walk_cleared by done.
    unfold _get_seg_text. f_equal.
    cbn [fst itertext List.flat_map]. rewrite app_nil_r. apply join_yield_text.
Qed.

Lemma find_tag t e x : find t e = Some x → tag x = t.
Proof.
  unfold find, findall. intros Hx.
  assert (x ∈ filter (λ c, tag c = t) (children e)) as Hin.
  { destruct (filter _ _); [done|]. injection Hx as ->. left. }
  by apply list_elem_of_filter in Hin as [? _].
Qed.

Lemma seg_text_of_strip (tuv : Element) :
  tag tuv ≠ "seg" → seg_text_of (strip_elem tuv) = seg_text_of tuv.
Proof.
  intros Hne. unfold seg_text_of. rewrite find_strip by done.
  destruct (find "seg" tuv) as [seg|] eqn:Hseg; [|done].
  apply seg_text_strip. by eapply find_tag.
Qed.

Lemma tuv_lang_strip tuv : tuv_lang (strip_elem tuv) = tuv_lang tuv.
Proof. unfold tuv_lang, get. by rewrite strip_elem_attrib. Qed.

Lemma pick_tuv_strip ed s t tuv :
  pick_tuv ed (strip_elem <$> s, strip_elem <$> t) (strip_elem tuv) =
    (strip_elem <$> (pick_tuv ed (s, t) tuv).1, strip_elem <$> (pick_tuv ed (s, t) tuv).2).
Proof.
  unfold pick_tuv. rewrite tuv_lang_strip.
  destruct s, t; simpl; repeat case_bool_decide; simpl; try done.
Qed.

Lemma fold_pick_strip ed l s t :
  fold_left (pick_tuv ed) (strip_elem <$> l) (strip_elem <$> s, strip_elem <$> t) =
    (strip_elem <$> (fold_left (pick_tuv ed) l (s, t)).1,
     strip_elem <$> (fold_left (pick_tuv ed) l (s, t)).2).
Proof.
  revert s t. induction l as [|x l IH]; intros s t; [done|].
  rewrite fmap_cons. cbn [fold_left]. rewrite pick_tuv_strip.
  destruct (pick_tuv ed (s, t) x) as [s' t']. apply IH.
Qed.

Lemma fold_pick_in ed l s t :
  (∀ x, s = Some x → tag x = "tuv") → (∀ x, t = Some x → tag x = "tuv") →
  Forall (λ x, tag x = "tuv") l →
  (∀ x, (fold_left (pick_tuv ed) l (s, t)).1 = Some x → tag x = "tuv")
  ∧ (∀ x, (fold_left (pick_tuv ed) l (s, t)).2 = Some x → tag x = "tuv").
Proof.
  intros Hs Ht Hl. revert s t Hs Ht.
  induction Hl as [|y l Hy Hl IH]; intros s t Hs Ht; [done|].
  cbn [fold_left]. 
  destruct (pick_tuv ed (s, t) y) as [s' t'] eqn:Hp. apply IH.
  - unfold pick_tuv in Hp. intros x ->.
    repeat (case_match; simplify_eq); eauto.
  - unfold pick_tuv in Hp. intros x ->.
    repeat (case_match; simplify_eq); eauto.
Qed.

Lemma get_tu_texts_seg_text ed tu :
  _get_tu_texts ed tu =
    match findall "tuv" tu with
    | t0 :: t1 :: rest =>
        let r := fold_left (pick_tuv ed) (t0 :: t1 :: rest) (None, None) in
        Some (seg_text_of (default t0 r.1), seg_text_of (default t1 r.2))
    | _ => None
    end.
Proof.
  unfold _get_tu_texts. destruct (findall "tuv" tu) as [|t0 [|t1 rest]]; [done..|].
  cbv zeta. by destruct (fold_left _ _ _).
Qed.

Lemma get_tu_texts_strip ed tu :
  tag tu ≠ "seg" → _get_tu_texts ed (strip_elem tu) = _get_tu_texts ed tu.
Proof.
  intros Hne. rewrite !get_tu_texts_seg_text. rewrite findall_strip by done.
  assert (Forall (λ x, tag x = "tuv") (findall "tuv" tu)) as Htags.
  { apply Forall_forall. intros x Hx. by apply list_elem_of_filter in Hx as [? _]. }
  destruct (findall "tuv" tu) as [|t0 [|t1 rest]]; [done..|].
  rewrite !fmap_cons. cbv zeta.
  change (strip_elem t0 :: strip_elem t1 :: (strip_elem <$> rest))
    with (strip_elem <$> (t0 :: t1 :: rest)).
  pose proof (fold_pick_strip ed (t0 :: t1 :: rest) None None) as Hfold.
  simpl (strip_elem <$> None) in Hfold. rewrite Hfold. clear Hfold.
  destruct (fold_pick_in ed (t0 :: t1 :: rest) None None) as [Hs Ht]; [done..|].
  destruct (fold_left (pick_tuv ed) (t0 :: t1 :: rest) (None, None)) as [s t].
  simpl in Hs, Ht. cbn [fst snd].
  assert (tag t0 = "tuv" ∧ tag t1 = "tuv") as [H0 H1].
  { apply Forall_cons in Htags as [? Htags]. by apply Forall_cons in Htags as [? _]. }
  f_equal. f_equal.
  - destruct s as [x|]; simpl.
    + apply seg_text_of_strip. rewrite (Hs x eq_refl). done.
    + apply seg_text_of_strip. by rewrite H0.
  - destruct t as [x|]; simpl.
    + apply seg_text_of_strip. rewrite (Ht x eq_refl). done.
    + apply seg_text_of_strip. by rewrite H1.
Qed.

(** ** Strip *)

Lemma strip_inline_tags_fst root : (strip_inline_tags root).1 = strip_elem root.
Proof.
  unfold strip_inline_tags, strip_elem.
  by destruct (strip_walk root) as [root' [m r]].
Qed.

Lemma strip_inline_tags_snd root :
  (strip_inline_tags root).2 =
    MkStripResult (strip_walk root).2.1 (strip_walk root).2.2.
Proof.
  unfold strip_inline_tags. by destruct (strip_walk root) as [root' [m r]].
Qed.

(** X6.  Stripping the inline tags changes no text a unit is read with.
    For a tree whose root is not a [seg] and has a [<body>] child, the
    stripped tree still has its body, with as many children, and
    [_get_tu_texts] returns for its units, in order, what it returned
    before. *)
Theorem strip_inline_tags_keeps_texts (ed : TMXEditor) (root body : Element) :
  tag root ≠ "seg" → find "body" root = Some body →
  ∃ body', _get_body (strip_inline_tags root).1 = Some body'
    ∧ length (children body') = length (children body)
    ∧ _get_tu_texts ed <$> findall "tu" body' = _get_tu_texts ed <$> findall "tu" body.
Proof.
  intros Hroot Hbody. rewrite strip_inline_tags_fst.
  pose proof (find_tag _ _ _ Hbody) as Htag.
  assert (tag body ≠ "seg") as Hne by (rewrite Htag; done).
  exists (strip_elem body). split_and!.
  - unfold _get_body. by rewrite find_strip, Hbody.
  - by rewrite strip_elem_children, length_fmap.
  - rewrite findall_strip by done. rewrite <- list_fmap_compose.
    apply list_fmap_ext. intros i tu Htu. simpl.
    apply get_tu_texts_strip.
    apply list_elem_of_lookup_2 in Htu. apply list_elem_of_filter in Htu as [-> _]. done.
Qed.

Lemma strip_inline_tags_keeps_texts_witness :
  ∃ body', _get_body (strip_inline_tags tagged_tmx).1 = Some body'
    ∧ _get_tu_texts (en_es []) <$> findall "tu" body'
      = [Some ("Press <b></b>Enter", "Pulse Intro"); Some ("cat", "gato")].
Proof.
  destruct (strip_inline_tags_keeps_texts (en_es []) tagged_tmx
              (Elem "body" ∅ None None [tagged_tu; mk_tu "cat" "gato"]))
    as (body' & Hbody & _ & Htexts).
  - by vm_compute.
  - by vm_compute.
  - exists body'. split; [exact Hbody|]. rewrite Htexts. by vm_compute.
Defined.

Lemma iter_unfold tg at_ tx tl cs :
  iter (Elem tg at_ tx tl cs) = Elem tg at_ tx tl cs :: (cs ≫= iter).
Proof.
  cbn [iter]. by f_equal.
Qed.

Lemma iter_tag_unfold t tg at_ tx tl cs :
  iter_tag t (Elem tg at_ tx tl cs) =
    (if decide (tg = t) then [Elem tg at_ tx tl cs] else []) ++ (cs ≫= iter_tag t).
Proof.
  unfold iter_tag. rewrite iter_unfold, filter_cons. cbn [tag].
  assert (filter (λ x, tag x = t) (cs ≫= iter) = cs ≫= (λ c, filter (λ x, tag x = t) (iter c)))
    as ->.
  { induction cs as [|c cs IH]; [done|].
    rewrite !bind_cons, filter_app, IH. done. }
  by destruct (decide (tg = t)).
Qed.

Lemma Forall_bind {A B} (P : B → Prop) (f : A → list B) (l : list A) :
  Forall (λ x, Forall P (f x)) l → Forall P (l ≫= f).
Proof.
  induction 1 as [|x l Hx _ IH]; [constructor|].
  rewrite bind_cons. by apply Forall_app.
Qed.

Lemma strip_elem_no_tags e :
  Forall (λ seg, children seg = []) (iter_tag "seg" (strip_elem e)).
Proof.
  induction e as [tg at_ tx tl cs IH] using Element_ind'.
  unfold strip_elem.
  destruct (strip_cases (Elem tg at_ tx tl cs)) as [[Ht Hc]|Hk]; cbn [tag children] in *.
  - rewrite strip_walk_cleared by done. cbn [fst]. rewrite iter_tag_unfold.
    rewrite decide_True by done. simpl. by constructor.
  - rewrite strip_walk_kept by done. cbn [fst]. rewrite iter_tag_unfold.
    apply Forall_app. split.
    + destruct (decide (tg = "seg")) as [Heq|]; [|constructor].
      destruct Hk as [?| ->]; [done|]. by constructor.
    + apply Forall_bind. apply Forall_fmap. exact IH.
Qed.

Lemma total_of_cons (x : Z) (l : list Z) : total_of (x :: l) = x + total_of l.
Proof. reflexivity. Qed.

Lemma total_of_zero (l : list Z) : Forall (λ x, x = 0) l → total_of l = 0.
Proof. induction 1 as [|x l -> _ IH]; [done|]. by rewrite total_of_cons, IH. Qed.

Lemma strip_walk_again e : strip_walk (strip_elem e) = (strip_elem e, (0, 0)).
Proof.
  induction e as [tg at_ tx tl cs IH] using Element_ind'.
  unfold strip_elem at 1 2.
  destruct (strip_cases (Elem tg at_ tx tl cs)) as [[Ht Hc]|Hk]; cbn [tag children] in *.
  - rewrite strip_walk_cleared by done. cbn [fst].
    by rewrite strip_walk_kept by auto.
  - rewrite strip_walk_kept by done. cbn [fst].
    rewrite strip_walk_kept by (destruct Hk as [?| ->]; auto).
    assert (strip_elem <$> (strip_elem <$> cs) = strip_elem <$> cs) as ->.
    { rewrite <- list_fmap_compose. apply Forall_fmap_ext_1.
      eapply Forall_impl; [exact IH|]. intros c Hc. simpl. unfold strip_elem at 1.
      by rewrite Hc. }
    rewrite !total_of_zero; [done|..];
      apply Forall_fmap, Forall_fmap; (eapply Forall_impl; [exact IH|]);
      intros c Hc; simpl; by rewrite Hc.
Qed.

(** X7.  After [strip_inline_tags] no [seg] of the tree has a child, and a
    second call changes nothing and reports
    [segments_modified = tags_removed = 0]. *)
Theorem strip_inline_tags_idempotent (root : Element) :
  let root' := (strip_inline_tags root).1 in
  Forall (λ seg, children seg = []) (iter_tag "seg" root')
  ∧ strip_inline_tags root' = (root', MkStripResult 0 0).
Proof.
  intros root'. unfold root'. rewrite strip_inline_tags_fst. split.
  - apply strip_elem_no_tags.
  - unfold strip_inline_tags at 1. by rewrite strip_walk_again.
Qed.

Lemma total_of_nonneg (l : list Z) : Forall (λ x, 0 ≤ x) l → 0 ≤ total_of l.
Proof. induction 1 as [|x l Hx _ IH]; rewrite ?total_of_cons; [done|lia]. Qed.

Lemma total_of_zero_inv (l : list Z) :
  Forall (λ x, 0 ≤ x) l → total_of l = 0 → Forall (λ x, x = 0) l.
Proof.
  induction 1 as [|x l Hx Hl IH]; [constructor|]. rewrite total_of_cons.
  pose proof (total_of_nonneg l Hl). intros Hsum.
  constructor; [lia|]. apply IH. lia.
Qed.

Lemma total_of_le (f g : Element → Z) (cs : list Element) :
  Forall (λ c, f c ≤ g c) cs → total_of (f <$> cs) ≤ total_of (g <$> cs).
Proof.
  induction 1 as [|x l Hx _ IH]; rewrite ?fmap_cons, ?total_of_cons; [done|lia].
Qed.

Lemma length_bind_total {A} (f : A → list Element) (cs : list A) :
  Z.of_nat (length (cs ≫= f)) = total_of ((λ c, Z.of_nat (length (f c))) <$> cs).
Proof.
  induction cs as [|c cs IH]; [done|].
  rewrite bind_cons, length_app, fmap_cons, total_of_cons. lia.
Qed.

Lemma tree_size_unfold tg at_ tx tl cs :
  tree_size (Elem tg at_ tx tl cs) = 1 + total_of (tree_size <$> cs).
Proof.
  unfold tree_size at 1. rewrite iter_unfold. cbn [length].
  rewrite Nat2Z.inj_succ, length_bind_total. unfold tree_size. lia.
Qed.

Lemma tree_size_pos e : 1 ≤ tree_size e.
Proof. destruct e. unfold tree_size. rewrite iter_unfold. simpl. lia. Qed.

Lemma total_of_sub (f g h : Element → Z) (cs : list Element) :
  Forall (λ c, f c = g c - h c) cs →
  total_of (f <$> cs) = total_of (g <$> cs) - total_of (h <$> cs).
Proof.
  induction 1 as [|x l Hx _ IH]; rewrite ?fmap_cons, ?total_of_cons; [done|lia].
Qed.

Lemma strip_walk_counts e :
  0 ≤ (strip_walk e).2.1 ≤ (strip_walk e).2.2
  ∧ tree_size (strip_elem e) = tree_size e - (strip_walk e).2.2
  ∧ ((strip_walk e).2.1 = 0 → strip_elem e = e).
Proof.
  induction e as [tg at_ tx tl cs IH] using Element_ind'.
  unfold strip_elem.
  destruct (strip_cases (Elem tg at_ tx tl cs)) as [[Ht Hc]|Hk]; cbn [tag children] in *.
  - rewrite strip_walk_cleared by done. cbn [fst snd].
    rewrite !tree_size_unfold. rewrite fmap_nil.
    destruct cs as [|c cs]; [done|]. rewrite fmap_cons, total_of_cons.
    pose proof (tree_size_pos c).
    assert (0 ≤ total_of (tree_size <$> cs)).
    { apply total_of_nonneg, Forall_fmap, Forall_forall. intros x _.
      pose proof (tree_size_pos x). unfold compose. lia. }
    change (total_of []) with 0.
    split_and!; [lia|lia|lia|intros ?; lia].
  - rewrite strip_walk_kept by done. cbn [fst snd]. split_and!.
    + apply total_of_nonneg, Forall_fmap.
      eapply Forall_impl; [exact IH|]. intros c (Hc & _). unfold compose. lia.
    + apply total_of_le. eapply Forall_impl; [exact IH|]. intros c (Hc & _). lia.
    + rewrite !tree_size_unfold.
      rewrite <- list_fmap_compose.
      rewrite (total_of_sub (tree_size ∘ strip_elem) tree_size (λ c, (strip_walk c).2.2)).
      * lia.
      * eapply Forall_impl; [exact IH|]. intros c (_ & Hc & _). exact Hc.
    + intros Hzero. f_equal.
      assert (Forall (λ c, (strip_walk c).2.1 = 0) cs) as Hall.
      { apply (Forall_fmap (λ c, (strip_walk c).2.1) (λ x, x = 0)).
        apply total_of_zero_inv; [|done]. apply Forall_fmap.
        eapply Forall_impl; [exact IH|]. intros x (Hx & _). unfold compose. lia. }
      rewrite <- (list_fmap_id cs) at 2. apply Forall_fmap_ext_1.
      apply Forall_forall. intros c Hc.
      rewrite Forall_forall in IH. rewrite Forall_forall in Hall.
      apply (IH c Hc). by apply Hall.
Qed.

(** X8.  The counters of [strip_inline_tags]: every modified segment lost
    at least one tag ([0 <= segments_modified <= tags_removed]); the tree
    has exactly [tags_removed] elements fewer than before; and when
    [segments_modified] is 0 the tree is the one it was. *)
Theorem strip_inline_tags_counts (root : Element) :
  let r := (strip_inline_tags root).2 in
  0 ≤ segments_modified r ≤ tags_removed r
  ∧ tree_size (strip_inline_tags root).1 = tree_size root - tags_removed r
  ∧ (segments_modified r = 0 → (strip_inline_tags root).1 = root).
Proof.
  intros r. unfold r. rewrite strip_inline_tags_fst, strip_inline_tags_snd.
  apply strip_walk_counts.
Qed.

Lemma or_empty_id s : or_empty s = s.
Proof. by destruct s. Qed.

Lemma count_dup_fold ed l seen n :
  (fold_left (count_dup_step ed) l (seen, n)).2 = n + Z.of_nat (length (dups ed seen l)).
Proof.
  revert seen n. induction l as [|tu l IH]; intros seen n; cbn [fold_left dups].
  - simpl. lia.
  - unfold count_dup_step at 2. unfold unit_key.
    destruct (_get_tu_texts ed (elem tu)) as [[s t]|]; [|by apply IH].
    rewrite or_empty_id. destruct (decide (pair_key s t ∈ seen)).
    + rewrite IH. cbn [length]. lia.
    + by rewrite IH.
Qed.

Lemma stat_fold_empty ed l e t :
  (fold_left (stat_step ed) l (e, t)).1 = e + Z.of_nat (length (empties ed l)).
Proof.
  revert e t. induction l as [|tu l IH]; intros e t; cbn [fold_left].
  - simpl. lia.
  - unfold stat_step at 2. rewrite IH. unfold empties.
    destruct (lacks_text (_get_tu_texts ed (elem tu))) eqn:Hl.
    + rewrite filter_cons_True by done. cbn [length]. lia.
    + rewrite filter_cons_False by (rewrite Hl; done). lia.
Qed.

Lemma count_tagged_none n tu :
  Forall (λ seg, children seg = []) (iter_tag "seg" tu) → count_tagged n tu = n.
Proof.
  unfold count_tagged. generalize (iter_tag "seg" tu). intros l.
  induction 1 as [|seg l Hseg _ IH]; [done|]. cbn [fold_left].
  unfold has_children at 2. by rewrite Hseg.
Qed.

Lemma stat_fold_tagged ed l e t :
  Forall (λ tu, Forall (λ seg, children seg = []) (iter_tag "seg" (elem tu))) l →
  (fold_left (stat_step ed) l (e, t)).2 = t.
Proof.
  intros Hl. revert e t. induction Hl as [|tu l Htu _ IH]; intros e t; [done|].
  cbn [fold_left]. unfold stat_step at 2. rewrite IH. by apply count_tagged_none.
Qed.

Lemma get_statistics_counts ed :
  let all_tus := body_findall "tu" (body ed) in
  total_tus (get_statistics ed) = Z.of_nat (length all_tus)
  ∧ exact_duplicates (get_statistics ed) = Z.of_nat (length (dups ed ∅ all_tus))
  ∧ empty_segments (get_statistics ed) = Z.of_nat (length (empties ed all_tus)).
Proof.
  intros all_tus. unfold get_statistics. fold all_tus.
  pose proof (count_dup_fold ed all_tus ∅ 0) as Hdup.
  pose proof (stat_fold_empty ed all_tus 0 0) as Hemp.
  destruct (fold_left (stat_step ed) _ _) as [e t].
  destruct (fold_left (count_dup_step ed) _ _) as [seen d].
  simpl in *. split_and!; [done|lia|lia].
Qed.

(** *** Empty segments *)

Lemma get_tu_texts_short ed tu :
  (length (findall "tuv" tu) < 2)%nat → _get_tu_texts ed tu = None.
Proof.
  unfold _get_tu_texts. destruct (findall "tuv" tu) as [|t0 [|t1 rest]]; simpl; [done..|lia].
Qed.

Lemma sum_counts_insert k v (m : gmap string Z) :
  m !! k = None → sum_counts (<[k := v]> m) = v + sum_counts m.
Proof.
  intros Hk. unfold sum_counts. rewrite map_fold_insert_L; [done| |done].
  intros. lia.
Qed.

Lemma sum_counts_bump k (m : gmap string Z) : sum_counts (bump k m) = sum_counts m + 1.
Proof.
  unfold bump. destruct (m !! k) as [v|] eqn:Hk; simpl.
  - rewrite <- (insert_delete_id m k v Hk) at 2.
    rewrite <- insert_delete_eq.
    rewrite !sum_counts_insert by apply lookup_delete_eq. lia.
  - rewrite sum_counts_insert by done. lia.
Qed.

Lemma empty_step_lacks ed to_rm counts tu :
  if lacks_text (_get_tu_texts ed (elem tu))
  then ∃ k, empty_step ed (to_rm, counts) tu = (to_rm ++ [tu], bump k counts)
  else empty_step ed (to_rm, counts) tu = (to_rm, counts).
Proof.
  unfold empty_step.
  destruct (decide (length (findall "tuv" (elem tu)) < 2)%nat) as [Hlt|Hge].
  - rewrite get_tu_texts_short by done. simpl. by eauto.
  - destruct (_get_tu_texts ed (elem tu)) as [[s t]|]; simpl; [|by eauto].
    destruct (PyStr.truthy s), (PyStr.truthy t); simpl; by eauto.
Qed.

Lemma empty_fold_eq ed l to_rm counts :
  (fold_left (empty_step ed) l (to_rm, counts)).1 = to_rm ++ empties ed l
  ∧ sum_counts (fold_left (empty_step ed) l (to_rm, counts)).2
    = sum_counts counts + Z.of_nat (length (empties ed l)).
Proof.
  revert to_rm counts. induction l as [|tu l IH]; intros to_rm counts; cbn [fold_left].
  - simpl. rewrite app_nil_r. split; [done|lia].
  - pose proof (empty_step_lacks ed to_rm counts tu) as Hstep.
    unfold empties.
    destruct (lacks_text (_get_tu_texts ed (elem tu))) eqn:Hl.
    + destruct Hstep as [k ->]. destruct (IH (to_rm ++ [tu]) (bump k counts)) as [-> ->].
      rewrite filter_cons_True by done. rewrite <- app_assoc, sum_counts_bump.
      cbn [length]. split; [done|]. unfold empties. lia.
    + rewrite Hstep. destruct (IH to_rm counts) as [-> ->].
      by rewrite filter_cons_False by (rewrite Hl; done).
Qed.

Lemma empties_sublist ed l : empties ed l `sublist_of` l.
Proof. apply sublist_filter. Qed.

Lemma in_tus_oid (b : list Node) (marked : list Node) (n : Node) :
  NoDup (oids b) → marked `sublist_of` b → n ∈ b →
  (oid n ∈ oids marked ↔ n ∈ marked).
Proof.
  intros Hnd Hsub Hn. split.
  - intros (m & Hm & Hin)%list_elem_of_fmap.
    assert (m ∈ b) by by eapply elem_of_sublist.
    by rewrite (same_object b n m).
  - apply list_elem_of_fmap_2.
Qed.

(** The outcome of [remove_empty_segments] on a body of distinct objects. *)
Lemma remove_empty_segments_eq (ed : TMXEditor) :
  NoDup (oids (body ed)) →
  let all_tus := body_findall "tu" (body ed) in
  ∃ counts,
    sum_counts counts = Z.of_nat (length (empties ed all_tus))
    ∧ remove_empty_segments ed =
        (set_body ed (filter (λ n, ¬ (tag (elem n) = "tu"
                                      ∧ lacks_text (_get_tu_texts ed (elem n)) = true))
                        (body ed)),
         Ok (MkEmptyResult (Z.of_nat (length (empties ed all_tus)))
               (Z.of_nat (length all_tus) - Z.of_nat (length (empties ed all_tus)))
               (Z.of_nat (length all_tus)) counts)).
Proof.
  intros Hnd all_tus. unfold remove_empty_segments. fold all_tus.
  destruct (empty_fold_eq ed all_tus [] ∅) as [Hrm Hsum].
  destruct (fold_left (empty_step ed) all_tus ([], ∅)) as [to_rm counts].
  simpl in Hrm, Hsum. subst to_rm. exists counts. split.
  { rewrite Hsum. unfold sum_counts. rewrite map_fold_empty. lia. }
  assert (empties ed all_tus `sublist_of` body ed) as Hsub.
  { etrans; [apply empties_sublist|apply (body_findall_sublist "tu")]. }
  rewrite remove_each_filter; [|done|..].
  - f_equal. f_equal. apply filter_ext_in. apply Forall_forall. intros n Hn.
    rewrite (in_tus_oid (body ed)) by done.
    unfold empties, all_tus, body_findall. rewrite !list_elem_of_filter. tauto.
  - eapply sublist_NoDup; [exact Hnd|]. by apply fmap_sublist.
  - intros x Hx. apply list_elem_of_fmap_2. by eapply elem_of_sublist.
Qed.

Lemma lacks_set_body ed b e :
  _get_tu_texts (set_body ed b) e = _get_tu_texts ed e.
Proof. by apply get_tu_texts_langs. Qed.

Lemma empties_ext ed1 ed2 l :
  source_lang ed1 = source_lang ed2 → target_lang ed1 = target_lang ed2 →
  empties ed1 l = empties ed2 l.
Proof.
  intros Hs Ht. unfold empties. apply filter_ext_in, Forall_forall. intros n _.
  by rewrite (get_tu_texts_langs ed1 ed2).
Qed.

Lemma dups_ext ed1 ed2 seen l :
  source_lang ed1 = source_lang ed2 → target_lang ed1 = target_lang ed2 →
  dups ed1 seen l = dups ed2 seen l.
Proof.
  intros Hs Ht. revert seen. induction l as [|tu l IH]; intros seen; [done|].
  simpl. unfold unit_key. rewrite (get_tu_texts_langs ed1 ed2) by done.
  destruct (_get_tu_texts ed2 (elem tu)) as [[s t]|]; [|by apply IH].
  destruct (decide _); by rewrite IH.
Qed.

Lemma empties_filter_nil ed (P : Node → Prop) `{!∀ n, Decision (P n)} l :
  (∀ n, P n → lacks_text (_get_tu_texts ed (elem n)) ≠ true) →
  empties ed (filter P l) = [].
Proof.
  intros HP. unfold empties. apply filter_none, Forall_forall.
  intros n [Hn _]%list_elem_of_filter. by apply HP.
Qed.

Lemma filter_length_split {A} (P : A → Prop) `{!∀ x, Decision (P x)} (l : list A) :
  (length (filter P l) + length (filter (λ x, ¬ P x) l) = length l)%nat.
Proof.
  induction l as [|x l IH]; [done|]. rewrite !filter_cons.
  destruct (decide (P x)).
  - rewrite decide_False by tauto. simpl. lia.
  - rewrite decide_True by done. simpl. lia.
Qed.

(** X1.  [remove_empty_segments] on a body of distinct objects returns;
    [removed_count + remaining_count = total_before], [remaining_count] is
    the number of units left, the counters of [by_type] add up to
    [removed_count], and the body left is the old one, in the old order,
    without the units in which a text is missing or empty. *)
Theorem remove_empty_segments_spec (ed : TMXEditor) :
  NoDup (oids (body ed)) →
  let all_tus := body_findall "tu" (body ed) in
  let ed' := (remove_empty_segments ed).1 in
  ∃ r, (remove_empty_segments ed).2 = Ok r
    ∧ e_removed_count r + remaining_count r = e_total_before r
    ∧ e_total_before r = Z.of_nat (length all_tus)
    ∧ remaining_count r = Z.of_nat (length (body_findall "tu" (body ed')))
    ∧ sum_counts (by_type r) = e_removed_count r
    ∧ body ed' = filter (λ n, ¬ (tag (elem n) = "tu"
                                 ∧ lacks_text (_get_tu_texts ed (elem n)) = true))
                   (body ed).
Proof.
  intros Hnd all_tus ed'.
  destruct (remove_empty_segments_eq ed Hnd) as (counts & Hsum & Heq).
  fold all_tus in Hsum, Heq. unfold ed'. rewrite Heq. cbn [fst snd body set_body].
  eexists. split; [done|]. cbn. split_and!; [lia|done| |done|done].
  rewrite body_findall_filter. fold all_tus.
  assert (filter (λ n, ¬ (tag (elem n) = "tu"
                          ∧ lacks_text (_get_tu_texts ed (elem n)) = true)) all_tus
          = filter (λ n, lacks_text (_get_tu_texts ed (elem n)) ≠ true) all_tus) as ->.
  { apply filter_ext_in, Forall_forall. intros n Hn.
    apply list_elem_of_filter in Hn as [Hn _]. tauto. }
  pose proof (filter_length_split (λ n, lacks_text (_get_tu_texts ed (elem n)) = true) all_tus)
    as Hlen.
  unfold empties. lia.
Qed.

Lemma remove_empty_segments_spec_witness :
  ∃ r, (remove_empty_segments defective_units).2 = Ok r
    ∧ e_removed_count r = 4 ∧ remaining_count r = 1
    ∧ sum_counts (by_type r) = 4.
Proof.
  destruct (remove_empty_segments_spec defective_units defective_units_NoDup)
    as (r & Hr & Hsum & Htotal & _ & Hcounts & _).
  exists r. split; [exact Hr|].
  assert (e_removed_count r = 4) as Hfour.
  { revert Hr. vm_compute. intros [= <-]. reflexivity. }
  split; [exact Hfour|]. split; [|by rewrite Hcounts].
  rewrite Htotal in Hsum. rewrite Hfour in Hsum. revert Hsum. vm_compute (Z.of_nat _).
  lia.
Defined.

Lemma empty_fold_none ed l st :
  empties ed l = [] → fold_left (empty_step ed) l st = st.
Proof.
  revert st. induction l as [|tu l IH]; intros [to_rm counts]; [done|].
  unfold empties. cbn [fold_left].
  pose proof (empty_step_lacks ed to_rm counts tu) as Hstep.
  destruct (lacks_text (_get_tu_texts ed (elem tu))) eqn:Hl.
  - by rewrite filter_cons_True by done.
  - rewrite filter_cons_False by (rewrite Hl; done). rewrite Hstep. apply IH.
Qed.

Lemma remove_empty_segments_none ed :
  empties ed (body_findall "tu" (body ed)) = [] →
  remove_empty_segments ed =
    (ed, Ok (MkEmptyResult 0 (Z.of_nat (length (body_findall "tu" (body ed))))
               (Z.of_nat (length (body_findall "tu" (body ed)))) ∅)).
Proof.
  intros Hnone. unfold remove_empty_segments. rewrite empty_fold_none by done.
  simpl. destruct ed. simpl. f_equal. f_equal. f_equal. lia.
Qed.

Lemma remove_exact_duplicates_none ed :
  dups ed ∅ (body_findall "tu" (body ed)) = [] →
  ∃ ex, remove_exact_duplicates ed =
    (ed, Ok (MkDedupResult 0 (Z.of_nat (length (body_findall "tu" (body ed))))
               (Z.of_nat (length (body_findall "tu" (body ed)))) ex)).
Proof.
  intros Hnone.
  exists (duplicate_examples (dedup_scan ed (body_findall "tu" (body ed)))).
  unfold remove_exact_duplicates. unfold dedup_scan at 1 2 3.
  rewrite dedup_scan_to_remove. simpl. rewrite Hnone. simpl.
  destruct ed. simpl. f_equal. f_equal. f_equal. lia.
Qed.

Lemma tus_after_empty ed :
  NoDup (oids (body ed)) →
  body_findall "tu" (body (remove_empty_segments ed).1) =
    filter (λ n, lacks_text (_get_tu_texts ed (elem n)) ≠ true)
      (body_findall "tu" (body ed)).
Proof.
  intros Hnd. destruct (remove_empty_segments_eq ed Hnd) as (counts & _ & ->).
  cbn [fst body set_body]. rewrite body_findall_filter.
  apply filter_ext_in, Forall_forall. intros n Hn.
  apply list_elem_of_filter in Hn as [Hn _]. tauto.
Qed.

Lemma langs_after_empty ed :
  source_lang (remove_empty_segments ed).1 = source_lang ed
  ∧ target_lang (remove_empty_segments ed).1 = target_lang ed.
Proof.
  unfold remove_empty_segments. destruct (fold_left _ _ _) as [to_rm counts].
  by destruct (remove_each _ _) as [b [e|]].
Qed.

Lemma langs_after_dedup ed :
  source_lang (remove_exact_duplicates ed).1 = source_lang ed
  ∧ target_lang (remove_exact_duplicates ed).1 = target_lang ed.
Proof.
  unfold remove_exact_duplicates. by destruct (remove_each _ _) as [b [e|]].
Qed.

Lemma empties_after_empty ed :
  NoDup (oids (body ed)) →
  let ed1 := (remove_empty_segments ed).1 in
  empties ed1 (body_findall "tu" (body ed1)) = [].
Proof.
  intros Hnd ed1. unfold ed1. rewrite tus_after_empty by done.
  destruct (langs_after_empty ed) as [Hs Ht].
  rewrite (empties_ext _ ed) by done. by apply empties_filter_nil.
Qed.

(** X2.  On a body of distinct objects, a second [remove_empty_segments]
    right after a first one removes nothing: the editor stays as the first
    run left it, [removed_count] is 0, [remaining_count] is [total_before]
    and [by_type] is empty. *)
Theorem remove_empty_segments_idempotent (ed : TMXEditor) :
  NoDup (oids (body ed)) →
  let ed1 := (remove_empty_segments ed).1 in
  (remove_empty_segments ed1).1 = ed1
  ∧ ∃ r, (remove_empty_segments ed1).2 = Ok r
       ∧ e_removed_count r = 0
       ∧ remaining_count r = e_total_before r
       ∧ by_type r = ∅.
Proof.
  intros Hnd ed1.
  rewrite (remove_empty_segments_none ed1) by by apply empties_after_empty.
  split; [done|]. eexists. split; [done|]. done.
Qed.

Lemma remove_empty_segments_idempotent_witness :
  (remove_empty_segments (remove_empty_segments defective_units).1).1
  = (remove_empty_segments defective_units).1.
Proof.
  exact (proj1 (remove_empty_segments_idempotent defective_units defective_units_NoDup)).
Defined.

(** X3.  [get_statistics] announces what the two removals do: on a body of
    distinct objects [exact_duplicates] is the [removed_count] that
    [remove_exact_duplicates] returns, [empty_segments] the one that
    [remove_empty_segments] returns, and [total_tus] their
    [total_before]. *)
Theorem statistics_predict_removals (ed : TMXEditor) :
  NoDup (oids (body ed)) →
  ∃ d e, (remove_exact_duplicates ed).2 = Ok d
    ∧ (remove_empty_segments ed).2 = Ok e
    ∧ exact_duplicates (get_statistics ed) = removed_count d
    ∧ empty_segments (get_statistics ed) = e_removed_count e
    ∧ total_tus (get_statistics ed) = total_before d
    ∧ total_tus (get_statistics ed) = e_total_before e.
Proof.
  intros Hnd.
  destruct (get_statistics_counts ed) as (Htotal & Hdup & Hemp).
  destruct (remove_empty_segments_eq ed Hnd) as (counts & _ & Hempty).
  rewrite (remove_exact_duplicates_eq ed Hnd), Hempty. cbn [snd].
  eexists _, _. split; [done|]. split; [done|]. cbn. done.
Qed.

Lemma statistics_predict_removals_witness :
  ∃ d, (remove_exact_duplicates three_units).2 = Ok d
    ∧ exact_duplicates (get_statistics three_units) = removed_count d
    ∧ removed_count d = 1.
Proof.
  destruct (statistics_predict_removals three_units three_units_NoDup)
    as (d & e & Hd & _ & Hdup & _).
  exists d. split; [exact Hd|]. split; [exact Hdup|].
  rewrite <- Hdup. by vm_compute.
Defined.

Lemma omap_sublist_mono {A B} (f : A → option B) (l1 l2 : list A) :
  l1 `sublist_of` l2 → omap f l1 `sublist_of` omap f l2.
Proof.
  induction 1 as [|x l1 l2 _ IH|x l1 l2 _ IH]; simpl; [done|..].
  - destruct (f x); [by apply sublist_skip|done].
  - destruct (f x); [by apply sublist_cons|done].
Qed.

Lemma unit_key_langs ed1 ed2 u :
  source_lang ed1 = source_lang ed2 → target_lang ed1 = target_lang ed2 →
  unit_key ed1 u = unit_key ed2 u.
Proof. intros Hs Ht. unfold unit_key. by rewrite (get_tu_texts_langs ed1 ed2). Qed.

Lemma dups_of_distinct ed l l0 :
  l `sublist_of` keeps ed ∅ l0 → dups ed ∅ l = [].
Proof.
  intros Hsub. apply dups_nil; [|intros; apply not_elem_of_empty].
  eapply sublist_NoDup; [apply (keeps_NoDup ed ∅ l0)|]. by apply omap_sublist_mono.
Qed.

Lemma stats_after_dedup ed :
  NoDup (oids (body ed)) →
  exact_duplicates (get_statistics (remove_exact_duplicates ed).1) = 0
  ∧ total_tus (get_statistics (remove_exact_duplicates ed).1)
    = Z.of_nat (length (body_findall "tu" (body ed)))
      - Z.of_nat (length (dups ed ∅ (body_findall "tu" (body ed)))).
Proof.
  intros Hnd.
  destruct (get_statistics_counts (remove_exact_duplicates ed).1) as (Htotal & Hdup & _).
  rewrite Htotal, Hdup. clear Htotal Hdup.
  destruct (langs_after_dedup ed) as [Hs Ht].
  rewrite (dups_ext _ ed) by done.
  rewrite survivors_are_keeps by done.
  rewrite (dups_of_distinct ed _ (body_findall "tu" (body ed))) by done.
  split; [done|].
  pose proof (dups_keeps_length ed ∅ (body_findall "tu" (body ed))). lia.
Qed.

Lemma stats_after_empty ed :
  NoDup (oids (body ed)) →
  empty_segments (get_statistics (remove_empty_segments ed).1) = 0
  ∧ total_tus (get_statistics (remove_empty_segments ed).1)
    = Z.of_nat (length (body_findall "tu" (body ed)))
      - Z.of_nat (length (empties ed (body_findall "tu" (body ed)))).
Proof.
  intros Hnd.
  destruct (get_statistics_counts (remove_empty_segments ed).1) as (Htotal & _ & Hemp).
  rewrite Htotal, Hemp. clear Htotal Hemp.
  rewrite (empties_after_empty ed Hnd).
  rewrite tus_after_empty by done. split; [done|].
  pose proof (filter_length_split
                (λ n, lacks_text (_get_tu_texts ed (elem n)) = true)
                (body_findall "tu" (body ed))).
  unfold empties. lia.
Qed.

(** X4.  On a body of distinct objects: after [remove_exact_duplicates],
    [get_statistics] reports no exact duplicate and [unique_count] units;
    after [remove_empty_segments] it reports no empty segment and
    [remaining_count] units. *)
Theorem statistics_after_removal (ed : TMXEditor) :
  NoDup (oids (body ed)) →
  (∃ d, (remove_exact_duplicates ed).2 = Ok d
     ∧ exact_duplicates (get_statistics (remove_exact_duplicates ed).1) = 0
     ∧ total_tus (get_statistics (remove_exact_duplicates ed).1) = unique_count d)
  ∧ (∃ e, (remove_empty_segments ed).2 = Ok e
     ∧ empty_segments (get_statistics (remove_empty_segments ed).1) = 0
     ∧ total_tus (get_statistics (remove_empty_segments ed).1) = remaining_count e).
Proof.
  intros Hnd. split.
  - destruct (stats_after_dedup ed Hnd) as [-> ->].
    rewrite (remove_exact_duplicates_eq ed Hnd). cbn [snd].
    eexists. split; [done|]. by cbn.
  - destruct (stats_after_empty ed Hnd) as [-> ->].
    destruct (remove_empty_segments_eq ed Hnd) as (counts & _ & ->). cbn [snd].
    eexists. split; [done|]. by cbn.
Qed.

Lemma statistics_after_removal_witness :
  exact_duplicates (get_statistics (remove_exact_duplicates three_units).1) = 0
  ∧ empty_segments (get_statistics (remove_empty_segments three_units).1) = 0.
Proof.
  destruct (statistics_after_removal three_units three_units_NoDup)
    as [(d & _ & Hdup & _) (e & _ & Hemp & _)].
  split; [exact Hdup|exact Hemp].
Defined.

Lemma body_after_dedup ed :
  NoDup (oids (body ed)) →
  NoDup (oids (body (remove_exact_duplicates ed).1)).
Proof.
  intros Hnd. rewrite (remove_exact_duplicates_eq ed Hnd). cbn [fst body set_body].
  by apply oids_filter_NoDup.
Qed.

(** X5.  The sequence of [--clean], [remove_exact_duplicates] and then
    [remove_empty_segments], on a body of distinct objects, leaves a body
    for which [get_statistics]
    reports neither exact duplicates nor empty segments: taking out the
    empty units brings back no duplicate.  [total_tus] is what was there
    less the two removed counts. *)
Theorem clean_leaves_nothing_to_report (ed : TMXEditor) :
  NoDup (oids (body ed)) →
  let ed1 := (remove_exact_duplicates ed).1 in
  let ed2 := (remove_empty_segments ed1).1 in
  ∃ d e, (remove_exact_duplicates ed).2 = Ok d
    ∧ (remove_empty_segments ed1).2 = Ok e
    ∧ exact_duplicates (get_statistics ed2) = 0
    ∧ empty_segments (get_statistics ed2) = 0
    ∧ total_tus (get_statistics ed2) = total_before d - removed_count d - e_removed_count e.
Proof.
  intros Hnd ed1 ed2.
  pose proof (body_after_dedup ed Hnd) as Hnd1. fold ed1 in Hnd1.
  destruct (stats_after_empty ed1 Hnd1) as [Hemp Htot].
  fold ed2 in Hemp, Htot.
  destruct (get_statistics_counts ed2) as (_ & Hdup & _).
  pose proof (survivors_are_keeps ed Hnd) as Hkeeps. fold ed1 in Hkeeps.
  destruct (langs_after_dedup ed) as [Hs1 Ht1]. fold ed1 in Hs1, Ht1.
  destruct (langs_after_empty ed1) as [Hs2 Ht2]. fold ed2 in Hs2, Ht2.
  assert (dups ed2 ∅ (body_findall "tu" (body ed2)) = []) as Hnil.
  { rewrite (dups_ext ed2 ed) by congruence.
    apply (dups_of_distinct ed _ (body_findall "tu" (body ed))).
    unfold ed2. rewrite tus_after_empty by done. rewrite Hkeeps. apply sublist_filter. }
  rewrite Hnil in Hdup.
  pose proof (remove_exact_duplicates_eq ed Hnd) as Hd. cbv zeta in Hd.
  destruct (remove_empty_segments_eq ed1 Hnd1) as (counts & _ & He').
  exists (MkDedupResult (Z.of_nat (length (dups ed ∅ (body_findall "tu" (body ed)))))
            (Z.of_nat (length (body_findall "tu" (body ed)))
             - Z.of_nat (length (dups ed ∅ (body_findall "tu" (body ed)))))
            (Z.of_nat (length (body_findall "tu" (body ed))))
            (duplicate_examples (dedup_scan ed (body_findall "tu" (body ed))))).
  eexists. split; [by rewrite Hd|]. split; [by rewrite He'|].
  split; [done|]. split; [done|]. rewrite Htot. cbn.
  rewrite Hkeeps. pose proof (dups_keeps_length ed ∅ (body_findall "tu" (body ed))). lia.
Qed.

Lemma clean_leaves_nothing_to_report_witness :
  let ed2 := (remove_empty_segments (remove_exact_duplicates defective_units).1).1 in
  exact_duplicates (get_statistics ed2) = 0 ∧ empty_segments (get_statistics ed2) = 0.
Proof.
  destruct (clean_leaves_nothing_to_report defective_units defective_units_NoDup)
    as (d & e & _ & _ & Hdup & Hemp & _).
  split; [exact Hdup|exact Hemp].
Defined.

Lemma body_remove_Some x b b' :
  body_remove x b = Some b' →
  length b = S (length b') ∧ b' `sublist_of` b.
Proof.
  revert b'. induction b as [|y b IH]; intros b'; simpl; [done|].
  destruct (decide (oid y = oid x)).
  - intros [= <-]. split; [done|]. by apply sublist_cons.
  - destruct (body_remove x b) as [r|]; [|done]. intros [= <-].
    destruct (IH r eq_refl) as [Hlen Hsub]. split; [simpl; lia|by apply sublist_skip].
Qed.

Lemma remove_similar_unfold b r s :
  remove_similar (b, r) s =
    match body_remove (s_tu_element s) b with
    | Some b' => (b', r + 1)
    | None => (b, r)
    end.
Proof. reflexivity. Qed.

Lemma remove_similar_fold sims b r b' r' :
  fold_left remove_similar sims (b, r) = (b', r') →
  Z.of_nat (length b') + (r' - r) = Z.of_nat (length b)
  ∧ b' `sublist_of` b
  ∧ r ≤ r' ≤ r + Z.of_nat (length sims).
Proof.
  revert b r. induction sims as [|s sims IH]; intros b r; cbn [fold_left].
  - intros [= <- <-]. simpl. split_and!; [lia|done|lia|lia].
  - rewrite remove_similar_unfold.
    destruct (body_remove (s_tu_element s) b) as [b1|] eqn:Hrm.
    + destruct (body_remove_Some _ _ _ Hrm) as [Hlen Hsub].
      intros (H1 & H2 & H3)%IH.
      split_and!; [lia|by etrans|lia|cbn [length]; lia].
    + intros (H1 & H2 & H3)%IH.
      split_and!; [lia|done|lia|cbn [length]; lia].
Qed.

Lemma remove_groups_members groups st :
  fold_left remove_group groups st = fold_left remove_similar (members groups) st.
Proof.
  revert st. induction groups as [|g groups IH]; intros st; [done|].
  cbn [fold_left]. unfold members. rewrite fmap_cons. cbn [concat].
  rewrite fold_left_app. apply IH.
Qed.

Lemma remove_fuzzy_duplicates_eq ed groups :
  remove_fuzzy_duplicates ed groups =
    (set_body ed (fold_left remove_similar (members groups) (body ed, 0)).1,
     (fold_left remove_similar (members groups) (body ed, 0)).2).
Proof.
  unfold remove_fuzzy_duplicates. rewrite remove_groups_members.
  by destruct (fold_left _ _ _).
Qed.

(** X10.  [remove_fuzzy_duplicates], for any list of groups: the body
    afterwards is the old one with [removed_count] children taken out, in
    the old order; [removed_count] is at most the number of members named;
    the language pair stays.  (A member that is no child of the body is
    passed over: the [ValueError] is caught.) *)
Theorem remove_fuzzy_duplicates_count (ed : TMXEditor) (groups : list Group) :
  let ed' := (remove_fuzzy_duplicates ed groups).1 in
  let removed := (remove_fuzzy_duplicates ed groups).2 in
  Z.of_nat (length (body ed')) + removed = Z.of_nat (length (body ed))
  ∧ body ed' `sublist_of` body ed
  ∧ 0 ≤ removed ≤ Z.of_nat (length (members groups))
  ∧ source_lang ed' = source_lang ed ∧ target_lang ed' = target_lang ed.
Proof.
  intros ed' removed. unfold ed', removed. rewrite remove_fuzzy_duplicates_eq.
  cbn [fst snd body set_body source_lang target_lang].
  destruct (fold_left remove_similar (members groups) (body ed, 0)) as [b' r'] eqn:Hfold.
  destruct (remove_similar_fold _ _ _ _ _ Hfold) as (H1 & H2 & H3).
  cbn [fst snd]. split_and!; [lia|done|lia|lia|done|done].
Qed.

Lemma remove_similar_all sims b r :
  NoDup (oids b) → NoDup (oids (s_tu_element <$> sims)) →
  (∀ s, s ∈ sims → oid (s_tu_element s) ∈ oids b) →
  fold_left remove_similar sims (b, r) =
    (filter (λ n, oid n ∉ oids (s_tu_element <$> sims)) b, r + Z.of_nat (length sims)).
Proof.
  revert b r. induction sims as [|s sims IH]; intros b r Hb Hs Hin.
  - simpl. f_equal; [|lia]. symmetry. apply filter_all, Forall_forall.
    intros n _. apply not_elem_of_nil.
  - cbn [fold_left]. rewrite remove_similar_unfold.
    rewrite !fmap_cons in Hs. apply NoDup_cons in Hs as [Hx Hs].
    rewrite body_remove_filter by (auto; apply Hin; left).
    rewrite IH.
    + f_equal; [|cbn [length]; lia].
      rewrite list_filter_filter. apply list_filter_iff.
      intros n. rewrite !fmap_cons, not_elem_of_cons. tauto.
    + by apply oids_filter_NoDup.
    + done.
    + intros z Hz. apply list_elem_of_fmap.
      assert (oid (s_tu_element z) ∈ oids b) as Hzb by (apply Hin; by right).
      apply list_elem_of_fmap in Hzb as (w & Hw & Hwb).
      exists w. split; [done|]. apply list_elem_of_filter. split; [|done].
      rewrite <- Hw. intros Heq. apply Hx. rewrite <- Heq.
      apply list_elem_of_fmap_2. by apply list_elem_of_fmap_2.
Qed.

(** *** The representatives are no members *)

Lemma scan_candidates_frame threshold unique_tus it_i js matched group_similar
    matched' group_similar' :
  scan_candidates threshold unique_tus it_i js matched group_similar =
    Ok (matched', group_similar') →
  ∀ x, x ∉ js → matched' !! x = matched !! x.
Proof.
  revert matched group_similar.
  induction js as [|j js IH]; intros matched group_similar; simpl.
  - by intros [= <- <-].
  - intros Hscan x [Hxj Hx]%not_elem_of_cons.
    destruct (matched !! j) as [[|]|] eqn:Hm; [by eapply IH| |done].
    destruct (unique_tus !! j) as [it_j|] eqn:Hj; [|done].
    destruct (too_long _ _ _) as [[|]|e]; [by injection Hscan as <- <-| |done].
    destruct (Qle_bool _ _); [|by eapply IH].
    rewrite (IH _ _ Hscan x Hx). by rewrite list_lookup_insert_ne.
Qed.

Lemma reps_inv_mono unique_tus matched matched' groups lo lo' :
  (lo ≤ lo')%nat → (∀ r, (r < lo)%nat → matched' !! r = matched !! r) →
  reps_inv unique_tus matched groups lo → reps_inv unique_tus matched' groups lo'.
Proof.
  intros Hlo Hsame Hinv. eapply Forall_impl; [exact Hinv|].
  intros g (r & Hr & Hnum & Hm). exists r. split_and!; [lia|done|].
  by rewrite Hsame.
Qed.

Lemma cluster_spec_reps threshold unique_tus n lo cnt matched groups result :
  NoDup (tu_number <$> unique_tus) →
  cluster_inv unique_tus matched groups →
  reps_inv unique_tus matched groups lo →
  cluster (scan_candidates threshold) unique_tus n (seq lo cnt) matched groups = Ok result →
  ∃ matched', cluster_inv unique_tus matched' result
              ∧ reps_inv unique_tus matched' result (lo + cnt).
Proof.
  intros Hnd. revert lo matched groups.
  induction cnt as [|cnt IH]; intros lo matched groups Hinv Hreps; cbn [seq cluster].
  - intros [= <-]. exists matched. split; [done|].
    eapply reps_inv_mono; [|done|exact Hreps]. lia.
  - replace (lo + S cnt)%nat with (S lo + cnt)%nat by lia.
    destruct (matched !! lo) as [[|]|] eqn:Hm; [| |done].
    { apply IH; [done|]. eapply reps_inv_mono; [|done|exact Hreps]. lia. }
    destruct (unique_tus !! lo) as [it_i|] eqn:Hi; [|done].
    destruct (scan_candidates _ _ _ _ _ _) as [[matched' group_similar]|e] eqn:Hscan;
      [|done].
    pose proof (scan_candidates_frame _ _ _ _ _ _ _ _ Hscan) as Hframe.
    assert (∀ r, (r < S lo)%nat → matched' !! r = matched !! r) as Hsame.
    { intros r Hr. apply Hframe. intros [? _]%elem_of_seq. lia. }
    apply scan_candidates_spec in Hscan
      as (idxs & sims & Hgrp & Hrel & Hsub & Hfalse & Hmono & Htrue).
    simpl in Hgrp. subst group_similar.
    destruct Hinv as (used & Hnums & Hused & Hmatched & Hown).
    destruct sims as [|s sims]; apply IH.
    + exists used. split_and!; [done|done| |done].
      intros j Hj. by apply Hmono, Hmatched.
    + apply (reps_inv_mono _ matched matched' _ lo (S lo)); [lia| |exact Hreps].
      intros r Hr. apply Hsame. lia.
    + exists (used ++ idxs). split_and!.
      * rewrite fmap_app, concat_app. apply Forall2_app; [done|].
        replace (concat (similar_numbers <$> [MkGroup (tu_number it_i) (src it_i)
                                                (tgt it_i) (s :: sims)]))
          with (s_tu_number <$> (s :: sims)) by (simpl; by rewrite app_nil_r).
        apply Forall2_fmap_r. exact Hrel.
      * apply NoDup_app. split_and!; [done| |].
        -- intros j Hj Hj'. specialize (Hmatched j Hj). specialize (Hfalse j Hj').
           congruence.
        -- eapply sublist_NoDup; [apply NoDup_seq|exact Hsub].
      * intros j [Hj|Hj]%elem_of_app; [by apply Hmono, Hmatched|by apply Htrue].
      * apply Forall_app. split; [done|]. constructor; [|constructor].
        unfold similar_numbers. cbn [similar_tus representative_tu].
        intros (s' & Hnum & Hs')%list_elem_of_fmap.
        apply list_elem_of_lookup in Hs' as [p Hp].
        destruct (Forall2_lookup_r _ _ _ _ _ Hrel Hp) as (j & Hj & Hjn).
        assert (lo = j) as <-.
        { eapply number_at_inj; [done| |by rewrite Hjn, <- Hnum].
          unfold number_at. by rewrite Hi. }
        assert (lo ∈ seq (S lo) (n - S lo)) as [? _]%elem_of_seq; [|lia].
        eapply elem_of_sublist; [|exact Hsub]. by eapply list_elem_of_lookup_2.
    + apply Forall_app. split.
      * apply (reps_inv_mono _ matched matched' _ lo (S lo)); [lia| |exact Hreps].
        intros r Hr. apply Hsame. lia.
      * constructor; [|constructor]. exists lo. cbn [representative_tu].
        split_and!; [lia| |].
        -- unfold number_at. by rewrite Hi.
        -- rewrite Hsame by lia. done.
Qed.

Lemma concat_numbers groups :
  concat (similar_numbers <$> groups) = s_tu_number <$> members groups.
Proof.
  unfold members, similar_numbers.
  induction groups as [|g groups IH]; [done|].
  rewrite !fmap_cons. cbn [concat]. by rewrite fmap_app, IH.
Qed.

Lemma unique_tus_number_pos ed it : it ∈ unique_tus_of ed → 1 ≤ tu_number it.
Proof.
  unfold unique_tus_of. rewrite sort_by_len_perm. intros Hin.
  eapply elem_of_sublist in Hin; [|apply unique_sources_sublist].
  apply collect_tu_data_numbers in Hin. lia.
Qed.

(** What the groups of [find_fuzzy_duplicates] are made of. *)
Lemma fuzzy_groups_facts ed threshold groups :
  find_fuzzy_duplicates ed threshold = Ok groups →
  let all_tus := body_findall "tu" (body ed) in
  NoDup (s_tu_number <$> members groups)
  ∧ Forall (λ s, 1 ≤ s_tu_number s
                 ∧ all_tus !! Z.to_nat (s_tu_number s - 1) = Some (s_tu_element s))
      (members groups)
  ∧ Forall (λ g, 1 ≤ representative_tu g
                 ∧ (representative_tu g ∉ s_tu_number <$> members groups)
                 ∧ ∃ tu, all_tus !! Z.to_nat (representative_tu g - 1) = Some tu) groups.
Proof.
  intros Hret all_tus. unfold find_fuzzy_duplicates, fuzzy_with in Hret.
  pose proof (unique_tus_numbers ed) as Hnd.
  pose proof (cluster_members _ _ _ _ _ _ _ (Forall_nil_2 _) Hret) as Hmembers.
  eapply cluster_spec_reps in Hret
    as [matched' [(used & Hnums & Hused & Hflag & _) Hreps]]; [|done| |].
  2:{ exists []. split_and!; [constructor|constructor|by intros ? ?%elem_of_nil|constructor]. }
  2:{ constructor. }
  rewrite concat_numbers in Hnums. split_and!.
  - by eapply numbers_NoDup.
  - unfold members. apply Forall_concat, Forall_fmap.
    eapply Forall_impl; [exact Hmembers|]. intros g Hg.
    eapply Forall_impl; [exact Hg|]. intros s (it & Hit & -> & ->).
    split; [by eapply unique_tus_number_pos|by apply unique_tus_element].
  - eapply Forall_impl; [exact Hreps|]. intros g (r & _ & Hnum & Hm).
    unfold number_at in Hnum.
    destruct (unique_tus_of ed !! r) as [it|] eqn:Hr; [|done].
    simpl in Hnum. injection Hnum as Hnum.
    assert (it ∈ unique_tus_of ed) as Hit by by eapply list_elem_of_lookup_2.
    split_and!.
    + rewrite <- Hnum. by eapply unique_tus_number_pos.
    + intros Hin. apply list_elem_of_lookup in Hin as [p Hp].
      destruct (Forall2_lookup_r _ _ _ _ _ Hnums Hp) as (j & Hj & Hjn).
      assert (j = r) as ->.
      { eapply number_at_inj; [done|exact Hjn|]. unfold number_at. rewrite Hr.
        simpl. by rewrite Hnum. }
      apply list_elem_of_lookup_2 in Hj. specialize (Hflag r Hj). congruence.
    + exists (tu_element it). rewrite <- Hnum. by apply unique_tus_element.
Qed.

Lemma at_positions (all_tus : list Node) (n n' : Z) (x y : Node) :
  NoDup (oids all_tus) → 1 ≤ n → 1 ≤ n' →
  all_tus !! Z.to_nat (n - 1) = Some x → all_tus !! Z.to_nat (n' - 1) = Some y →
  oid x = oid y → n = n'.
Proof.
  intros Hnd Hn Hn' Hx Hy Heq.
  assert (Z.to_nat (n - 1) = Z.to_nat (n' - 1)); [|lia].
  eapply NoDup_lookup; [exact Hnd|..]; rewrite list_lookup_fmap.
  - by rewrite Hx.
  - rewrite Hy. simpl. by rewrite Heq.
Qed.

Lemma member_oids_NoDup (all_tus : list Node) (ms : list Similar) :
  NoDup (oids all_tus) →
  NoDup (s_tu_number <$> ms) →
  Forall (λ s, 1 ≤ s_tu_number s
               ∧ all_tus !! Z.to_nat (s_tu_number s - 1) = Some (s_tu_element s)) ms →
  NoDup (oids (s_tu_element <$> ms)).
Proof.
  intros Hnd Hnums Hall. induction Hall as [|s ms [Hpos Hs] Hall IH]; [constructor|].
  rewrite !fmap_cons in *. apply NoDup_cons in Hnums as [Hnew Hnums].
  apply NoDup_cons. split; [|by apply IH].
  intros (x & Hx & (s' & -> & Hs')%list_elem_of_fmap)%list_elem_of_fmap.
  apply Hnew. apply list_elem_of_fmap. exists s'. split; [|done].
  rewrite Forall_forall in Hall. destruct (Hall s' Hs') as [Hpos' Hs'at].
  by eapply at_positions.
Qed.

Lemma fuzzy_removal_fold (ed : TMXEditor) (threshold : Q) (groups : list Group) :
  NoDup (oids (body ed)) →
  find_fuzzy_duplicates ed threshold = Ok groups →
  fold_left remove_similar (members groups) (body ed, 0) =
    (filter (λ n, oid n ∉ oids (member_elements groups)) (body ed),
     0 + Z.of_nat (length (members groups))).
Proof.
  intros Hnd Hfind.
  destruct (fuzzy_groups_facts ed threshold groups Hfind) as (Hnums & Hmem & _).
  assert (NoDup (oids (body_findall "tu" (body ed)))) as Hnd_tus
    by by apply body_findall_NoDup.
  apply remove_similar_all; [done|by eapply member_oids_NoDup|].
  intros s Hs. rewrite Forall_forall in Hmem. destruct (Hmem s Hs) as [_ Hat].
  apply list_elem_of_fmap_2.
  eapply elem_of_sublist; [|apply (body_findall_sublist "tu")].
  by eapply list_elem_of_lookup_2.
Qed.

(** X11.  Removing the groups that [find_fuzzy_duplicates] has just
    returned, on a body of distinct objects: [removed_count] is the number
    of all members, the body left is the old one without the members'
    elements, and the representative of every group is still a child of
    the body. *)
Theorem fuzzy_duplicates_removed (ed : TMXEditor) (threshold : Q) (groups : list Group) :
  NoDup (oids (body ed)) →
  find_fuzzy_duplicates ed threshold = Ok groups →
  let all_tus := body_findall "tu" (body ed) in
  let ed' := (remove_fuzzy_duplicates ed groups).1 in
  (remove_fuzzy_duplicates ed groups).2 = Z.of_nat (length (members groups))
  ∧ body ed' = filter (λ n, oid n ∉ oids (member_elements groups)) (body ed)
  ∧ Forall (λ g, ∃ tu, all_tus !! Z.to_nat (representative_tu g - 1) = Some tu
                       ∧ tu ∈ body ed') groups.
Proof.
  intros Hnd Hfind all_tus ed'.
  destruct (fuzzy_groups_facts ed threshold groups Hfind) as (Hnums & Hmem & Hreps).
  fold all_tus in Hmem, Hreps.
  assert (NoDup (oids all_tus)) as Hnd_tus by by apply body_findall_NoDup.
  pose proof (fuzzy_removal_fold ed threshold groups Hnd Hfind) as Hall.
  unfold ed'. rewrite remove_fuzzy_duplicates_eq, Hall. cbn [fst snd body set_body].
  split_and!; [lia|done|].
  eapply Forall_impl; [exact Hreps|]. intros g (Hpos & Hnot & tu & Htu).
  exists tu. split; [done|]. apply list_elem_of_filter. split.
  - intros (x & Hx & (s & -> & Hs)%list_elem_of_fmap)%list_elem_of_fmap.
    apply Hnot. apply list_elem_of_fmap. exists s. split; [|done].
    rewrite Forall_forall in Hmem. destruct (Hmem s Hs) as [Hpos' Hat].
    by eapply (at_positions all_tus).
  - eapply elem_of_sublist; [|apply (body_findall_sublist "tu")].
    by eapply list_elem_of_lookup_2.
Qed.

Lemma colours_NoDup : NoDup (oids (body colours)).
Proof. apply (bool_decide_unpack _). by vm_compute. Defined.

Lemma fuzzy_duplicates_removed_witness :
  ∃ groups, find_fuzzy_duplicates colours (8 # 10) = Ok groups
    ∧ (remove_fuzzy_duplicates colours groups).2 = 1.
Proof.
  destruct (find_fuzzy_duplicates colours (8 # 10)) as [groups|e] eqn:Hret.
  - exists groups. split; [reflexivity|].
    destruct (fuzzy_duplicates_removed colours (8 # 10) groups colours_NoDup Hret)
      as (Hcount & _).
    rewrite Hcount. revert Hret. vm_compute. intros [= <-]. reflexivity.
  - vm_compute in Hret. discriminate Hret.
Defined.

(** *** A second removal finds nothing *)

Lemma remove_similar_gone sims b r b' r' :
  NoDup (oids b) →
  fold_left remove_similar sims (b, r) = (b', r') →
  ∀ s, s ∈ sims → oid (s_tu_element s) ∉ oids b'.
Proof.
  revert b r. induction sims as [|s sims IH]; intros b r Hb; cbn [fold_left].
  - by intros _ s ?%elem_of_nil.
  - rewrite remove_similar_unfold.
    destruct (decide (oid (s_tu_element s) ∈ oids b)) as [Hin|Hout].
    + rewrite body_remove_filter by done.
      set (b1 := filter _ b).
      assert (NoDup (oids b1)) as Hb1 by by apply oids_filter_NoDup.
      intros Hfold z [->|Hz]%elem_of_cons; [|by eapply (IH b1)].
      destruct (remove_similar_fold _ _ _ _ _ Hfold) as (_ & Hsl & _).
      intros Hz. eapply elem_of_sublist in Hz; [|apply fmap_sublist, Hsl].
      apply list_elem_of_fmap in Hz as (w & Hw & Hwb).
      apply list_elem_of_filter in Hwb as [Hne _]. by apply Hne.
    + rewrite body_remove_None by done.
      intros Hfold z [->|Hz]%elem_of_cons; [|by eapply (IH b)].
      destruct (remove_similar_fold _ _ _ _ _ Hfold) as (_ & Hsl & _).
      intros Hz. apply Hout. eapply elem_of_sublist; [exact Hz|by apply fmap_sublist].
Qed.

Lemma remove_similar_nothing sims b r :
  (∀ s, s ∈ sims → oid (s_tu_element s) ∉ oids b) →
  fold_left remove_similar sims (b, r) = (b, r).
Proof.
  induction sims as [|s sims IH]; intros Hgone; [done|].
  cbn [fold_left]. rewrite remove_similar_unfold.
  rewrite body_remove_None by (apply Hgone; left).
  apply IH. intros z Hz. apply Hgone. by right.
Qed.

(** X12.  On a body of distinct objects, a second
    [remove_fuzzy_duplicates] with the same groups removes nothing and
    returns [removed_count = 0]. *)
Theorem remove_fuzzy_duplicates_twice (ed : TMXEditor) (groups : list Group) :
  NoDup (oids (body ed)) →
  let ed1 := (remove_fuzzy_duplicates ed groups).1 in
  remove_fuzzy_duplicates ed1 groups = (ed1, 0).
Proof.
  intros Hnd ed1. unfold ed1. rewrite !remove_fuzzy_duplicates_eq.
  cbn [fst body set_body].
  destruct (fold_left remove_similar (members groups) (body ed, 0)) as [b' r'] eqn:Hfold.
  cbn [fst]. rewrite remove_similar_nothing; [done|].
  by eapply remove_similar_gone.
Qed.

Lemma remove_fuzzy_duplicates_twice_witness :
  ∃ groups, find_fuzzy_duplicates colours (8 # 10) = Ok groups
    ∧ (remove_fuzzy_duplicates colours groups).2 = 1
    ∧ (remove_fuzzy_duplicates (remove_fuzzy_duplicates colours groups).1 groups).2 = 0.
Proof.
  destruct (find_fuzzy_duplicates colours (8 # 10)) as [groups|e] eqn:Hret.
  - exists groups. split; [reflexivity|]. split.
    + revert Hret. vm_compute. intros [= <-]. reflexivity.
    + by rewrite (remove_fuzzy_duplicates_twice colours groups colours_NoDup).
  - vm_compute in Hret. discriminate Hret.
Defined.

(** ** Text extraction on a unit of two [tuv]s *)

Lemma pick_tuv_first ed t : pick_tuv ed (None, None) t = (Some t, None).
Proof.
  unfold pick_tuv. rewrite (bool_decide_eq_true_2 (None = None)) by done.
  by rewrite orb_true_r.
Qed.

Lemma pick_tuv_second ed a t :
  pick_tuv ed (Some a, None) t =
    if bool_decide (tuv_lang t = source_lang ed) then (Some t, None)
    else (Some a, Some t).
Proof.
  unfold pick_tuv. destruct (bool_decide (tuv_lang t = source_lang ed)); [done|].
  rewrite (bool_decide_eq_false_2 (Some a = None)) by done.
  rewrite (bool_decide_eq_true_2 (None = None)) by done.
  by rewrite orb_true_r.
Qed.

(** X16.  A unit with exactly two [tuv]s: the texts are those of the
    first and of the second [tuv], in this order, unless the second
    [tuv] is in the source language; then both texts are the text of the
    second [tuv] (the first is overwritten as source, and no target is
    left but the fallback [tuvs[1]]). *)
Theorem get_tu_texts_two_tuvs (ed : TMXEditor) (tu t1 t2 : Element) :
  findall "tuv" tu = [t1; t2] →
  _get_tu_texts ed tu =
    Some (if bool_decide (tuv_lang t2 = source_lang ed)
          then (seg_text_of t2, seg_text_of t2)
          else (seg_text_of t1, seg_text_of t2)).
Proof.
  intros Htuvs. rewrite get_tu_texts_seg_text, Htuvs. cbn [fold_left].
  rewrite pick_tuv_first, pick_tuv_second.
  by destruct (bool_decide (tuv_lang t2 = source_lang ed)).
Qed.

Lemma get_tu_texts_two_tuvs_witness :
  _get_tu_texts (en_es []) (Elem "tu" ∅ None None [mk_tuv "es" "hola"; mk_tuv "en" "hello"])
  = Some ("hello", "hello").
Proof.
  rewrite (get_tu_texts_two_tuvs (en_es []) _ (mk_tuv "es" "hola") (mk_tuv "en" "hello"));
    reflexivity.
Defined.

(** ** The body *)

Lemma iter_self e : e ∈ iter e.
Proof. destruct e. rewrite iter_unfold. left. Qed.

Lemma find_elem t e x : find t e = Some x → x ∈ children e.
Proof.
  unfold find, findall. intros Hx.
  assert (x ∈ filter (λ c, tag c = t) (children e)) as Hin.
  { destruct (filter _ _); [done|]. injection Hx as ->. left. }
  by apply list_elem_of_filter in Hin as [_ ?].
Qed.

Lemma findall_desc_elem t e x :
  x ∈ findall_desc t e ↔ tag x = t ∧ x ∈ descendants e.
Proof.
  unfold findall_desc, descendants.
  change (List.flat_map (iter_tag t) (children e)) with (children e ≫= iter_tag t).
  rewrite !list_elem_of_bind. unfold iter_tag. split.
  - intros (c & Hx & Hc). apply list_elem_of_filter in Hx as [Ht Hx]. by eauto.
  - intros [Ht (c & Hx & Hc)]. exists c. split; [|done].
    by apply list_elem_of_filter.
Qed.

(** X18.  [_get_body] raises exactly when no element below the root has
    the tag [body]; what it returns is such an element; and a [body] that
    is a child of the root is taken before any other. *)
Theorem get_body_spec (root : Element) :
  (_get_body root = None ↔ ∀ x, x ∈ descendants root → tag x ≠ "body")
  ∧ (∀ b, _get_body root = Some b → tag b = "body" ∧ b ∈ descendants root)
  ∧ (∀ b, find "body" root = Some b → _get_body root = Some b).
Proof.
  assert (∀ b, find "body" root = Some b → tag b = "body" ∧ b ∈ descendants root) as Hchild.
  { intros b Hb. split; [by eapply find_tag|].
    unfold descendants. apply list_elem_of_bind. exists b.
    split; [apply iter_self|by eapply find_elem]. }
  assert (∀ b, find_desc "body" root = Some b → tag b = "body" ∧ b ∈ descendants root)
    as Hdesc.
  { intros b Hb. apply findall_desc_elem. unfold find_desc in Hb.
    destruct (findall_desc "body" root); [done|]. injection Hb as ->. left. }
  unfold _get_body. split_and!.
  - destruct (find "body" root) as [b|] eqn:Hfind.
    + split; [done|]. intros Hnone. destruct (Hchild b eq_refl) as [Ht Hb].
      by destruct (Hnone b Hb).
    + split.
      * intros Hnone x Hx Ht. unfold find_desc in Hnone.
        assert (x ∈ findall_desc "body" root) as Hin by by apply findall_desc_elem.
        destruct (findall_desc "body" root); [by apply elem_of_nil in Hin|done].
      * intros Hnone. destruct (find_desc "body" root) as [b|] eqn:Hb; [|done].
        destruct (Hdesc b eq_refl) as [Ht Hin]. by destruct (Hnone b Hin).
  - intros b. destruct (find "body" root) as [b0|].
    + intros [= <-]. by apply Hchild.
    + apply Hdesc.
  - by intros b ->.
Qed.

(** ** The language pair *)

Lemma ascii_compare_lt_trans a b c :
  (a ?= b)%char = Lt → (b ?= c)%char = Lt → (a ?= c)%char = Lt.
Proof.
  unfold Ascii.compare. rewrite !N.compare_lt_iff. lia.
Qed.

Lemma string_compare_lt_trans a b c :
  String.compare a b = Lt → String.compare b c = Lt → String.compare a c = Lt.
Proof.
  revert b c. induction a as [|x a IH]; intros [|y b] [|z c]; simpl; try done.
  destruct (Ascii.compare x y) eqn:Hxy; [|intros _|done].
  - apply Ascii.compare_eq_iff in Hxy as ->.
    destruct (Ascii.compare y z); [by apply IH|done|done].
  - destruct (Ascii.compare y z) eqn:Hyz; [|intros _|done].
    + apply Ascii.compare_eq_iff in Hyz as <-. by rewrite Hxy.
    + by rewrite (ascii_compare_lt_trans x y z).
Qed.

Lemma str_le_total a b : str_le a b ∨ str_le b a.
Proof.
  unfold str_le, str_leb, PyStr.ltb. rewrite (String.compare_antisym a b).
  destruct (String.compare b a); simpl; auto.
Qed.

Lemma str_le_trans a b c : str_le a b → str_le b c → str_le a c.
Proof.
  unfold str_le, str_leb, PyStr.ltb. intros Hab Hbc.
  destruct (String.compare c a) eqn:Hca; [done| |done]. exfalso.
  destruct (String.compare b a) eqn:Hba; [|done|].
  - apply String.compare_eq_iff in Hba as ->. by rewrite Hca in Hbc.
  - rewrite (String.compare_antisym b a) in Hba.
    destruct (String.compare a b) eqn:Hab'; try done.
    pose proof (string_compare_lt_trans c a b Hca Hab') as Hcb.
    by rewrite Hcb in Hbc.
Qed.

Lemma insert_str_perm x l : insert_str x l ≡ₚ x :: l.
Proof.
  induction l as [|y l IH]; simpl; [done|].
  destruct (str_leb x y); [done|]. rewrite IH. apply Permutation_swap.
Qed.

Lemma sorted_perm (L : gset string) : sorted L ≡ₚ elements L.
Proof.
  unfold sorted. induction (elements L) as [|x l IH]; simpl; [done|].
  by rewrite insert_str_perm, IH.
Qed.

Lemma insert_str_sorted x l :
  StronglySorted str_le l → StronglySorted str_le (insert_str x l).
Proof.
  induction 1 as [|y l Hl IH Hy]; simpl.
  - constructor; [constructor|constructor].
  - destruct (str_leb x y) eqn:Hxy.
    + constructor; [by constructor|]. constructor; [done|].
      eapply Forall_impl; [exact Hy|]. intros z Hz. by eapply str_le_trans.
    + constructor; [done|]. rewrite insert_str_perm. constructor; [|done].
      destruct (str_le_total x y) as [H|H]; [|done]. unfold str_le in H. congruence.
Qed.

Lemma sorted_sorted (L : gset string) : StronglySorted str_le (sorted L).
Proof.
  unfold sorted. induction (elements L) as [|x l IH]; simpl; [constructor|].
  by apply insert_str_sorted.
Qed.

Lemma sorted_elem (L : gset string) l : l ∈ sorted L ↔ l ∈ L.
Proof. by rewrite sorted_perm, elem_of_elements. Qed.

Lemma sorted_NoDup (L : gset string) : NoDup (sorted L).
Proof. rewrite sorted_perm. apply NoDup_elements. Qed.

Lemma sorted_length (L : gset string) : length (sorted L) = size L.
Proof. by rewrite sorted_perm. Qed.

Lemma head_filter_least (P : string → Prop) `{!∀ x, Decision (P x)} (l : list string) t :
  StronglySorted str_le l → head (filter P l) = Some t →
  P t ∧ t ∈ l ∧ ∀ x, x ∈ l → P x → str_le t x.
Proof.
  induction 1 as [|y l Hl IH Hy]; [done|]. rewrite filter_cons.
  destruct (decide (P y)) as [Hp|Hp].
  - intros [= <-]. split_and!; [done|left|].
    intros x [->|Hx]%elem_of_cons _.
    + destruct (str_le_total y y); done.
    + rewrite Forall_forall in Hy. by apply Hy.
  - intros (Ht & Hin & Hleast)%IH. split_and!; [done|by right|].
    intros x [->|Hx]%elem_of_cons Hx'; [done|by apply Hleast].
Qed.

(** X19.  [_detect_language_pair] never raises.  With no language among
    the first 40 [tuv]s it returns ("unknown", "unknown"); with one, that
    language and "unknown"; with two or more, two different languages of
    the sample: the source is the [srclang] of the header when that is in
    the sample and the least language otherwise, the target is the least
    language other than the source. *)
Theorem detect_language_pair_spec (root : Element) :
  let languages := sampled_languages root in
  ∃ s t, _detect_language_pair root = Some (s, t)
    ∧ (size languages = 0%nat → s = "unknown" ∧ t = "unknown")
    ∧ (size languages = 1%nat → languages = {[ s ]} ∧ t = "unknown")
    ∧ ((2 ≤ size languages)%nat →
         s ∈ languages ∧ t ∈ languages ∧ s ≠ t
         ∧ (∀ l, l ∈ languages → l ≠ s → str_le t l)
         ∧ (∀ h, header_srclang root = Some h → h ∈ languages → s = h)
         ∧ ((∀ h, header_srclang root = Some h → h ∉ languages) →
              ∀ l, l ∈ languages → str_le s l)).
Proof.
  intros languages. unfold _detect_language_pair. fold languages.
  clearbody languages.
  destruct (decide (size languages = 0%nat)) as [H0|H0].
  { rewrite H0. simpl. exists "unknown", "unknown". split_and!; [done|done|done|lia]. }
  destruct (decide (size languages = 1%nat)) as [H1|H1].
  { rewrite H1. simpl.
    apply size_1_elem_of in H1 as [l Hl]. apply leibniz_equiv in Hl.
    subst languages. rewrite elements_singleton.
    exists l, "unknown". split_and!; [done|done|done|lia]. }
  assert (2 ≤ size languages)%nat as H2 by lia.
  rewrite (bool_decide_eq_false_2 (size languages < 2)%nat) by lia.
  rewrite (bool_decide_eq_false_2 (size languages < 1)%nat) by lia.
  cbn [andb].
  pose proof (sorted_sorted languages) as Hsorted.
  pose proof (sorted_NoDup languages) as Hnd.
  pose proof (sorted_length languages) as Hlen.
  assert (∀ a b rest, sorted languages = a :: b :: rest →
            a ∈ languages ∧ b ∈ languages ∧ a ≠ b
            ∧ (∀ l, l ∈ languages → l ≠ a → str_le b l)
            ∧ (∀ l, l ∈ languages → str_le a l)) as Hfirst.
  { intros a b rest Heq. rewrite Heq in Hsorted, Hnd.
    apply StronglySorted_inv in Hsorted as [Hrest Ha].
    apply StronglySorted_inv in Hrest as [_ Hb].
    apply NoDup_cons in Hnd as [Hab _].
    rewrite Forall_forall in Ha. rewrite Forall_forall in Hb.
    split_and!.
    - apply sorted_elem. rewrite Heq. left.
    - apply sorted_elem. rewrite Heq. right. left.
    - intros ->. apply Hab. left.
    - intros l Hl Hne. apply sorted_elem in Hl. rewrite Heq in Hl.
      apply elem_of_cons in Hl as [->|Hl]; [done|].
      apply elem_of_cons in Hl as [->|Hl]; [|by apply Hb].
      destruct (str_le_total b b); done.
    - intros l Hl. apply sorted_elem in Hl. rewrite Heq in Hl.
      apply elem_of_cons in Hl as [->|Hl]; [|by apply Ha].
      destruct (str_le_total a a); done. }
  destruct (sorted languages) as [|a [|b rest]] eqn:Heq; simpl in Hlen; [lia|lia|].
  destruct (Hfirst a b rest eq_refl) as (Ha & Hb & Hab & Hleast & Hmin).
  destruct (header_srclang root) as [h|] eqn:Hh.
  2:{ exists a, b. split_and!; [done|done|done|].
      intros _. split_and!; [done..|]. by intros _. }
  destruct (decide (h ∈ languages)) as [Hin|Hout].
  2:{ exists a, b. split_and!; [done|done|done|].
      intros _. split_and!; [done..| |by intros _].
      intros h' [= <-] ?. done. }
  destruct (filter (λ l, l ≠ h) (a :: b :: rest)) as [|t others] eqn:Hfilter.
  { exfalso. assert (Forall (λ l, ¬ l ≠ h) (a :: b :: rest)) as Hall.
    { apply Forall_forall. intros l Hl Hne.
      assert (l ∈ filter (λ l, l ≠ h) (a :: b :: rest)) as Hf by by apply list_elem_of_filter.
      rewrite Hfilter in Hf. by apply elem_of_nil in Hf. }
    apply Forall_cons in Hall as [Ha' Hall]. apply Forall_cons in Hall as [Hb' _].
    apply Hab. destruct (decide (a = h)) as [->|Hn]; [|by destruct (Ha' Hn)].
    destruct (decide (b = h)) as [->|Hn]; [done|by destruct (Hb' Hn)]. }
  destruct (head_filter_least (λ l, l ≠ h) (a :: b :: rest) t) as (Hth & Htin & Htleast).
  { rewrite <- Heq. apply sorted_sorted. }
  { by rewrite Hfilter. }
  exists h, t. split_and!; [done|done|done|].
  intros _. split_and!.
  - done.
  - apply sorted_elem. by rewrite Heq.
  - done.
  - intros l Hl Hne. apply Htleast; [|done]. rewrite <- Heq. by apply sorted_elem.
  - by intros h' [= <-] _.
  - intros Hno. by destruct (Hno h eq_refl).
Qed.

Lemma detect_language_pair_spec_witness :
  _detect_language_pair tagged_tmx = Some ("en", "es").
Proof.
  destruct (detect_language_pair_spec tagged_tmx) as (s & t & Hret & _ & _ & Htwo).
  rewrite Hret. destruct Htwo as (_ & Ht & Hne & _ & Hs & _).
  - vm_compute. lia.
  - assert (s = "en") as -> by (apply Hs; [by vm_compute|by vm_compute]).
    f_equal. f_equal.
    assert (sampled_languages tagged_tmx = {[ "en"; "es" ]}) as Hl by by vm_compute.
    rewrite Hl in Ht. apply elem_of_union in Ht as [Ht|Ht];
      apply elem_of_singleton in Ht; congruence.
Defined.

Lemma readable_cons_Some ed tu tus p :
  _get_tu_texts ed (elem tu) = Some p → readable ed (tu :: tus) = tu :: readable ed tus.
Proof. intros H. unfold readable. rewrite filter_cons_True; [done|]. by rewrite H. Qed.

Lemma readable_cons_None ed tu tus :
  _get_tu_texts ed (elem tu) = None → readable ed (tu :: tus) = readable ed tus.
Proof.
  intros H. unfold readable. rewrite filter_cons_False; [done|].
  rewrite H. by intros [? ?].
Qed.

Lemma merge_loop_appends other strategy tus st :
  strategy ≠ "replace" →
  ∃ st' new, merge_loop other strategy tus st = (st', None)
    ∧ m_body st' = m_body st ++ new
    ∧ elem <$> new `sublist_of` elem <$> readable other tus
    ∧ m_added st' = m_added st + Z.of_nat (length new)
    ∧ m_replaced st' = m_replaced st.
Proof.
  intros Hne. revert st. induction tus as [|tu tus IH]; intros st; cbn [merge_loop].
  - exists st, []. rewrite app_nil_r. split_and!; [done|done|done|simpl; lia|done].
  - unfold merge_step.
    destruct (_get_tu_texts other (elem tu)) as [[s t]|] eqn:Htexts.
    2:{ rewrite readable_cons_None by done. apply IH. }
    rewrite (readable_cons_Some _ _ _ _ Htexts), fmap_cons.
    assert (∀ st1, m_body st1 = m_body st → m_added st1 = m_added st →
              m_replaced st1 = m_replaced st →
              ∃ st' new, merge_loop other strategy tus st1 = (st', None)
                ∧ m_body st' = m_body st ++ new
                ∧ elem <$> new `sublist_of` elem tu :: (elem <$> readable other tus)
                ∧ m_added st' = m_added st + Z.of_nat (length new)
                ∧ m_replaced st' = m_replaced st) as Hsame.
    { intros st1 Hb Ha Hr. destruct (IH st1) as (st' & new & -> & Hb' & Hsub & Ha' & Hr').
      exists st', new. split_and!; [done|congruence|by apply sublist_cons|congruence|congruence]. }
    assert (∀ st1, m_body st1 = m_body st ++ [deepcopy (heap st) tu] →
              m_added st1 = m_added st + 1 → m_replaced st1 = m_replaced st →
              ∃ st' new, merge_loop other strategy tus st1 = (st', None)
                ∧ m_body st' = m_body st ++ new
                ∧ elem <$> new `sublist_of` elem tu :: (elem <$> readable other tus)
                ∧ m_added st' = m_added st + Z.of_nat (length new)
                ∧ m_replaced st' = m_replaced st) as Hcopy.
    { intros st1 Hb Ha Hr. destruct (IH st1) as (st' & new & -> & Hb' & Hsub & Ha' & Hr').
      exists st', (deepcopy (heap st) tu :: new). split_and!.
      - done.
      - rewrite Hb', Hb, <- app_assoc. done.
      - rewrite fmap_cons. by apply sublist_skip.
      - rewrite Ha', Ha. cbn [length]. lia.
      - congruence. }
    destruct (decide (pair_key s t ∈ existing_pairs st)); [by apply Hsame|].
    destruct (existing_sources st !! PyStr.normalize s) as [old_tu|]; [|by apply Hcopy].
    destruct (decide (strategy = "skip")); [by apply Hsame|].
    destruct (decide (strategy = "replace")); [done|].
    destruct (decide (strategy = "keep_both")); [by apply Hcopy|by apply Hsame].
Qed.

(** X20.  Under every strategy but [replace], [merge_from] returns, and
    the target's body afterwards is the old body followed by copies of
    units of the other file that have texts, in their order; [added]
    counts these copies and [replaced] is 0. *)
Theorem merge_only_appends (self other : TMXEditor) (strategy : string) (h : nat) :
  strategy ≠ "replace" →
  ∃ r new, merge_from self other strategy h = (set_body self (body self ++ new), Ok r)
    ∧ elem <$> new `sublist_of` elem <$> readable other (body_findall "tu" (body other))
    ∧ added r = Z.of_nat (length new)
    ∧ replaced r = 0.
Proof.
  intros Hne. unfold merge_from. destruct (build_index self) as [pairs sources].
  destruct (merge_loop_appends other strategy (body_findall "tu" (body other))
              (MkMergeState (body self) pairs sources 0 0 0 h) Hne)
    as (st' & new & -> & Hb & Hsub & Ha & Hr).
  cbn [m_body m_added m_replaced] in Hb, Ha, Hr.
  eexists _, new. rewrite Hb. split; [done|]. cbn. split_and!; [done|lia|done].
Qed.

Lemma merge_only_appends_witness :
  ∃ new, body (merge_from hello_A hello_B "keep_both" 100).1 = body hello_A ++ new
    ∧ elem <$> new = [mk_tu "hello" "ciao"].
Proof.
  destruct (merge_only_appends hello_A hello_B "keep_both" 100) as (r & new & Heq & _).
  - discriminate.
  - exists new. split; [by rewrite Heq|].
    assert (body hello_A ++ new = body (merge_from hello_A hello_B "keep_both" 100).1)
      as Hnew by by rewrite Heq.
    apply app_inv_head in Hnew. by rewrite Hnew.
Defined.

Lemma merge_loop_counts other strategy tus st st' :
  strategy ∈ ["skip"; "replace"; "keep_both"] →
  merge_loop other strategy tus st = (st', None) →
  m_added st' + m_skipped st' + m_replaced st' =
    m_added st + m_skipped st + m_replaced st + Z.of_nat (length (readable other tus))
  ∧ m_added st ≤ m_added st' ∧ m_skipped st ≤ m_skipped st'
  ∧ m_replaced st ≤ m_replaced st'.
Proof.
  intros Hvalid. revert st. induction tus as [|tu tus IH]; intros st; cbn [merge_loop].
  - intros [= <-]. simpl. lia.
  - destruct (merge_step other strategy st tu) as [st1|e] eqn:Hstep; [|done].
    intros (Hsum & ? & ? & ?)%IH. unfold merge_step in Hstep.
    destruct (_get_tu_texts other (elem tu)) as [[s t]|] eqn:Htexts.
    2:{ injection Hstep as <-. rewrite readable_cons_None by done. lia. }
    rewrite (readable_cons_Some _ _ _ _ Htexts). cbn [length].
    destruct (decide (pair_key s t ∈ existing_pairs st)).
    { injection Hstep as <-. cbn in *. lia. }
    destruct (existing_sources st !! PyStr.normalize s) as [old_tu|].
    2:{ injection Hstep as <-. cbn in *. lia. }
    destruct (decide (strategy = "skip")).
    { injection Hstep as <-. cbn in *. lia. }
    destruct (decide (strategy = "replace")).
    { destruct (body_remove old_tu (m_body st)); [|done].
      injection Hstep as <-. cbn in *. lia. }
    destruct (decide (strategy = "keep_both")).
    { injection Hstep as <-. cbn in *. lia. }
    exfalso. repeat (apply elem_of_cons in Hvalid as [->|Hvalid]; [done|]).
    by apply elem_of_nil in Hvalid.
Qed.

(** X21.  When [merge_from] returns under one of the three strategies,
    every unit of the other file that has texts is counted once:
    [added + skipped + replaced] is their number; no counter is
    negative. *)
Theorem merge_counts_add_up (self other : TMXEditor) (strategy : string) (h : nat)
    (r : MergeResult) :
  strategy ∈ ["skip"; "replace"; "keep_both"] →
  (merge_from self other strategy h).2 = Ok r →
  added r + skipped r + replaced r
    = Z.of_nat (length (readable other (body_findall "tu" (body other))))
  ∧ 0 ≤ added r ∧ 0 ≤ skipped r ∧ 0 ≤ replaced r.
Proof.
  intros Hvalid. unfold merge_from. destruct (build_index self) as [pairs sources].
  destruct (merge_loop _ _ _ _) as [st [e|]] eqn:Hloop; simpl; [done|].
  intros [= <-]. cbn.
  apply (merge_loop_counts _ _ _ _ _ Hvalid) in Hloop. cbn in Hloop. lia.
Qed.

Lemma merge_counts_add_up_witness :
  ∃ r, (merge_from hello_A hello_B "replace" 100).2 = Ok r
    ∧ added r + skipped r + replaced r = 2.
Proof.
  exists (MkMergeResult 0 1 1 1). split; [by vm_compute|].
  destruct (merge_counts_add_up hello_A hello_B "replace" 100 (MkMergeResult 0 1 1 1))
    as [Hsum _].
  - apply elem_of_cons. right. apply elem_of_cons. by left.
  - by vm_compute.
  - rewrite Hsum. by vm_compute.
Defined.

(** *** [skip] brings in no duplicate *)

Lemma tus_app_copy (b : list Node) h tu :
  tag (elem tu) = "tu" →
  body_findall "tu" (b ++ [deepcopy h tu]) = body_findall "tu" b ++ [deepcopy h tu].
Proof.
  intros Htag. unfold body_findall. rewrite filter_app.
  by rewrite (filter_cons_True _ (deepcopy h tu)) by done.
Qed.

Lemma unit_key_copy ed h tu : unit_key ed (deepcopy h tu) = unit_key ed tu.
Proof. reflexivity. Qed.

Lemma unit_source_copy ed h tu : unit_source ed (deepcopy h tu) = unit_source ed tu.
Proof. reflexivity. Qed.

Lemma omap_snoc {A B} (f : A → option B) (l : list A) (x : A) (y : B) :
  f x = Some y → omap f (l ++ [x]) = omap f l ++ [y].
Proof. intros Hx. rewrite omap_app. simpl. by rewrite Hx. Qed.

Lemma elem_of_omap_key {A B} (f : A → option B) (l : list A) (y : B) :
  y ∈ omap f l → ∃ x, x ∈ l ∧ f x = Some y.
Proof. intros Hy. apply list_elem_of_omap in Hy as (x & ? & ?). by eauto. Qed.

Lemma omap_ext_fun {A B} (f g : A → option B) (l : list A) :
  (∀ x, f x = g x) → omap f l = omap g l.
Proof.
  intros Hfg. apply list_omap_ext, Forall_Forall2_diag, Forall_forall. auto.
Qed.

Lemma skip_step self other (kd sd : Prop) st tu st' :
  source_lang self = source_lang other → target_lang self = target_lang other →
  tag (elem tu) = "tu" →
  skip_inv self kd sd st →
  merge_step other "skip" st tu = inl st' →
  skip_inv self kd sd st'.
Proof.
  intros Hsl Htl Htag Hinv. unfold merge_step.
  destruct (_get_tu_texts other (elem tu)) as [[s t]|] eqn:Htexts; [|by intros [= <-]].
  assert (_get_tu_texts self (elem tu) = Some (s, t)) as Hself
    by by rewrite (get_tu_texts_langs self other).
  destruct (decide (pair_key s t ∈ existing_pairs st)) as [Hp|Hp].
  { intros [= <-]. by destruct Hinv. }
  destruct (existing_sources st !! PyStr.normalize s) as [old_tu|] eqn:Hsrc.
  { rewrite decide_True by done. intros [= <-]. by destruct Hinv. }
  intros [= <-].
  assert (unit_key self tu = Some (pair_key s t)) as Hk by (unfold unit_key; by rewrite Hself).
  assert (unit_source self tu = Some (PyStr.normalize s)) as Hks
    by (unfold unit_source; by rewrite Hself).
  split; cbn [m_body existing_pairs existing_sources]; rewrite tus_app_copy by done.
  - intros u p [Hu|Hu]%elem_of_app Hup.
    + apply elem_of_union. right. by eapply si_pairs.
    + apply list_elem_of_singleton in Hu as ->. rewrite unit_key_copy, Hk in Hup.
      injection Hup as <-. apply elem_of_union. left. by apply elem_of_singleton.
  - intros u k [Hu|Hu]%elem_of_app Huk.
    + destruct (decide (k = PyStr.normalize s)) as [->|Hne].
      * rewrite lookup_insert_eq. by eauto.
      * rewrite lookup_insert_ne by done. by eapply si_sources.
    + apply list_elem_of_singleton in Hu as ->. rewrite unit_source_copy, Hks in Huk.
      injection Huk as <-. rewrite lookup_insert_eq. by eauto.
  - intros Hkd. rewrite (omap_snoc _ _ _ (pair_key s t)) by done.
    apply NoDup_app. split_and!; [by apply Hinv| |apply NoDup_singleton].
    intros p Hin ->%list_elem_of_singleton.
    apply elem_of_omap_key in Hin as (u & Hu & Hup). apply Hp. by eapply si_pairs.
  - intros Hsd. rewrite (omap_snoc _ _ _ (PyStr.normalize s)) by done.
    apply NoDup_app. split_and!; [by apply Hinv| |apply NoDup_singleton].
    intros k Hin ->%list_elem_of_singleton.
    apply elem_of_omap_key in Hin as (u & Hu & Huk).
    destruct (si_sources _ _ _ _ Hinv u _ Hu Huk) as [? ?]. congruence.
Qed.

Lemma skip_loop self other (kd sd : Prop) tus st st' :
  source_lang self = source_lang other → target_lang self = target_lang other →
  Forall (λ tu, tag (elem tu) = "tu") tus →
  skip_inv self kd sd st →
  merge_loop other "skip" tus st = (st', None) →
  skip_inv self kd sd st'.
Proof.
  intros Hsl Htl Htus. revert st. induction Htus as [|tu tus Htu _ IH]; intros st Hinv;
    cbn [merge_loop].
  - by intros [= <-].
  - destruct (merge_step other "skip" st tu) as [st1|e] eqn:Hstep; [|done].
    apply IH. by eapply skip_step.
Qed.

Lemma skip_start self (kd sd : Prop) h :
  (kd → NoDup (omap (unit_key self) (body_findall "tu" (body self)))) →
  (sd → NoDup (omap (unit_source self) (body_findall "tu" (body self)))) →
  skip_inv self kd sd
    (MkMergeState (body self) (build_index self).1 (build_index self).2 0 0 0 h).
Proof.
  intros Hkd Hsd. split; cbn [m_body existing_pairs existing_sources]; [| |done|done].
  - intros u p Hu Hup. apply build_index_pairs. by eauto.
  - intros u k Hu Huk. rewrite build_index_last.
    assert (u ∈ units_with_source self k (body self)) as Hin
      by by apply list_elem_of_filter.
    destruct (units_with_source self k (body self)) as [|x l] using rev_ind;
      [by apply elem_of_nil in Hin|].
    rewrite last_snoc. by eauto.
Qed.

Lemma unit_source_set_body ed b u : unit_source (set_body ed b) u = unit_source ed u.
Proof. unfold unit_source. by rewrite lacks_set_body. Qed.

(** X22.  [skip] brings in no duplicate.  When both files are read with
    the same language pair: if no two units of the target share a key
    before the merge, none do after it, and [get_statistics] reports
    [exact_duplicates = 0]; and if no two units of the target share a
    normalised source before, none do after. *)
Theorem merge_skip_brings_no_duplicate (self other : TMXEditor) (h : nat) :
  source_lang self = source_lang other → target_lang self = target_lang other →
  let self' := (merge_from self other "skip" h).1 in
  (NoDup (omap (unit_key self) (body_findall "tu" (body self))) →
     NoDup (omap (unit_key self') (body_findall "tu" (body self')))
     ∧ exact_duplicates (get_statistics self') = 0)
  ∧ (NoDup (omap (unit_source self) (body_findall "tu" (body self))) →
     NoDup (omap (unit_source self') (body_findall "tu" (body self')))).
Proof.
  intros Hsl Htl self'.
  assert (∀ kd sd : Prop,
            (kd → NoDup (omap (unit_key self) (body_findall "tu" (body self)))) →
            (sd → NoDup (omap (unit_source self) (body_findall "tu" (body self)))) →
            (kd → NoDup (omap (unit_key self) (body_findall "tu" (body self')))) ∧
            (sd → NoDup (omap (unit_source self) (body_findall "tu" (body self')))))
    as Hboth.
  { intros kd sd Hkd Hsd. unfold self', merge_from.
    pose proof (skip_start self kd sd h Hkd Hsd) as Hstart.
    destruct (build_index self) as [pairs sources]. cbn [fst snd] in Hstart.
    destruct (merge_loop_appends other "skip" (body_findall "tu" (body other))
                (MkMergeState (body self) pairs sources 0 0 0 h))
      as (st' & new & Hloop & _); [done|].
    rewrite Hloop. cbn [fst body set_body].
    eapply skip_loop in Hloop; [|done|done| |exact Hstart].
    - split; [apply Hloop|apply Hloop].
    - apply Forall_forall. by intros tu [? _]%list_elem_of_filter. }
  assert (source_lang self' = source_lang self ∧ target_lang self' = target_lang self)
    as [Hs' Ht'].
  { unfold self', merge_from. destruct (build_index self) as [pairs sources].
    by destruct (merge_loop _ _ _ _) as [st [e|]]. }
  split.
  - intros Hkd. destruct (Hboth True False) as [Hkeys _]; [done|done|].
    assert (NoDup (omap (unit_key self') (body_findall "tu" (body self')))) as Hnd.
    { rewrite (omap_ext_fun (unit_key self') (unit_key self)); [by apply Hkeys|].
      intros u. by apply unit_key_langs. }
    split; [done|].
    destruct (get_statistics_counts self') as (_ & -> & _).
    rewrite dups_nil; [done|done|]. intros; apply not_elem_of_empty.
  - intros Hsd. destruct (Hboth False True) as [_ Hsrcs]; [done|done|].
    rewrite (omap_ext_fun (unit_source self') (unit_source self)); [by apply Hsrcs|].
    intros u. by apply unit_source_langs.
Qed.

(** ** The CSV rows *)

Lemma csv_row_length ed include_metadata i tu :
  length (csv_row ed include_metadata i tu) = length (csv_headers include_metadata).
Proof.
  unfold csv_row, csv_headers.
  destruct (_get_tu_texts ed (elem tu)) as [[s t]|]; by destruct include_metadata.
Qed.

Lemma csv_rows_lookup ed include_metadata i tus j tu :
  tus !! j = Some tu →
  csv_rows ed include_metadata i tus !! j
    = Some (csv_row ed include_metadata (i + Z.of_nat j) tu).
Proof.
  revert i j. induction tus as [|x tus IH]; intros i [|j] Hj; simpl in *; try done.
  - injection Hj as ->. by rewrite Z.add_0_r.
  - rewrite (IH _ _ Hj). do 2 f_equal. lia.
Qed.

Lemma csv_rows_length ed include_metadata i tus :
  length (csv_rows ed include_metadata i tus) = length tus.
Proof. revert i. induction tus as [|x tus IH]; intros i; simpl; [done|]. by rewrite IH. Qed.

Lemma csv_rows_width ed include_metadata i tus :
  Forall (λ row, length row = length (csv_headers include_metadata))
    (csv_rows ed include_metadata i tus).
Proof.
  revert i. induction tus as [|x tus IH]; intros i; simpl; constructor; [|done].
  apply csv_row_length.
Qed.

(** X24.  The rows of [export_to_csv]: one header row and one row per
    unit; every row has the width of the header (5 fields, 7 with the
    metadata); the row of the [j]-th unit starts with its number [j + 1],
    and holds the language pair, the texts of the unit (two empty strings
    when they cannot be read) and, with metadata, the two dates. *)
Theorem export_to_csv_rows (ed : TMXEditor) (include_metadata : bool) :
  let all_tus := body_findall "tu" (body ed) in
  let rows := export_to_csv ed include_metadata in
  length rows = S (length all_tus)
  ∧ Forall (λ row, length row = if include_metadata then 7%nat else 5%nat) rows
  ∧ ∀ j tu, all_tus !! j = Some tu →
      ∃ texts, rows !! S j =
        Some ([FInt (Z.of_nat j + 1); FStr (source_lang ed); FStr texts.1;
               FStr (target_lang ed); FStr texts.2]
              ++ (if include_metadata
                  then [FStr (get_default (elem tu) "creationdate" "");
                        FStr (get_default (elem tu) "changedate" "")]
                  else []))
      ∧ texts = default ("", "") (_get_tu_texts ed (elem tu)).
Proof.
  intros all_tus rows. unfold rows, export_to_csv. fold all_tus. split_and!.
  - cbn [length]. by rewrite csv_rows_length.
  - constructor; [by destruct include_metadata|].
    eapply Forall_impl; [apply csv_rows_width|]. intros row ->.
    by destruct include_metadata.
  - intros j tu Hj. exists (default ("", "") (_get_tu_texts ed (elem tu))).
    split; [|done]. cbn [lookup list_lookup].
    change ((csv_headers include_metadata :: csv_rows ed include_metadata 1 all_tus) !! S j)
      with (csv_rows ed include_metadata 1 all_tus !! j).
    rewrite (csv_rows_lookup _ _ _ _ _ _ Hj). unfold csv_row.
    replace (1 + Z.of_nat j) with (Z.of_nat j + 1) by lia.
    by destruct (_get_tu_texts ed (elem tu)) as [[s t]|].
Qed.

(** ** The rows of the table *)

Lemma rows_from_length ed dk i tus : length (rows_from ed dk i tus) = length tus.
Proof. revert i. induction tus as [|x tus IH]; intros i; simpl; [done|]. by rewrite IH. Qed.

Lemma rows_from_lookup ed dk i tus j tu :
  tus !! j = Some tu →
  rows_from ed dk i tus !! j = Some (row_of ed dk (i + Z.of_nat j) tu).
Proof.
  revert i j. induction tus as [|x tus IH]; intros i [|j] Hj; simpl in *; try done.
  - injection Hj as ->. by rewrite Z.add_0_r.
  - rewrite (IH _ _ Hj). do 2 f_equal. lia.
Qed.

Lemma rows_from_elem ed dk i tus row :
  row ∈ rows_from ed dk i tus → ∃ j tu, tu ∈ tus ∧ row = row_of ed dk j tu.
Proof.
  revert i. induction tus as [|x tus IH]; intros i; simpl.
  - by intros ?%elem_of_nil.
  - intros [->|(j & tu & ? & ?)%IH]%elem_of_cons.
    + exists i, x. split; [left|done].
    + exists j, tu. split; [by right|done].
Qed.

Lemma row_index ed dk i tu : index (row_of ed dk i tu) = i + 1.
Proof. unfold row_of. by destruct (_get_tu_texts ed (elem tu)) as [[s t]|]. Qed.

Lemma row_status_empty ed dk i tu :
  status (row_of ed dk i tu) = "EMPTY" ↔ lacks_text (_get_tu_texts ed (elem tu)) = true.
Proof.
  unfold row_of, lacks_text.
  destruct (has_tags (elem tu)), (_get_tu_texts ed (elem tu)) as [[s t]|];
    cbn [status]; try done.
  all: destruct (negb (PyStr.truthy s) || negb (PyStr.truthy t)); [done|].
  all: destruct (bool_decide _); cbn; split; done.
Qed.

Lemma row_status_dup ed dk i tu :
  status (row_of ed dk i tu) = "DUP" →
  ∃ k, unit_key ed tu = Some k ∧ k ∈ dk.
Proof.
  unfold row_of, unit_key.
  destruct (has_tags (elem tu)), (_get_tu_texts ed (elem tu)) as [[s t]|];
    cbn [status]; try done.
  all: rewrite or_empty_id.
  all: destruct (negb (PyStr.truthy s) || negb (PyStr.truthy t)); [done|].
  all: case_bool_decide as Hk; [intros _; by eauto|done].
Qed.

Lemma row_status_tag ed dk i tu :
  status (row_of ed dk i tu) = "TAG" → has_tags (elem tu) = true.
Proof.
  unfold row_of.
  destruct (has_tags (elem tu)), (_get_tu_texts ed (elem tu)) as [[s t]|];
    cbn [status]; try done.
  destruct (negb (PyStr.truthy s) || negb (PyStr.truthy t)); [done|].
  by destruct (bool_decide _).
Qed.

Lemma dup_keys_of_cons ed seen tu l :
  dup_keys_of ed seen (tu :: l) =
    match unit_key ed tu with
    | None => dup_keys_of ed seen l
    | Some k => if decide (k ∈ seen) then {[k]} ∪ dup_keys_of ed seen l
                else dup_keys_of ed ({[k]} ∪ seen) l
    end.
Proof.
  unfold dup_keys_of. cbn [dups].
  destruct (unit_key ed tu) as [k|] eqn:Hk; [|done].
  destruct (decide (k ∈ seen)); [|done].
  csimpl. by rewrite Hk.
Qed.

Lemma dup_lookup_keys ed i l (seen : gmap string Z) (dk : gset string) :
  dup_lookup ed i l seen dk = dk ∪ dup_keys_of ed (dom seen) l.
Proof.
  revert i seen dk. induction l as [|tu l IH]; intros i seen dk; cbn [dup_lookup].
  - unfold dup_keys_of. csimpl. by rewrite (right_id_L ∅ (∪)).
  - rewrite dup_keys_of_cons. unfold unit_key.
    destruct (_get_tu_texts ed (elem tu)) as [[s t]|] eqn:Htexts; [|by apply IH].
    rewrite or_empty_id.
    destruct (seen !! pair_key s t) as [v|] eqn:Hseen.
    + rewrite decide_True by (apply elem_of_dom; by eauto).
      rewrite IH. by rewrite (comm_L (∪) {[pair_key s t]} dk), <- (assoc_L (∪)).
    + rewrite decide_False by (by apply not_elem_of_dom).
      by rewrite IH, dom_insert_L.
Qed.

Lemma rows_filter_empty ed dk i tus :
  length (filter (λ r, status r = "EMPTY") (rows_from ed dk i tus))
  = length (empties ed tus).
Proof.
  revert i. induction tus as [|tu tus IH]; intros i; [done|].
  cbn [rows_from]. unfold empties. rewrite !filter_cons.
  pose proof (row_status_empty ed dk i tu) as Hst.
  destruct (decide (status (row_of ed dk i tu) = "EMPTY")) as [He|He].
  - rewrite decide_True by by apply Hst. cbn [length]. f_equal. apply IH.
  - rewrite decide_False by (intros H; by apply He, Hst). apply IH.
Qed.

Lemma rebuild_rows_no_dup ed :
  dups ed ∅ (body_findall "tu" (body ed)) = [] →
  Forall (λ r, status r ≠ "DUP") (_rebuild_rows ed).
Proof.
  intros Hnil. apply Forall_forall. intros row Hrow Hdup.
  unfold _rebuild_rows in Hrow. rewrite dup_lookup_keys in Hrow.
  rewrite dom_empty_L in Hrow. unfold dup_keys_of in Hrow. rewrite Hnil in Hrow.
  apply rows_from_elem in Hrow as (j & tu & _ & ->).
  apply row_status_dup in Hdup as (k & _ & Hk). csimpl in Hk.
  rewrite (left_id_L ∅ (∪)) in Hk. by apply elem_of_empty in Hk.
Qed.

Lemma rebuild_rows_no_empty ed :
  empties ed (body_findall "tu" (body ed)) = [] →
  Forall (λ r, status r ≠ "EMPTY") (_rebuild_rows ed).
Proof.
  intros Hnil. apply Forall_forall. intros row Hrow Hemp.
  unfold _rebuild_rows in Hrow.
  apply rows_from_elem in Hrow as (j & tu & Htu & ->).
  apply row_status_empty in Hemp.
  assert (tu ∈ empties ed (body_findall "tu" (body ed))) as Hin
    by by apply list_elem_of_filter.
  rewrite Hnil in Hin. by apply elem_of_nil in Hin.
Qed.

(** X25.  The table of the text interface.  [_rebuild_rows] makes one row
    per unit, numbered from 1; a row has the status [EMPTY] exactly when
    a text of the unit is missing or empty, so the filter [empty] shows
    as many rows as [get_statistics] counts [empty_segments]; after
    [remove_exact_duplicates] no row has the status [DUP] and after
    [remove_empty_segments] none has the status [EMPTY] (both on a body of
    distinct objects). *)
Theorem rebuild_rows_statuses (ed : TMXEditor) :
  let all_tus := body_findall "tu" (body ed) in
  let rows := _rebuild_rows ed in
  length rows = length all_tus
  ∧ (∀ j tu, all_tus !! j = Some tu →
       ∃ row, rows !! j = Some row ∧ index row = Z.of_nat j + 1
         ∧ (status row = "EMPTY" ↔ lacks_text (_get_tu_texts ed (elem tu)) = true))
  ∧ Z.of_nat (length (_apply_filter "empty" rows [])) = empty_segments (get_statistics ed)
  ∧ (NoDup (oids (body ed)) →
       Forall (λ r, status r ≠ "DUP") (_rebuild_rows (remove_exact_duplicates ed).1)
       ∧ Forall (λ r, status r ≠ "EMPTY") (_rebuild_rows (remove_empty_segments ed).1)).
Proof.
  intros all_tus rows. unfold rows, _rebuild_rows. fold all_tus. split_and!.
  - apply rows_from_length.
  - intros j tu Hj. eexists. split; [by apply rows_from_lookup|].
    split; [rewrite row_index; lia|apply row_status_empty].
  - unfold _apply_filter.
    rewrite decide_False by done. rewrite decide_False by done.
    rewrite decide_True by done.
    destruct (get_statistics_counts ed) as (_ & _ & ->). fold all_tus.
    by rewrite rows_filter_empty.
  - intros Hnd. split.
    + apply rebuild_rows_no_dup.
      destruct (langs_after_dedup ed) as [Hs Ht].
      rewrite (dups_ext _ ed) by done. rewrite survivors_are_keeps by done.
      by apply (dups_of_distinct ed _ (body_findall "tu" (body ed))).
    + apply rebuild_rows_no_empty. by apply empties_after_empty.
Qed.

Lemma rebuild_rows_statuses_witness :
  status <$> _rebuild_rows three_units = ["DUP"; "DUP"; ""]
  ∧ Forall (λ r, status r ≠ "DUP") (_rebuild_rows (remove_exact_duplicates three_units).1).
Proof.
  split; [by vm_compute|].
  destruct (rebuild_rows_statuses three_units) as (_ & _ & _ & Hafter).
  exact (proj1 (Hafter three_units_NoDup)).
Defined.

(** ** After the tags are stripped *)

Lemma iter_trans x y e : x ∈ iter e → y ∈ iter x → y ∈ iter e.
Proof.
  induction e as [tg at_ tx tl cs IH] using Element_ind'.
  rewrite iter_unfold. intros [->|Hx]%elem_of_cons Hy.
  - by rewrite iter_unfold in Hy.
  - right. apply list_elem_of_bind in Hx as (c & Hx & Hc).
    apply list_elem_of_bind. exists c. split; [|done].
    rewrite Forall_forall in IH. by apply (IH c Hc).
Qed.

Lemma child_in_iter c e : c ∈ children e → c ∈ iter e.
Proof.
  destruct e as [tg at_ tx tl cs]. cbn [children]. intros Hc. rewrite iter_unfold.
  right. apply list_elem_of_bind. exists c. split; [apply iter_self|done].
Qed.

Lemma descendants_in_iter x e : x ∈ descendants e → x ∈ iter e.
Proof.
  unfold descendants. intros (c & Hx & Hc)%list_elem_of_bind.
  eapply iter_trans; [by apply child_in_iter|done].
Qed.

Lemma get_body_desc root b : _get_body root = Some b → b ∈ descendants root.
Proof.
  unfold _get_body. destruct (find "body" root) as [b0|] eqn:Hfind.
  - intros [= <-]. unfold descendants. apply list_elem_of_bind. exists b0.
    split; [apply iter_self|by eapply find_elem].
  - intros Hb. unfold find_desc in Hb.
    assert (b ∈ findall_desc "body" root) as Hin.
    { destruct (findall_desc "body" root); [done|]. injection Hb as ->. left. }
    by apply findall_desc_elem in Hin as [_ ?].
Qed.

Lemma has_tags_none tu :
  Forall (λ seg, children seg = []) (iter_tag "seg" tu) → has_tags tu = false.
Proof.
  unfold has_tags. generalize (iter_tag "seg" tu). intros l.
  induction 1 as [|seg l Hseg _ IH]; [done|]. cbn [existsb].
  unfold has_children at 1. by rewrite Hseg.
Qed.

(** X9.  Once [strip_inline_tags] has run on the tree, an editor on its
    body reports [segments_with_tags = 0] and no row of the table has the
    status [TAG]. *)
Theorem stripped_tree_reports_no_tags (ed : TMXEditor) (root : Element) :
  views ed (strip_inline_tags root).1 →
  segments_with_tags (get_statistics ed) = 0
  ∧ Forall (λ r, status r ≠ "TAG") (_rebuild_rows ed).
Proof.
  intros (b & Hb & Hbody). rewrite strip_inline_tags_fst in Hb.
  assert (∀ tu, tu ∈ body ed →
            Forall (λ seg, children seg = []) (iter_tag "seg" (elem tu))) as Hclean.
  { intros tu Htu. apply Forall_forall. intros seg [Htag Hseg]%list_elem_of_filter.
    pose proof (strip_elem_no_tags root) as Hall. rewrite Forall_forall in Hall.
    apply Hall. apply list_elem_of_filter. split; [done|].
    eapply iter_trans; [|exact Hseg].
    eapply iter_trans; [apply descendants_in_iter, get_body_desc, Hb|].
    apply child_in_iter. rewrite <- Hbody. by apply list_elem_of_fmap_2. }
  split.
  - unfold get_statistics.
    pose proof (stat_fold_tagged ed (body_findall "tu" (body ed)) 0 0) as Htag.
    destruct (fold_left (stat_step ed) _ _) as [e t].
    destruct (fold_left (count_dup_step ed) _ _) as [seen d]. cbn in *.
    apply Htag. apply Forall_forall. intros tu [_ Htu]%list_elem_of_filter.
    by apply Hclean.
  - apply Forall_forall. intros row Hrow Htag. unfold _rebuild_rows in Hrow.
    apply rows_from_elem in Hrow as (j & tu & [_ Htu]%list_elem_of_filter & ->).
    apply row_status_tag in Htag. rewrite has_tags_none in Htag; [done|].
    by apply Hclean.
Qed.

Lemma stripped_tree_reports_no_tags_witness :
  segments_with_tags
    (get_statistics (en_es (parse_from 0 [strip_elem tagged_tu; mk_tu "cat" "gato"]))) = 0
  ∧ segments_with_tags
      (get_statistics (en_es (parse_from 0 [tagged_tu; mk_tu "cat" "gato"]))) = 1.
Proof.
  split; [|by vm_compute].
  apply (stripped_tree_reports_no_tags _ tagged_tmx).
  exists (Elem "body" ∅ None None [strip_elem tagged_tu; mk_tu "cat" "gato"]).
  split; by vm_compute.
Defined.

Lemma scan_candidates_grows threshold unique_tus it_i js matched group_similar
    matched' group_similar' :
  scan_candidates threshold unique_tus it_i js matched group_similar =
    Ok (matched', group_similar') →
  (length group_similar ≤ length group_similar')%nat.
Proof.
  intros (idxs & sims & -> & _)%scan_candidates_spec. rewrite length_app. lia.
Qed.

Lemma cluster_nonempty threshold unique_tus n rng matched groups result :
  Forall (λ g, similar_tus g ≠ []) groups →
  cluster (scan_candidates threshold) unique_tus n rng matched groups = Ok result →
  Forall (λ g, similar_tus g ≠ []) result.
Proof.
  revert matched groups.
  induction rng as [|i rng IH]; intros matched groups Hall; simpl.
  - by intros [= <-].
  - destruct (matched !! i) as [[|]|]; [by apply IH| |done].
    destruct (unique_tus !! i) as [it_i|]; [|done].
    destruct (scan_candidates _ _ _ _ _ _) as [[matched' group_similar]|e]; [|done].
    apply IH. destruct group_similar as [|s sims]; [done|].
    apply Forall_app. split; [done|]. by apply Forall_singleton.
Qed.

Lemma members_nonempty groups :
  groups ≠ [] → Forall (λ g, similar_tus g ≠ []) groups →
  (0 < length (members groups))%nat.
Proof.
  destruct groups as [|g groups]; [done|]. intros _ [Hg _]%Forall_cons.
  unfold members. rewrite fmap_cons. cbn [concat]. rewrite length_app.
  destruct (similar_tus g); [done|]. simpl. lia.
Qed.

Section HandlerProperties.

Variable float : string → option PyFloat.

Lemma read_threshold_range answer :
  (0 < read_threshold float answer)%Q ∧ (read_threshold float answer <= 1)%Q.
Proof.
  assert ((0 < 85 # 100)%Q ∧ (85 # 100 <= 1)%Q) as Hdefault by (split; [reflexivity|discriminate]).
  unfold read_threshold. destruct (PyStr.truthy _); [|done].
  destruct (float _) as [[x| |]|]; try done.
  cbv zeta. destruct (Qle_bool (x / 100) 0) eqn:H0; [done|].
  destruct (Qle_bool (x / 100) 1) eqn:H1; [|done]. simpl. split.
  - apply Qnot_le_lt. intros Hle. apply Qle_bool_iff in Hle. congruence.
  - by apply Qle_bool_iff.
Qed.

(** X15.  [_handle_fuzzy_duplicates] on a body of distinct objects,
    whatever is typed and whatever [float] makes of it: the threshold it
    uses lies in (0, 1], so [find_fuzzy_duplicates] returns its groups
    and the handler raises nothing.  It returns [True] exactly when groups
    were found and the removal was confirmed; the body has then lost as
    many units as there are members, at least one.  Otherwise the editor
    is unchanged. *)
Theorem handle_fuzzy_duplicates_spec (editor : TMXEditor)
    (threshold_answer confirm_answer : string) :
  NoDup (oids (body editor)) →
  let threshold := read_threshold float threshold_answer in
  (0 < threshold)%Q ∧ (threshold <= 1)%Q
  ∧ ∃ groups, find_fuzzy_duplicates editor threshold = Ok groups
    ∧ _handle_fuzzy_duplicates float editor threshold_answer confirm_answer =
        (if bool_decide (groups ≠ []) && _confirm confirm_answer
         then ((remove_fuzzy_duplicates editor groups).1, Ok true)
         else (editor, Ok false))
    ∧ (groups ≠ [] →
         Z.of_nat (length (body (remove_fuzzy_duplicates editor groups).1))
         = Z.of_nat (length (body editor)) - Z.of_nat (length (members groups))
         ∧ (0 < length (members groups))%nat).
Proof.
  intros Hnd threshold.
  destruct (read_threshold_range threshold_answer) as [Hpos Hle]. fold threshold in Hpos, Hle.
  split; [done|]. split; [done|].
  assert (¬ (threshold == 0)%Q) as Hnz.
  { intros Hz. rewrite Hz in Hpos. by apply Qlt_irrefl in Hpos. }
  destruct (cluster_returns threshold (unique_tus_of editor)
              (seq 0 (length (unique_tus_of editor)))
              (replicate (length (unique_tus_of editor)) false) [] Hnz)
    as [groups Hfind]; [apply length_replicate|by intros i [_ ?]%elem_of_seq|].
  change (find_fuzzy_duplicates editor threshold = Ok groups) in Hfind.
  exists groups. split; [done|].
  pose proof (cluster_nonempty _ _ _ _ _ _ _ (Forall_nil_2 _) Hfind) as Hfull.
  pose proof (fuzzy_removal_fold editor threshold groups Hnd Hfind) as Hfold.
  pose proof (remove_fuzzy_duplicates_eq editor groups) as Heq.
  rewrite Hfold in Heq. cbn [fst snd] in Heq.
  unfold _handle_fuzzy_duplicates. fold threshold. rewrite Hfind.
  destruct groups as [|g groups].
  { split; [by rewrite bool_decide_eq_false_2 by (intros H; by apply H)|done]. }
  rewrite bool_decide_eq_true_2 by done. cbn [andb].
  pose proof (members_nonempty (g :: groups) ltac:(done) Hfull) as Hmem.
  pose proof (filter_length_split (λ n, oid n ∉ oids (member_elements (g :: groups)))
                (body editor)) as Hsplit.
  destruct (fold_left remove_similar (members (g :: groups)) (body editor, 0))
    as [b' r'] eqn:Hfold'.
  destruct (remove_similar_fold _ _ _ _ _ Hfold') as (Hlen & _ & _).
  injection Hfold as -> ->.
  rewrite Heq. cbn [fst snd body set_body]. split.
  - destruct (_confirm confirm_answer); [|done].
    f_equal. f_equal. apply bool_decide_eq_true_2. lia.
  - intros _. split; [lia|done].
Qed.

End HandlerProperties.

(** ** Which [tuv]s are read *)

Lemma last_filter_snoc {A} (P : A → Prop) `{!∀ x, Decision (P x)} (l : list A) (x : A) :
  last (filter P (l ++ [x])) = if decide (P x) then Some x else last (filter P l).
Proof.
  rewrite filter_app, filter_cons, filter_nil.
  destruct (decide (P x)); [by rewrite last_snoc|by rewrite app_nil_r].
Qed.

Lemma head_filter_snoc {A} (P : A → Prop) `{!∀ x, Decision (P x)} (l : list A) (x : A) :
  head (filter P (l ++ [x])) =
    match head (filter P l) with
    | Some y => Some y
    | None => if decide (P x) then Some x else None
    end.
Proof.
  rewrite filter_app, filter_cons, filter_nil.
  destruct (filter P l); simpl; [|done]. by destruct (decide (P x)).
Qed.

Lemma last_filter_weaker {A} (P Q : A → Prop) `{!∀ x, Decision (P x)}
    `{!∀ x, Decision (Q x)} (l : list A) :
  (∀ x, P x → Q x) → head (filter Q l) = None → last (filter P l) = None.
Proof.
  intros HPQ. induction l as [|x l IH]; [done|]. rewrite !filter_cons.
  destruct (decide (Q x)); [done|]. rewrite decide_False by (intros HP; auto). exact IH.
Qed.

Lemma source_choice_Some ed t0 p : ∃ s, source_choice ed (t0 :: p) = Some s.
Proof. unfold source_choice. destruct (last _); simpl; by eauto. Qed.

Lemma source_choice_snoc ed t0 p t :
  source_choice ed (t0 :: p ++ [t]) =
    if decide (tuv_lang t = source_lang ed) then Some t else source_choice ed (t0 :: p).
Proof.
  unfold source_choice. change (t0 :: p ++ [t]) with ((t0 :: p) ++ [t]).
  rewrite last_filter_snoc. destruct (decide (tuv_lang t = source_lang ed)); [done|].
  by destruct (last _).
Qed.

Lemma fold_pick_choice ed t0 p :
  fold_left (pick_tuv ed) p (Some t0, None) =
    (source_choice ed (t0 :: p),
     match last (filter (λ t, tuv_lang t ≠ source_lang ed ∧ tuv_lang t = target_lang ed) p) with
     | Some t => Some t
     | None => head (filter (λ t, tuv_lang t ≠ source_lang ed) p)
     end).
Proof.
  induction p as [|t p IH] using rev_ind.
  - cbn [fold_left]. unfold source_choice. rewrite filter_cons, !filter_nil.
    by destruct (decide _).
  - rewrite fold_left_app, IH. cbn [fold_left]. clear IH.
    rewrite source_choice_snoc, last_filter_snoc, head_filter_snoc.
    destruct (source_choice_Some ed t0 p) as [s ->].
    unfold pick_tuv.
    destruct (decide (tuv_lang t = source_lang ed)) as [Hsrc|Hsrc].
    + rewrite (bool_decide_eq_true_2 _ Hsrc). cbn [orb].
      rewrite decide_False by tauto. rewrite decide_False by tauto.
      destruct (last (filter _ p)) as [x|]; [done|].
      by destruct (head (filter _ p)).
    + rewrite (bool_decide_eq_false_2 _ Hsrc).
      rewrite (bool_decide_eq_false_2 (Some s = None)) by done. cbn [orb andb].
      destruct (decide (tuv_lang t = target_lang ed)) as [Htgt|Htgt].
      * rewrite (bool_decide_eq_true_2 _ Htgt). cbn [orb].
        by rewrite decide_True by done.
      * rewrite (bool_decide_eq_false_2 _ Htgt). cbn [orb].
        rewrite decide_False by tauto. rewrite decide_True by done.
        destruct (last (filter _ p)) as [x|] eqn:Hlast.
        -- by rewrite bool_decide_eq_false_2 by done.
        -- destruct (head (filter _ p)) as [y|].
           ++ by rewrite bool_decide_eq_false_2 by done.
           ++ by rewrite bool_decide_eq_true_2 by done.
Qed.

(** X17.  Which [tuv]s [_get_tu_texts] reads, for a unit with two or more.
    The source text is that of the last [tuv] in the source language,
    or, without one, of the first [tuv].  The target text is taken among
    the [tuv]s after the first: from the last one in the target language
    (not being the source language), or else from the first one not in
    the source language, or else from the second [tuv]. *)
Theorem get_tu_texts_choice (ed : TMXEditor) (tu : Element) :
  (2 ≤ length (findall "tuv" tu))%nat →
  ∃ s t, source_choice ed (findall "tuv" tu) = Some s
    ∧ target_choice ed (findall "tuv" tu) = Some t
    ∧ _get_tu_texts ed tu = Some (seg_text_of s, seg_text_of t).
Proof.
  intros Hlen. rewrite get_tu_texts_seg_text.
  destruct (findall "tuv" tu) as [|t0 [|t1 rest]]; simpl in Hlen; [lia..|].
  cbv zeta.
  change (fold_left (pick_tuv ed) (t0 :: t1 :: rest) (None, None))
    with (fold_left (pick_tuv ed) (t1 :: rest) (pick_tuv ed (None, None) t0)).
  rewrite pick_tuv_first, fold_pick_choice. cbn [fst snd].
  unfold target_choice. cbn [drop].
  destruct (source_choice_Some ed t0 (t1 :: rest)) as [s Hs].
  rewrite Hs.
  destruct (last (filter (λ t, tuv_lang t ≠ source_lang ed ∧ tuv_lang t = target_lang ed)
                    (t1 :: rest))) as [x|].
  { exists s, x. done. }
  destruct (head (filter (λ t, tuv_lang t ≠ source_lang ed) (t1 :: rest))) as [y|].
  { exists s, y. done. }
  exists s, t1. done.
Qed.

Lemma get_tu_texts_choice_witness :
  _get_tu_texts (en_es [])
    (Elem "tu" ∅ None None [mk_tuv "fr" "chat"; mk_tuv "es" "gato"; mk_tuv "en" "cat"])
  = Some ("cat", "gato").
Proof.
  destruct (get_tu_texts_choice (en_es [])
              (Elem "tu" ∅ None None [mk_tuv "fr" "chat"; mk_tuv "es" "gato"; mk_tuv "en" "cat"]))
    as (s & t & Hs & Ht & ->).
  - vm_compute. lia.
  - vm_compute in Hs. vm_compute in Ht. injection Hs as <-. injection Ht as <-.
    reflexivity.
Defined.

(** ** The examples of the exact deduplication *)

Lemma prefix_length n s : (String.length (PyStr.prefix n s) ≤ n)%nat.
Proof.
  unfold PyStr.prefix. revert s. induction n as [|n IH]; intros [|c s]; simpl; try lia.
  specialize (IH s). lia.
Qed.

Lemma omap_cons_Some {A B} (f : A → option B) (x : A) (l : list A) (y : B) :
  f x = Some y → omap f (x :: l) = y :: omap f l.
Proof. intros Hx. csimpl. by rewrite Hx. Qed.

Lemma example_of_Some ed tu s t :
  _get_tu_texts ed (elem tu) = Some (s, t) →
  example_of ed tu = Some (PyStr.prefix 80 s, PyStr.prefix 80 t).
Proof. intros H. unfold example_of. by rewrite H. Qed.

Lemma dedup_examples_fold ed l st :
  (length (duplicate_examples st) ≤ 10)%nat →
  duplicate_examples (fold_left (dedup_step ed) l st) =
    take 10 (duplicate_examples st ++ omap (example_of ed) (dups ed (seen_keys st) l)).
Proof.
  revert st. induction l as [|tu l IH]; intros st Hlen; cbn [fold_left dups].
  - csimpl. rewrite app_nil_r. by rewrite take_ge by lia.
  - unfold dedup_step at 2. unfold unit_key.
    destruct (_get_tu_texts ed (elem tu)) as [[s t]|] eqn:Htexts; [|by apply IH].
    destruct (decide (pair_key s t ∈ seen_keys st)).
    + rewrite (omap_cons_Some _ _ _ _ (example_of_Some _ _ _ _ Htexts)).
      destruct (decide (length (duplicate_examples st) < 10)%nat).
      * rewrite IH by (cbn; rewrite length_app; simpl; lia). cbn.
        by rewrite <- app_assoc.
      * rewrite IH by done. cbn.
        rewrite !take_app_le by lia. done.
    + by rewrite IH.
Qed.

(** X26.  The examples of [remove_exact_duplicates]: they are the texts
    of the first ten removed units, in order, each cut to 80 characters;
    so their number is the smaller of 10 and [removed_count]. *)
Theorem dedup_examples (ed : TMXEditor) (r : DedupResult) :
  (remove_exact_duplicates ed).2 = Ok r →
  Z.of_nat (length (examples r)) = Z.min 10 (removed_count r)
  ∧ examples r = take 10 (omap (example_of ed) (dups ed ∅ (body_findall "tu" (body ed))))
  ∧ Forall (λ ex, (String.length ex.1 ≤ 80)%nat ∧ (String.length ex.2 ≤ 80)%nat)
      (examples r).
Proof.
  unfold remove_exact_duplicates.
  pose proof (dedup_examples_fold ed (body_findall "tu" (body ed)) (MkDedupState ∅ [] []))
    as Hex. cbn in Hex. specialize (Hex ltac:(lia)).
  pose proof (dedup_scan_to_remove ed (body_findall "tu" (body ed)) (MkDedupState ∅ [] []))
    as Hrm. cbn in Hrm.
  unfold dedup_scan. destruct (remove_each _ _) as [b [e|]]; [done|].
  intros [= <-]. cbn [examples removed_count]. rewrite Hex, Hrm.
  set (marked := dups ed ∅ (body_findall "tu" (body ed))).
  assert (length (omap (example_of ed) marked) = length marked) as Hlen.
  { assert (Forall (λ tu, is_Some (unit_key ed tu)) marked) as Hkeys.
    { apply Forall_forall. intros tu Htu. apply dups_spec in Htu as (i & k & _ & Hk & _).
      by eauto. }
    induction Hkeys as [|tu l [k Hk] _ IH]; [done|]. csimpl.
    unfold example_of at 1. unfold unit_key in Hk.
    destruct (_get_tu_texts ed (elem tu)) as [[s t]|]; [|done]. csimpl. by rewrite IH. }
  split_and!.
  - rewrite length_take, Hlen. lia.
  - done.
  - apply Forall_take. apply Forall_forall. intros ex Hex'.
    apply list_elem_of_omap in Hex' as (tu & _ & Htu). unfold example_of in Htu.
    destruct (_get_tu_texts ed (elem tu)) as [[s t]|]; [|done].
    injection Htu as <-. split; apply prefix_length.
Qed.

Lemma dedup_examples_witness :
  ∃ r, (remove_exact_duplicates three_units).2 = Ok r ∧ examples r = [("CAT", "Gato")].
Proof.
  destruct (remove_exact_duplicates three_units).2 as [r|e] eqn:Hr.
  - exists r. split; [reflexivity|].
    destruct (dedup_examples three_units r Hr) as (_ & -> & _). by vm_compute.
  - vm_compute in Hr. discriminate Hr.
Defined.

(** ** What a group is made of *)

Lemma scan_candidates_each threshold unique_tus it_i js matched group_similar
    matched' group_similar' :
  (∀ j it_j, j ∈ js → unique_tus !! j = Some it_j → by_len it_i it_j) →
  Forall (member_of threshold unique_tus it_i) group_similar →
  scan_candidates threshold unique_tus it_i js matched group_similar =
    Ok (matched', group_similar') →
  Forall (member_of threshold unique_tus it_i) group_similar'.
Proof.
  revert matched group_similar.
  induction js as [|j js IH]; intros matched group_similar Hjs Hall; simpl.
  - by intros [= _ <-].
  - assert (∀ j' it_j, j' ∈ js → unique_tus !! j' = Some it_j → by_len it_i it_j) as Hjs'.
    { intros j' it_j Hj'. apply Hjs. by right. }
    destruct (matched !! j) as [[|]|]; [by apply IH| |done].
    destruct (unique_tus !! j) as [it_j|] eqn:Hj; [|done].
    destruct (too_long _ _ _) as [[|]|e]; [by intros [= _ <-]| |done].
    destruct (Qle_bool _ _) eqn:Hratio; [|by apply IH].
    apply IH; [done|]. apply Forall_app. split; [done|]. apply Forall_singleton.
    exists it_j. split_and!; [by eapply list_elem_of_lookup_2|done| |done].
    apply (Hjs j); [by left|done].
Qed.

Lemma cluster_each threshold unique_tus n rng matched groups result :
  StronglySorted by_len unique_tus →
  Forall (group_of threshold unique_tus) groups →
  cluster (scan_candidates threshold) unique_tus n rng matched groups = Ok result →
  Forall (group_of threshold unique_tus) result.
Proof.
  intros Hsorted. revert matched groups.
  induction rng as [|i rng IH]; intros matched groups Hall; simpl.
  - by intros [= <-].
  - destruct (matched !! i) as [[|]|]; [by apply IH| |done].
    destruct (unique_tus !! i) as [it_i|] eqn:Hi; [|done].
    destruct (scan_candidates _ _ _ _ _ _) as [[matched' group_similar]|e] eqn:Hscan;
      [|done].
    apply scan_candidates_each in Hscan; [|..|constructor].
    2:{ intros j it_j [Hj _]%elem_of_seq Hitj.
        apply (sorted_lookup unique_tus i j); [done|lia|done|done]. }
    apply IH. destruct group_similar as [|s sims]; [done|].
    apply Forall_app. split; [done|]. apply Forall_singleton.
    exists it_i. split_and!; [by eapply list_elem_of_lookup_2|done|done|done].
Qed.

Lemma unique_sources_norms tu_data (seen_exact : gmap string bool) :
  NoDup (norm_src <$> unique_sources tu_data seen_exact)
  ∧ ∀ it, it ∈ unique_sources tu_data seen_exact → seen_exact !! norm_src it = None.
Proof.
  revert seen_exact. induction tu_data as [|it rest IH]; intros seen_exact; simpl.
  - split; [constructor|]. by intros it ?%elem_of_nil.
  - destruct (seen_exact !! PyStr.normalize (src it)) as [b|] eqn:Hseen; [by apply IH|].
    destruct (IH (<[PyStr.normalize (src it) := true]> seen_exact)) as [Hnd Hfresh].
    split.
    + rewrite fmap_cons. apply NoDup_cons. split; [|done].
      intros (it' & Heq & Hin)%list_elem_of_fmap. apply Hfresh in Hin.
      unfold norm_src in *. rewrite <- Heq in Hin. by rewrite lookup_insert_eq in Hin.
    + intros it' [->|Hin]%elem_of_cons; [done|]. apply Hfresh in Hin.
      apply lookup_insert_None in Hin as [? _]. done.
Qed.

Lemma unique_tus_norms ed : NoDup (norm_src <$> unique_tus_of ed).
Proof.
  unfold unique_tus_of. rewrite sort_by_len_perm. apply unique_sources_norms.
Qed.

Lemma NoDup_fmap_inj {A B} (f : A → B) (l : list A) (x y : A) :
  NoDup (f <$> l) → x ∈ l → y ∈ l → f x = f y → x = y.
Proof.
  intros Hnd [i Hi]%list_elem_of_lookup [j Hj]%list_elem_of_lookup Heq.
  assert (i = j) as ->; [|congruence].
  eapply NoDup_lookup; [exact Hnd|..]; rewrite list_lookup_fmap.
  - by rewrite Hi.
  - rewrite Hj. simpl. by rewrite Heq.
Qed.

(** X13.  What a group of [find_fuzzy_duplicates] holds.  Every group has
    a member.  A member is another unit than the representative of its
    group, its source is at least as long as the representative's, and
    its normalised source differs from the representative's. *)
Theorem fuzzy_members_spec (ed : TMXEditor) (threshold : Q) (groups : list Group) :
  find_fuzzy_duplicates ed threshold = Ok groups →
  Forall (λ g, similar_tus g ≠ []
    ∧ Forall (λ s,
        PyStr.len (representative_source g) ≤ PyStr.len (s_source s)
        ∧ s_tu_number s ≠ representative_tu g
        ∧ PyStr.normalize (s_source s) ≠ PyStr.normalize (representative_source g))
      (similar_tus g)) groups.
Proof.
  intros Hfind. unfold find_fuzzy_duplicates, fuzzy_with in Hfind.
  pose proof (cluster_nonempty _ _ _ _ _ _ _ (Forall_nil_2 _) Hfind) as Hfull.
  pose proof (cluster_each _ _ _ _ _ _ _ (sort_by_len_sorted _) (Forall_nil_2 _) Hfind)
    as Heach.
  pose proof (unique_tus_numbers ed) as Hnums.
  pose proof (unique_tus_norms ed) as Hnorms.
  eapply cluster_spec in Hfind as [matched' (_ & _ & _ & _ & Hown)]; [|done|].
  2:{ exists []. split_and!; [constructor|constructor|by intros ? ?%elem_of_nil|constructor]. }
  apply Forall_forall. intros g Hg.
  rewrite Forall_forall in Hfull. rewrite Forall_forall in Heach.
  rewrite Forall_forall in Hown.
  split; [by apply Hfull|].
  destruct (Heach g Hg) as (it_i & Hi & Hnum & Hsrc & Hmem).
  specialize (Hown g Hg).
  apply Forall_forall. intros s Hs. rewrite Forall_forall in Hmem.
  destruct (Hmem s Hs) as (it_j & Hj & Heqs & Hlen & Hratio).
  assert (s_tu_number s ≠ representative_tu g) as Hother.
  { intros Heq. apply Hown. unfold similar_numbers.
    apply list_elem_of_fmap. exists s. by split. }
  rewrite Heqs in *. cbn [s_source s_tu_number similar_of] in *. rewrite Hsrc.
  split_and!.
  - exact Hlen.
  - exact Hother.
  - intros Heq. apply Hother.
    assert (it_j = it_i) as Hsame.
    { apply (NoDup_fmap_inj norm_src (unique_tus_of ed)); done. }
    by rewrite Hnum, Hsame.
Qed.

Lemma fuzzy_members_spec_witness :
  ∃ groups, find_fuzzy_duplicates colours (8 # 10) = Ok groups
    ∧ Forall (λ g, similar_tus g ≠ []
        ∧ Forall (λ s, PyStr.len (representative_source g) ≤ PyStr.len (s_source s))
            (similar_tus g)) groups
    ∧ group_sources (Ok groups) = Some [("color", ["colour"])].
Proof.
  destruct (find_fuzzy_duplicates colours (8 # 10)) as [groups|e] eqn:Hret.
  - exists groups. split_and!; [reflexivity| |].
    + eapply Forall_impl; [exact (fuzzy_members_spec colours (8 # 10) groups Hret)|].
      intros g [? Hmem]. split; [done|]. eapply Forall_impl; [exact Hmem|].
      by intros s [? _].
    + revert Hret. vm_compute. by intros [= <-].
  - vm_compute in Hret. discriminate Hret.
Defined.

(** ** Filter: what a result holds *)

Lemma sublist_filter_impl {A} (P Q : A → Prop) `{!∀ x, Decision (P x)}
    `{!∀ x, Decision (Q x)} (l : list A) :
  (∀ x, P x → Q x) → filter P l `sublist_of` filter Q l.
Proof.
  intros HPQ. induction l as [|x l IH]; [done|]. rewrite !filter_cons.
  destruct (decide (P x)) as [HP|HP].
  - rewrite decide_True by auto. by apply sublist_skip.
  - destruct (decide (Q x)); [by apply sublist_cons|done].
Qed.

Lemma ltb_empty d : d ≠ "" → PyStr.ltb "" d = true.
Proof. by destruct d. Qed.

Lemma prefix_empty n : PyStr.prefix n "" = "".
Proof. by destruct n. Qed.

Section FilterResult.

Context (Pattern : Type) (re_compile : string → option Pattern)
        (re_search : Pattern → string → bool).

Lemma filter_tus_Ok ed c invert r :
  filter_tus Pattern re_compile re_search ed c invert = Ok r →
  ∃ src_re tgt_re,
    compile_if Pattern re_compile (source_pattern c) = Ok src_re
    ∧ compile_if Pattern re_compile (target_pattern c) = Ok tgt_re
    ∧ r = filter (λ tu, selects Pattern re_search ed src_re tgt_re c invert tu = true)
            (body_findall "tu" (body ed)).
Proof.
  unfold filter_tus.
  destruct (compile_if _ _ (source_pattern c)) as [src_re|e]; [|done].
  destruct (compile_if _ _ (target_pattern c)) as [tgt_re|e]; [|done].
  intros [= <-]. exists src_re, tgt_re. split_and!; [done|done|].
  by rewrite filter_loop.
Qed.

Lemma matches_date_from src_re tgt_re c tu s t d :
  date_from c = Some d → d ≠ "" →
  tu_matches Pattern re_search src_re tgt_re c tu s t = true →
  PyStr.ltb (PyStr.prefix 8 (get_default tu "creationdate" "")) d = false.
Proof.
  intros Hd Hne. unfold tu_matches. rewrite Hd.
  assert (PyStr.truthy d = true) as Htr by by destruct d.
  cbn [PyStr.otruthy]. rewrite Htr. cbn [orb andb].
  assert ((if PyStr.truthy (get_default tu "creationdate" "")
           then PyStr.prefix 8 (get_default tu "creationdate" "") else "")
          = PyStr.prefix 8 (get_default tu "creationdate" "")) as ->.
  { destruct (get_default tu "creationdate" ""); [by rewrite prefix_empty|done]. }
  destruct (PyStr.ltb _ d); [|done].
  destruct (date_to c) as [d'|]; [|done]. by destruct (_ && _).
Qed.

Lemma matches_date_to src_re tgt_re c tu s t d :
  date_to c = Some d → d ≠ "" →
  tu_matches Pattern re_search src_re tgt_re c tu s t = true →
  PyStr.gtb (PyStr.prefix 8 (get_default tu "creationdate" "")) d = false.
Proof.
  intros Hd Hne. unfold tu_matches. rewrite Hd.
  assert (PyStr.truthy d = true) as Htr by by destruct d.
  cbn [PyStr.otruthy]. rewrite Htr, orb_true_r. cbn [andb].
  assert ((if PyStr.truthy (get_default tu "creationdate" "")
           then PyStr.prefix 8 (get_default tu "creationdate" "") else "")
          = PyStr.prefix 8 (get_default tu "creationdate" "")) as ->.
  { destruct (get_default tu "creationdate" ""); [by rewrite prefix_empty|done]. }
  by destruct (PyStr.gtb _ d).
Qed.

(** X27.  What [filter_tus] returns when the patterns compile: units of
    the body that have texts, in document order; all of them when no
    criterion is given (none with [invert]).  Without [invert], a
    non-empty [date_from] keeps only units with a [creationdate] whose
    first 8 characters are not below it - a unit without the attribute
    is dropped - and a non-empty [date_to] only units whose date part is
    not above it. *)
Theorem filter_tus_result (ed : TMXEditor) (c : Criteria) (invert : bool)
    (r : list Node) :
  filter_tus Pattern re_compile re_search ed c invert = Ok r →
  r `sublist_of` readable ed (body_findall "tu" (body ed))
  ∧ (c = MkCriteria None None None None →
       r = if invert then [] else readable ed (body_findall "tu" (body ed)))
  ∧ (invert = false → ∀ d tu, date_from c = Some d → d ≠ "" → tu ∈ r →
       PyStr.ltb (PyStr.prefix 8 (get_default (elem tu) "creationdate" "")) d = false
       ∧ get_default (elem tu) "creationdate" "" ≠ "")
  ∧ (invert = false → ∀ d tu, date_to c = Some d → d ≠ "" → tu ∈ r →
       PyStr.gtb (PyStr.prefix 8 (get_default (elem tu) "creationdate" "")) d = false).
Proof.
  intros (src_re & tgt_re & Hsrc & Htgt & ->)%filter_tus_Ok. split_and!.
  - apply sublist_filter_impl. intros tu. unfold selects.
    destruct (_get_tu_texts ed (elem tu)); [by eauto|done].
  - intros ->. cbn in Hsrc, Htgt. injection Hsrc as <-. injection Htgt as <-.
    destruct invert.
    + apply filter_none, Forall_forall. intros tu _. unfold selects.
      by destruct (_get_tu_texts ed (elem tu)) as [[s t]|].
    + apply filter_ext_in, Forall_forall. intros tu _. unfold selects.
      destruct (_get_tu_texts ed (elem tu)) as [[s t]|]; cbn.
      * split; [by eauto|done].
      * split; [done|by intros [? ?]].
  - intros -> d tu Hd Hne [Hsel _]%list_elem_of_filter. unfold selects in Hsel.
    destruct (_get_tu_texts ed (elem tu)) as [[s t]|]; [|done].
    pose proof (matches_date_from _ _ _ _ _ _ _ Hd Hne Hsel) as Hlt.
    split; [done|]. intros Hempty. rewrite Hempty, prefix_empty in Hlt.
    by rewrite ltb_empty in Hlt.
  - intros -> d tu Hd Hne [Hsel _]%list_elem_of_filter. unfold selects in Hsel.
    destruct (_get_tu_texts ed (elem tu)) as [[s t]|]; [|done].
    by eapply matches_date_to.
Qed.

End FilterResult.

Lemma filter_tus_result_witness :
  filter_tus string Some prefix_search three_units (MkCriteria None None None None) false
  = Ok (body three_units).
Proof.
  destruct (filter_tus string Some prefix_search three_units
              (MkCriteria None None None None) false) as [r|e] eqn:Hr.
  - destruct (filter_tus_result string Some prefix_search three_units _ false r Hr)
      as (_ & Hall & _).
    rewrite (Hall eq_refl). by vm_compute.
  - vm_compute in Hr. discriminate Hr.
Defined.

(** ** Batch merge *)

Lemma tus_app_new (b new : list Node) :
  Forall (λ n, tag (elem n) = "tu") new →
  body_findall "tu" (b ++ new) = body_findall "tu" b ++ new.
Proof.
  intros Hnew. unfold body_findall. rewrite filter_app. f_equal. by apply filter_all.
Qed.

Lemma merge_from_appends self other strategy h :
  strategy ≠ "replace" →
  ∃ r new, merge_from self other strategy h = (set_body self (body self ++ new), Ok r)
    ∧ Forall (λ n, tag (elem n) = "tu") new
    ∧ added r = Z.of_nat (length new)
    ∧ replaced r = 0
    ∧ (strategy ∈ ["skip"; "replace"; "keep_both"] →
         added r + skipped r
         = Z.of_nat (length (readable other (body_findall "tu" (body other))))).
Proof.
  intros Hne. unfold merge_from. destruct (build_index self) as [pairs sources].
  destruct (merge_loop_appends other strategy (body_findall "tu" (body other))
              (MkMergeState (body self) pairs sources 0 0 0 h) Hne)
    as (st' & new & Hloop & Hb & Hsub & Ha & Hr).
  rewrite Hloop. cbn [m_body m_added m_replaced] in Hb, Ha, Hr.
  eexists _, new. rewrite Hb. split; [done|]. cbn. split_and!; [|lia|done|].
  - apply Forall_forall. intros n Hn.
    assert (elem n ∈ elem <$> readable other (body_findall "tu" (body other))) as Hin.
    { eapply elem_of_sublist; [|exact Hsub]. by apply list_elem_of_fmap_2. }
    apply list_elem_of_fmap in Hin as (m & -> & Hm).
    apply list_elem_of_filter in Hm as [_ Hm]. by apply list_elem_of_filter in Hm as [? _].
  - intros Hvalid. apply (merge_loop_counts _ _ _ _ _ Hvalid) in Hloop. cbn in Hloop. lia.
Qed.

Lemma merge_each_appends editor others strategy h a s r :
  strategy ≠ "replace" →
  ∃ a' s' new,
    merge_each editor others strategy h (a, s, r) =
      (set_body editor (body editor ++ new), Ok (a', s', r))
    ∧ Forall (λ n, tag (elem n) = "tu") new
    ∧ a' = a + Z.of_nat (length new)
    ∧ (strategy ∈ ["skip"; "replace"; "keep_both"] →
         a' + s' = a + s + readable_total others).
Proof.
  intros Hne. revert editor h a s.
  induction others as [|other rest IH]; intros editor h a s; cbn [merge_each].
  - exists a, s, []. rewrite app_nil_r. split_and!.
    + by destruct editor.
    + constructor.
    + simpl. lia.
    + intros _. unfold readable_total. simpl. lia.
  - destruct (merge_from_appends editor other strategy h Hne)
      as (res & new & -> & Hnew & Hadd & Hrep & Hsum).
    destruct (IH (set_body editor (body editor ++ new))
                 (h + Z.to_nat (added res + replaced res))%nat
                 (a + added res) (s + skipped res))
      as (a' & s' & new' & Heq & Hnew' & Ha' & Hsum').
    rewrite Hrep, (Z.add_0_r r). rewrite Hrep in Heq. rewrite Heq.
    exists a', s', (new ++ new'). split_and!.
    + cbn. by rewrite <- app_assoc.
    + by apply Forall_app.
    + rewrite length_app. lia.
    + intros Hvalid. unfold readable_total in *. rewrite fmap_cons, total_of_cons.
      specialize (Hsum Hvalid). specialize (Hsum' Hvalid). lia.
Qed.

(** X23.  [_batch_merge] of two or more files under a strategy other than
    [replace] runs to its end: the body of the first file is kept as a
    prefix, the number of units printed at the end is the number the first
    file had plus [total_added], [total_replaced] is 0, all files are
    counted as merged, and under [skip]
    and [keep_both] every unit with texts of the other files is either
    added or skipped. *)
Theorem batch_merge_totals (base : TMXEditor) (others : list TMXEditor)
    (strategy : string) (h : nat) :
  strategy ≠ "replace" → others ≠ [] →
  ∃ editor report,
    _batch_merge (base :: others) strategy h = Some (editor, Ok report)
    ∧ body base `prefix_of` body editor
    ∧ final_total_tus report
      = Z.of_nat (length (body_findall "tu" (body base))) + total_added report
    ∧ total_replaced report = 0
    ∧ files_merged report = Z.of_nat (length others) + 1
    ∧ (strategy ∈ ["skip"; "keep_both"] →
         total_added report + total_skipped report = readable_total others).
Proof.
  intros Hne Hothers. unfold _batch_merge.
  destruct others as [|other rest]; [done|].
  destruct (merge_each_appends base (other :: rest) strategy h 0 0 0 Hne)
    as (a' & s' & new & -> & Hnew & Ha' & Hsum).
  eexists _, _. split; [done|]. cbn [body set_body final_total_tus total_added
    total_replaced files_merged total_skipped].
  split_and!.
  - by exists new.
  - destruct (get_statistics_counts (set_body base (body base ++ new))) as (-> & _).
    cbn [body set_body]. rewrite tus_app_new by done. rewrite length_app. lia.
  - done.
  - cbn [length]. lia.
  - intros Hvalid. rewrite Hsum; [lia|].
    apply elem_of_cons in Hvalid as [->|Hvalid]; [left|].
    apply elem_of_cons in Hvalid as [->|Hvalid]; [|by apply elem_of_nil in Hvalid].
    right. right. left.
Qed.

Lemma batch_merge_totals_witness :
  ∃ editor report,
    _batch_merge [hello_A; hello_B; bye_C] "skip" 100 = Some (editor, Ok report)
    ∧ final_total_tus report = 2 ∧ total_added report = 1 ∧ total_skipped report = 2.
Proof.
  destruct (batch_merge_totals hello_A [hello_B; bye_C] "skip" 100)
    as (editor & report & Heq & _ & Htotal & _ & _ & Hsum).
  - discriminate.
  - discriminate.
  - exists editor, report. split; [exact Heq|].
    assert (total_added report = 1) as Hadded.
    { revert Heq. vm_compute. intros [= <- <-]. reflexivity. }
    rewrite Hadded in *. split_and!.
    + rewrite Htotal. by vm_compute.
    + done.
    + assert (1 + total_skipped report = 3) as Hthree; [|lia].
      rewrite Hsum; [by vm_compute|left].
Defined.

(** ** Instances of the statements above *)

Lemma handle_fuzzy_duplicates_spec_witness :
  (_handle_fuzzy_duplicates (λ _, Some (FloatFinite 80)) colours "80" "y").2 = Ok true.
Proof.
  destruct (handle_fuzzy_duplicates_spec (λ _, Some (FloatFinite 80)) colours "80" "y"
              colours_NoDup) as (_ & _ & groups & Hfind & -> & _).
  assert (groups ≠ []) as Hne.
  { revert Hfind. vm_compute. intros [= <-]. discriminate. }
  rewrite bool_decide_eq_true_2 by done. reflexivity.
Defined.

Lemma hello_keys_NoDup :
  NoDup (omap (unit_key hello_A) (body_findall "tu" (body hello_A))).
Proof. apply (bool_decide_unpack _). by vm_compute. Defined.

Lemma merge_skip_brings_no_duplicate_witness :
  exact_duplicates (get_statistics (merge_from hello_A ciao_twice_B "skip" 100).1) = 0.
Proof.
  destruct (merge_skip_brings_no_duplicate hello_A ciao_twice_B 100) as [Hkeys _].
  - reflexivity.
  - reflexivity.
  - exact (proj2 (Hkeys hello_keys_NoDup)).
Defined.

(** With [keep_both] the same file does bring a duplicate: the pair of
    the second incoming unit is not recorded when the first is appended. *)
Example keep_both_brings_duplicate :
  exact_duplicates (get_statistics (merge_from hello_A ciao_twice_B "keep_both" 100).1) = 1.
Proof. by vm_compute. Qed.

(** ** The normal form of a text *)

Lemma lower_char_idemp c : PyStr.lower_char (PyStr.lower_char c) = PyStr.lower_char c.
Proof. by destruct c as [[] [] [] [] [] [] [] []]. Qed.

Lemma isspace_lower_char c : PyStr.isspace (PyStr.lower_char c) = PyStr.isspace c.
Proof. by destruct c as [[] [] [] [] [] [] [] []]. Qed.

Lemma lower_idemp s : PyStr.lower (PyStr.lower s) = PyStr.lower s.
Proof. induction s as [|c s IH]; simpl; [done|]. by rewrite lower_char_idemp, IH. Qed.

Lemma lower_of_list l :
  PyStr.lower (String.string_of_list_ascii l)
  = String.string_of_list_ascii (PyStr.lower_char <$> l).
Proof. induction l as [|c l IH]; simpl; [done|]. by rewrite IH. Qed.

Lemma fmap_rev {A B} (f : A → B) (l : list A) : f <$> rev l = rev (f <$> l).
Proof.
  induction l as [|x l IH]; [done|]. rewrite fmap_cons. simpl.
  by rewrite fmap_app, IH.
Qed.

Lemma split_aux_lower s cur :
  PyStr.split_aux (PyStr.lower s) (PyStr.lower_char <$> cur)
  = PyStr.lower <$> PyStr.split_aux s cur.
Proof.
  revert cur. induction s as [|c s IH]; intros cur; simpl.
  - destruct cur as [|x cur]; [done|]. rewrite fmap_cons. simpl.
    by rewrite lower_of_list, fmap_app, fmap_rev.
  - rewrite isspace_lower_char. pose proof (IH []) as IH0. rewrite fmap_nil in IH0.
    destruct (PyStr.isspace c).
    + destruct cur as [|x cur]; [done|].
      rewrite fmap_cons. simpl. rewrite IH0.
      by rewrite lower_of_list, fmap_app, fmap_rev.
    + apply (IH (c :: cur)).
Qed.

Lemma split_lower s : PyStr.split (PyStr.lower s) = PyStr.lower <$> PyStr.split s.
Proof. apply (split_aux_lower s []). Qed.

(** [split] as a function on lists of characters. *)
Lemma split_aux_words s cur :
  Forall (λ c, PyStr.isspace c = false) cur →
  ∃ ws, PyStr.split_aux s cur = String.string_of_list_ascii <$> ws
        ∧ Forall is_word ws.
Proof.
  revert cur. induction s as [|c s IH]; intros cur Hcur; simpl.
  - destruct cur as [|x cur]; [by exists []|].
    exists [rev (x :: cur)]. split; [done|]. constructor; [|constructor]. split.
    + simpl. by destruct (rev cur).
    + by apply Forall_rev.
  - destruct (PyStr.isspace c) eqn:Hc.
    + destruct (IH [] (Forall_nil_2 _)) as (ws & -> & Hws).
      destruct cur as [|x cur]; [by exists ws|].
      exists (rev (x :: cur) :: ws). split; [done|]. constructor; [|done]. split.
      * simpl. by destruct (rev cur).
      * by apply Forall_rev.
    + apply IH. by constructor.
Qed.

Lemma string_of_list_app l s :
  String.string_of_list_ascii l +:+ s
  = fold_right String s l.
Proof.
  induction l as [|c l IH]; simpl; [done|]. by rewrite append_cons, IH.
Qed.

Lemma string_of_list_fold l :
  String.string_of_list_ascii l = fold_right String "" l.
Proof. induction l as [|c l IH]; simpl; [done|]. by rewrite IH. Qed.

Lemma split_aux_word w s cur :
  Forall (λ c, PyStr.isspace c = false) w →
  PyStr.split_aux (fold_right String s w) cur = PyStr.split_aux s (rev w ++ cur).
Proof.
  intros Hw. revert cur. induction Hw as [|c w Hc _ IH]; intros cur; simpl; [done|].
  rewrite Hc, IH. by rewrite <- app_assoc.
Qed.

Lemma join_words_cons w ws :
  ws ≠ [] →
  PyStr.join " " (String.string_of_list_ascii <$> (w :: ws))
  = fold_right String
      (String " " (PyStr.join " " (String.string_of_list_ascii <$> ws))) w.
Proof.
  intros Hws. unfold PyStr.join. rewrite fmap_cons.
  destruct ws as [|w' ws]; [done|]. rewrite fmap_cons.
  cbn [String.concat]. by rewrite string_of_list_app.
Qed.

Lemma split_join_words ws :
  Forall is_word ws →
  PyStr.split (PyStr.join " " (String.string_of_list_ascii <$> ws))
  = String.string_of_list_ascii <$> ws.
Proof.
  unfold PyStr.split. induction 1 as [|w ws [Hne Hw] Hws IH]; [done|].
  destruct ws as [|w' ws].
  - unfold PyStr.join. rewrite fmap_cons, fmap_nil. cbn [String.concat].
    rewrite string_of_list_fold, split_aux_word by done. simpl.
    rewrite app_nil_r. destruct (rev w) eqn:Hrev.
    + apply (f_equal (@rev ascii)) in Hrev. rewrite rev_involutive in Hrev. done.
    + by rewrite <- Hrev, rev_involutive.
  - rewrite join_words_cons by done. rewrite split_aux_word by done.
    rewrite app_nil_r. cbn [PyStr.split_aux].
    change (PyStr.isspace " ") with true. cbv iota.
    rewrite IH. destruct (rev w) eqn:Hrev.
    + apply (f_equal (@rev ascii)) in Hrev. rewrite rev_involutive in Hrev. done.
    + by rewrite <- Hrev, rev_involutive.
Qed.

Lemma lower_join_space ws :
  PyStr.lower (PyStr.join " " ws) = PyStr.join " " (PyStr.lower <$> ws).
Proof.
  assert (∀ a b, PyStr.lower (a +:+ b) = PyStr.lower a +:+ PyStr.lower b) as Happ.
  { intros a b. induction a as [|c a IH]; [done|].
    rewrite append_cons. simpl. by rewrite IH. }
  unfold PyStr.join. induction ws as [|w ws IH]; [done|].
  destruct ws as [|w' ws]; [done|].
  rewrite !fmap_cons. cbn [String.concat] in *.
  change (String.append ?a ?b) with (a +:+ b) in *.
  rewrite !Happ. rewrite fmap_cons in IH. by rewrite IH.
Qed.

(** X28.  The normal form the keys are built from,
    [' '.join(s.lower().split())], on ASCII text: normalising twice is
    normalising once; the case of the text and white space around it do
    not matter; and the words of the normal form are the words of the
    lower-cased text. *)
Theorem normalize_canonical (s : string) :
  isascii s →
  PyStr.normalize (PyStr.normalize s) = PyStr.normalize s
  ∧ PyStr.normalize (PyStr.lower s) = PyStr.normalize s
  ∧ PyStr.normalize (" " +:+ s +:+ " ") = PyStr.normalize s
  ∧ PyStr.split (PyStr.normalize s) = PyStr.split (PyStr.lower s).
Proof.
  intros _.
  destruct (split_aux_words (PyStr.lower s) [] (Forall_nil_2 _)) as (ws & Hws & Hall).
  fold (PyStr.split (PyStr.lower s)) in Hws.
  assert (PyStr.split (PyStr.normalize s) = PyStr.split (PyStr.lower s)) as Hsplit.
  { unfold PyStr.normalize. rewrite Hws. by apply split_join_words. }
  assert (PyStr.lower <$> PyStr.split (PyStr.lower s) = PyStr.split (PyStr.lower s)) as Hlow.
  { rewrite <- split_lower. by rewrite lower_idemp. }
  split_and!.
  - unfold PyStr.normalize at 1. rewrite split_lower, Hsplit. by rewrite Hlow.
  - unfold PyStr.normalize. by rewrite lower_idemp.
  - unfold PyStr.normalize. f_equal. unfold PyStr.split.
    assert (∀ a b, PyStr.lower (a +:+ b) = PyStr.lower a +:+ PyStr.lower b) as Happ.
    { intros a b. induction a as [|c a IH]; [done|].
      rewrite append_cons. simpl. by rewrite IH. }
    rewrite !Happ. change (PyStr.lower " ") with " ".
    rewrite append_cons, append_nil. cbn [PyStr.split_aux].
    change (PyStr.isspace " ") with true. cbv iota.
    generalize (PyStr.lower s). generalize (@nil ascii).
    intros cur t. revert cur. induction t as [|c t IH]; intros cur.
    + rewrite append_nil. simpl. change (PyStr.isspace " ") with true. cbv iota.
      by destruct cur.
    + rewrite append_cons. simpl. destruct (PyStr.isspace c); [|by apply IH].
      destruct cur; by rewrite IH.
  - done.
Qed.

Lemma normalize_canonical_witness :
  PyStr.normalize (PyStr.normalize "  Hello   World ") = "hello world"
  ∧ PyStr.normalize (" " +:+ "  Hello   World " +:+ " ") = "hello world".
Proof.
  assert (isascii "  Hello   World ") as Hs.
  { apply (bool_decide_unpack _). by vm_compute. }
  destruct (normalize_canonical "  Hello   World " Hs) as (-> & _ & -> & _).
  split; reflexivity.
Defined.

Module RatioProps.
Import Difflib DifflibSpec DifflibProps.

Lemma blocks_loop_nonneg fuel a b b2j queue matching_blocks :
  Forall range_ok queue → 0 ≤ sum_sizes matching_blocks →
  0 ≤ sum_sizes (blocks_loop fuel a b b2j queue matching_blocks).
Proof.
  revert queue matching_blocks.
  induction fuel as [|fuel IH]; intros queue matching_blocks Hq Hm; [done|].
  destruct queue as [|q queue]; [done|].
  apply Forall_cons in Hq as [Hq Hqueue].
  rewrite blocks_loop_step.
  pose proof (found_range a b b2j q Hq) as Hx.
  set (x := found a b b2j q) in *.
  destruct (pushed_ok q x Hq Hx) as (Hpushed & _).
  assert (0 ≤ x.2) by apply Hx.
  destruct (decide (x.2 = 0)); [by apply IH|].
  apply IH; [by apply Forall_app|]. rewrite sum_sizes_snoc. lia.
Qed.

Lemma matches_nonneg a b : 0 ≤ sum_sizes (get_matching_blocks a b).
Proof.
  unfold get_matching_blocks.
  rewrite sum_sizes_snoc, collapse_sum, sort_blocks_sum.
  assert (0 ≤ sum_sizes
            (blocks_loop (rounds a) a b (chain_b b)
               [(0, Z.of_nat (length a), 0, Z.of_nat (length b))] [])) as Hnn.
  { apply blocks_loop_nonneg; [|done].
    apply Forall_cons. split; [|apply Forall_nil_2]. unfold range_ok. simpl. lia. }
  cbn [snd sum_sizes foldr]. lia.
Qed.

Lemma ratio_range (a b : string) : (0 <= ratio a b)%Q ∧ (ratio a b <= 1)%Q.
Proof.
  unfold ratio, _calculate_ratio.
  set (la := String.list_ascii_of_string a). set (lb := String.list_ascii_of_string b).
  destruct (matches_le la lb) as [Ha Hb]. pose proof (matches_nonneg la lb) as Hnn.
  set (M := sum_sizes (get_matching_blocks la lb)) in *.
  destruct (decide (Z.of_nat (length la) + Z.of_nat (length lb) = 0)) as [|Hne].
  - split; discriminate.
  - unfold Qle. simpl. rewrite Z2Pos.id by lia. split; lia.
Qed.

End RatioProps.

Lemma scan_candidates_nothing threshold unique_tus it_i js matched group_similar r :
  (1 < threshold)%Q →
  scan_candidates threshold unique_tus it_i js matched group_similar = Ok r →
  r = (matched, group_similar).
Proof.
  intros Hgt. revert matched group_similar.
  induction js as [|j js IH]; intros matched group_similar; simpl.
  - by intros [= <-].
  - destruct (matched !! j) as [[|]|]; [by apply IH| |done].
    destruct (unique_tus !! j) as [it_j|]; [|done].
    destruct (too_long _ _ _) as [[|]|e]; [by intros [= <-]| |done].
    destruct (Qle_bool threshold _) eqn:Hle; [|by apply IH].
    exfalso. apply Qle_bool_iff in Hle.
    destruct (RatioProps.ratio_range (PyStr.lower (src it_i)) (PyStr.lower (src it_j)))
      as [_ Hone].
    apply (Qlt_irrefl 1). eapply Qlt_le_trans; [exact Hgt|].
    eapply Qle_trans; [exact Hle|exact Hone].
Qed.

Lemma cluster_nothing threshold unique_tus n rng matched groups result :
  (1 < threshold)%Q →
  cluster (scan_candidates threshold) unique_tus n rng matched groups = Ok result →
  result = groups.
Proof.
  intros Hgt. revert matched groups.
  induction rng as [|i rng IH]; intros matched groups; simpl.
  - by intros [= <-].
  - destruct (matched !! i) as [[|]|]; [by apply IH| |done].
    destruct (unique_tus !! i) as [it_i|]; [|done].
    destruct (scan_candidates _ _ _ _ _ _) as [[matched' group_similar]|e] eqn:Hscan;
      [|done].
    apply scan_candidates_nothing in Hscan as [= -> ->]; [|done]. apply IH.
Qed.

(** X14.  The ratio of the matcher lies between 0 and 1.  So with a
    threshold above 1 [find_fuzzy_duplicates] returns no group. *)
Theorem ratio_between_zero_and_one :
  (∀ a b, (0 <= Difflib.ratio a b)%Q ∧ (Difflib.ratio a b <= 1)%Q)
  ∧ (∀ ed threshold, (1 < threshold)%Q → find_fuzzy_duplicates ed threshold = Ok []).
Proof.
  split; [apply RatioProps.ratio_range|].
  intros ed threshold Hgt.
  assert (¬ (threshold == 0)%Q) as Hnz.
  { intros Hz. rewrite Hz in Hgt. discriminate Hgt. }
  destruct (cluster_returns threshold (unique_tus_of ed)
              (seq 0 (length (unique_tus_of ed)))
              (replicate (length (unique_tus_of ed)) false) [] Hnz)
    as [groups Hfind]; [apply length_replicate|by intros i [_ ?]%elem_of_seq|].
  unfold find_fuzzy_duplicates, fuzzy_with. rewrite Hfind.
  by rewrite (cluster_nothing _ _ _ _ _ _ _ Hgt Hfind).
Qed.

Lemma ratio_between_zero_and_one_witness :
  find_fuzzy_duplicates colours (11 # 10) = Ok [].
Proof.
  destruct ratio_between_zero_and_one as [_ Hnone]. apply Hnone. reflexivity.
Defined.
